(** * NeuralProphet [TimeNet]: forward composition, quantile reconciliation,
      loss assembly and training step

    A shallow embedding of [neuralprophet/time_net.py].

    Numbers.  Tensor entries are 32-bit floats in the source.  The embedding
    works with exact numbers: rationals ([Q]) wherever the code only adds,
    multiplies, negates, compares and takes maxima, and reals ([R]) for the
    recency weight, which needs a cosine.  Rounding, infinities and NaN are
    outside the model.

    Tensors.  A tensor of dims (batch, time, channel) is a list of lists of
    rows, a row being the list of the channel values at one (batch, time)
    position.  A tensor of dims (batch, time) is a list of lists of numbers.
    Operations that torch refuses on mismatching shapes truncate to the
    common shape here; the theorems that depend on shapes say so. *)

From Stdlib Require Import QArith Qminmax ZArith Lia Reals Lra Lqa.
From stdpp Require Import base list strings sorting.

Set Default Proof Using "Type".

(** ** Grids: the two leading axes of every tensor *)

Module Tensor.

Abbreviation grid A := (list (list A)).
Abbreviation row := (list Q).
Abbreviation matrix := (list (list Q)).
Abbreviation tensor := (list (list (list Q))).

(** An elementwise operation over the two leading axes. *)
Definition pw {A B : Type} (f : A -> B) (g : grid A) : grid B :=
  map (map f) g.

(** An elementwise binary operation over the two leading axes. *)
Definition pw2 {A B C : Type} (f : A -> B -> C) (g1 : grid A) (g2 : grid B)
  : grid C :=
  zip_with (zip_with f) g1 g2.

Local Open Scope Q_scope.

(** [t[:, :, k]] *)
Definition chan (k : nat) (t : tensor) : matrix :=
  pw (fun r => nth k r 0) t.

(** [t[:, :, k] = m] *)
Definition set_chan (k : nat) (m : matrix) (t : tensor) : tensor :=
  pw2 (fun r v => <[k := v]> r) t m.

(** [t[:, :, lo:hi]] *)
Definition slice (lo hi : nat) (t : tensor) : tensor :=
  pw (fun r => take (hi - lo) (drop lo r)) t.

(** [t[:, :, lo:hi] = x] *)
Definition set_slice (lo hi : nat) (x t : tensor) : tensor :=
  pw2 (fun r v => take lo r ++ v ++ drop hi r) t x.

(** [torch.zeros_like(t)] *)
Definition zeros_like (t : tensor) : tensor :=
  pw (fun r => replicate (length r) 0) t.

(** [t.shape[-1]]; a tensor without any position has no row to measure,
    and no operation on it depends on the answer. *)
Definition last_dim (t : tensor) : nat :=
  match t with
  | (r :: _) :: _ => length r
  | _ => 0%nat
  end.

(** [m.unsqueeze(dim=2).repeat(1, 1, n)] *)
Definition repeat_last (n : nat) (m : matrix) : tensor :=
  pw (replicate n) m.

Definition tadd (a b : tensor) : tensor := pw2 (zip_with Qplus) a b.
Definition tmul (a b : tensor) : tensor := pw2 (zip_with Qmult) a b.
Definition tneg (a : tensor) : tensor := pw (map Qopp) a.

(** [torch.max(a, b)] on two tensors of dims (batch, time) *)
Definition mmax (a b : matrix) : matrix := pw2 Qmax a b.

(** [torch.max(torch.tensor(c), a)]: the scalar is broadcast *)
Definition mmax_scalar (c : Q) (a : matrix) : matrix := pw (Qmax c) a.

(** [.detach()] cuts the gradient graph and keeps the values. *)
Definition detach {A : Type} (t : A) : A := t.

End Tensor.

Import Tensor.

(** ** Quantile reconciliation *)

Module Quantile.

Local Open Scope Q_scope.

(** The input tensor [diffs] is a mutable object: slices of it are views, and
    an assignment through a view writes into it.  The store holds the
    current contents of [diffs] and the channels written so far. *)
Record store := { buf : tensor; writes : list nat }.

Definition M (A : Type) : Type := store -> A * store.

Definition ret {A} (a : A) : M A := fun s => (a, s).

Definition bind {A B} (m : M A) (k : A -> M B) : M B :=
  fun s => let (a, s') := m s in k a s'.

Notation "'let*' x ':=' m 'in' k" := (bind m (fun x => k))
  (at level 10, x name, m at level 100, k at level 200).
Notation "m ';;' k" := (bind m (fun _ => k))
  (at level 100, k at level 200, right associativity).

(** The object [diffs] itself, as [return diffs] hands it back. *)
Definition get_diffs : M tensor := fun s => (buf s, s).

(** [diffs[:, :, k]], read now *)
Definition read_chan (k : nat) : M matrix := fun s => (chan k (buf s), s).

(** [diffs[:, :, k] = m] *)
Definition write_chan (k : nat) (m : matrix) : M unit :=
  fun s => (tt, {| buf := set_chan k m (buf s); writes := writes s ++ [k] |}).

(** [diffs[:, :, lo:hi]], read now *)
Definition read_slice (lo hi : nat) : M tensor :=
  fun s => (slice lo hi (buf s), s).

(** [for i in l: body(i)] *)
Fixpoint for_ (l : list nat) (body : nat -> M unit) : M unit :=
  match l with
  | [] => ret tt
  | i :: l' => body i ;; for_ l' body
  end.

(** A view [diffs[:, :, lo:hi]]: no data of its own, only the window. *)
Record view := { v_lo : nat; v_hi : nat }.

(** [v[:, :, i]] for [i >= 0] *)
Definition vread (v : view) (i : nat) : M matrix := read_chan (v_lo v + i).

(** [v[:, :, i] = m] for [i >= 0] *)
Definition vwrite (v : view) (i : nat) (m : matrix) : M unit :=
  write_chan (v_lo v + i) m.

(** [v[:, :, -1]] is the last channel of the window. *)
Definition vlast (v : view) : nat := (v_hi v - v_lo v - 1)%nat.

(** The whole window, read now. *)
Definition vslice (v : view) : M tensor := read_slice (v_lo v) (v_hi v).

(** [quantile > 0.5] *)
Definition above_median (q : Q) : bool := negb (Qle_bool q (1 # 2)).

(** [next(i for i, quantile in enumerate(quantiles) if quantile > 0.5)],
    [None] when [any(...)] is false. *)
Fixpoint first_above (quantiles : list Q) : option nat :=
  match quantiles with
  | [] => None
  | q :: qs => if above_median q then Some 0%nat
               else option_map S (first_above qs)
  end.

Definition quantiles_divider_index (quantiles : list Q) : nat :=
  match first_above quantiles with
  | Some i => i
  | None => length quantiles
  end.

(** [range(n - 1, 0, -1)] *)
Definition range_down (n : nat) : list nat := rev (seq 1 (n - 1)).

Definition _compute_quantile_forecasts_from_diffs
    (quantiles : list Q) (predict_mode : bool) : M tensor :=
  if (length quantiles <=? 1)%nat then get_diffs
  else
    let quantiles_divider_index := quantiles_divider_index quantiles in
    let* diffs0 := get_diffs in
    let d := last_dim diffs0 in
    let n_upper_quantiles := (Z.of_nat d - Z.of_nat quantiles_divider_index)%Z in
    let n_lower_quantiles := (Z.of_nat quantiles_divider_index - 1)%Z in
    let out := zeros_like diffs0 in
    let* median := read_chan 0 in
    let out := set_chan 0 median out in
    let* out :=
      if (0 <? n_upper_quantiles)%Z then
        let upper_quantile_diffs := {| v_lo := quantiles_divider_index; v_hi := d |} in
        (if predict_mode then
           let* c := vread upper_quantile_diffs 0 in
           vwrite upper_quantile_diffs 0 (mmax_scalar 0 c) ;;
           for_ (seq 0 (Z.to_nat (n_upper_quantiles - 1))) (fun i =>
             let* next_diff := vread upper_quantile_diffs (i + 1) in
             let* diff := vread upper_quantile_diffs i in
             vwrite upper_quantile_diffs (i + 1) (mmax next_diff diff))
         else ret tt) ;;
        let* upper := vslice upper_quantile_diffs in
        let* median := read_chan 0 in
        ret (set_slice quantiles_divider_index d
               (tadd upper
                  (detach (repeat_last (Z.to_nat n_upper_quantiles) median)))
               out)
      else ret out in
    let* out :=
      if (0 <? n_lower_quantiles)%Z then
        let lower_quantile_diffs := {| v_lo := 1; v_hi := quantiles_divider_index |} in
        (if predict_mode then
           let* c := vread lower_quantile_diffs (vlast lower_quantile_diffs) in
           vwrite lower_quantile_diffs (vlast lower_quantile_diffs) (mmax_scalar 0 c) ;;
           for_ (range_down (Z.to_nat n_lower_quantiles)) (fun i =>
             let* next_diff := vread lower_quantile_diffs (i - 1) in
             let* diff := vread lower_quantile_diffs i in
             vwrite lower_quantile_diffs (i - 1) (mmax next_diff diff))
         else ret tt) ;;
        let* lower := vslice lower_quantile_diffs in
        let lower_quantile_diffs := tneg lower in
        let* median := read_chan 0 in
        ret (set_slice 1 quantiles_divider_index
               (tadd lower_quantile_diffs
                  (detach (repeat_last (Z.to_nat n_lower_quantiles) median)))
               out)
      else ret out in
    ret out.

(** A call on a tensor nobody has written to yet: the forecasts returned,
    the contents of [diffs] afterwards, and the channels written. *)
Definition call (quantiles : list Q) (predict_mode : bool) (diffs : tensor)
  : tensor * store :=
  _compute_quantile_forecasts_from_diffs quantiles predict_mode
    {| buf := diffs; writes := [] |}.

Definition forecasts quantiles predict_mode diffs : tensor :=
  fst (call quantiles predict_mode diffs).

Definition diffs_after quantiles predict_mode diffs : tensor :=
  buf (snd (call quantiles predict_mode diffs)).

Definition written quantiles predict_mode diffs : list nat :=
  writes (snd (call quantiles predict_mode diffs)).

(** *** The routine, position by position

    Every statement of the routine acts on all (batch, time) positions alike,
    so the routine is an elementwise operation: at each position it turns
    the row of the input into a row of forecasts and a row left behind in
    [diffs]. *)

(** [r[k] = max(0, r[k])] *)
Definition row_clamp0 (k : nat) (r : row) : row :=
  <[k := Qmax 0 (nth k r 0)]> r.

(** [r[k] = max(r[k], r[i])] *)
Definition row_max_into (k i : nat) (r : row) : row :=
  <[k := Qmax (nth k r 0) (nth i r 0)]> r.

Definition row_upper_clamp (idx : nat) (n_upper : Z) (r : row) : row :=
  fold_left (fun r i => row_max_into (idx + (i + 1)) (idx + i) r)
            (seq 0 (Z.to_nat (n_upper - 1))) (row_clamp0 (idx + 0) r).

Definition row_lower_clamp (last : nat) (n_lower : Z) (r : row) : row :=
  fold_left (fun r i => row_max_into (1 + (i - 1)) (1 + i) r)
            (range_down (Z.to_nat n_lower)) (row_clamp0 (1 + last) r).

Definition row_set_upper (idx d : nat) (n_upper : Z) (r o : row) : row :=
  take idx o
    ++ zip_with Qplus (take (d - idx) (drop idx r))
                      (replicate (Z.to_nat n_upper) (nth 0 r 0))
    ++ drop d o.

Definition row_set_lower (idx : nat) (n_lower : Z) (r o : row) : row :=
  take 1 o
    ++ zip_with Qplus (map Qopp (take (idx - 1) (drop 1 r)))
                      (replicate (Z.to_nat n_lower) (nth 0 r 0))
    ++ drop idx o.

Section Rows.

Variables (quantiles : list Q) (predict_mode : bool) (d : nat).

Let idx := quantiles_divider_index quantiles.
Let n_upper := (Z.of_nat d - Z.of_nat idx)%Z.
Let n_lower := (Z.of_nat idx - 1)%Z.

(** The row left in [diffs] once the upper offsets are dealt with. *)
Definition row_after_upper (r : row) : row :=
  if (0 <? n_upper)%Z && predict_mode then row_upper_clamp idx n_upper r
  else r.

(** The row left in [diffs] at the end. *)
Definition row_after (r : row) : row :=
  if (length quantiles <=? 1)%nat then r
  else
    let r1 := row_after_upper r in
    if (0 <? n_lower)%Z && predict_mode
    then row_lower_clamp (idx - 1 - 1) n_lower r1
    else r1.

(** The row of forecasts. *)
Definition row_forecast (r : row) : row :=
  if (length quantiles <=? 1)%nat then r
  else
    let o := <[0%nat := nth 0 r 0]> (replicate (length r) 0) in
    let o := if (0 <? n_upper)%Z
             then row_set_upper idx d n_upper (row_after_upper r) o
             else o in
    if (0 <? n_lower)%Z
    then row_set_lower idx n_lower (row_after r) o
    else o.

(** The channels assigned through the views, in program order. *)
Definition write_log : list nat :=
  if (length quantiles <=? 1)%nat then []
  else
    (if (0 <? n_upper)%Z && predict_mode
     then (idx + 0)%nat
            :: map (fun i => (idx + (i + 1))%nat) (seq 0 (Z.to_nat (n_upper - 1)))
     else [])
    ++ (if (0 <? n_lower)%Z && predict_mode
        then (1 + (idx - 1 - 1))%nat
               :: map (fun i => (1 + (i - 1))%nat) (range_down (Z.to_nat n_lower))
        else []).

End Rows.

(** *** Shapes and configured quantile lists *)

(** Dims (batch, time, channel) = ([B], [H], [C]). *)
Definition shape3 (B H C : nat) (t : tensor) : Prop :=
  length t = B /\
  Forall (fun m => length m = H /\ Forall (fun r : row => length r = C) m) t.

(** The quantile at index 0 is the median: it does not exceed 0.5. *)
Definition median_first (quantiles : list Q) : bool :=
  match quantiles with
  | [] => true
  | q0 :: _ => negb (above_median q0)
  end.

Fixpoint ascending (l : list Q) : bool :=
  match l with
  | [] => true
  | a :: l' => match l' with
               | [] => true
               | b :: _ => Qle_bool a b && ascending l'
               end
  end.

(** The list the model configuration hands over: 0.5 first, the other
    quantiles after it in ascending order. *)
Definition configured (quantiles : list Q) : bool :=
  match quantiles with
  | [] => false
  | q0 :: rest => Qeq_bool q0 (1 # 2) && ascending rest
  end.

(** The values of a row do not decrease along the quantiles: whenever the
    quantile of channel [i] is below the quantile of channel [j], the value
    of channel [i] is at most the value of channel [j]. *)
Definition quantile_ordered (quantiles : list Q) (r : row) : Prop :=
  forall i j qi qj vi vj,
    quantiles !! i = Some qi -> quantiles !! j = Some qj ->
    r !! i = Some vi -> r !! j = Some vj ->
    qi < qj -> vi <= vj.

(** *** Clamped offsets, said directly *)

(** Each entry replaced by the largest of [acc] and the entries up to it. *)
Fixpoint running_max (acc : Q) (l : list Q) : list Q :=
  match l with
  | [] => []
  | x :: l' => let m := Qmax x acc in m :: running_max m l'
  end.

(** Offsets listed from the one nearest the median outwards: each becomes
    the largest of 0 and the offsets up to it. *)
Definition clamp_offsets (l : list Q) : list Q :=
  match l with
  | [] => []
  | x :: l' => let m := Qmax 0 x in m :: running_max m l'
  end.

(** A row [median :: lower ++ upper] with its offsets clamped; the lower
    offsets are stored farthest from the median first. *)
Definition clamped_row (idx : nat) (r : row) : row :=
  take 1 r
    ++ rev (clamp_offsets (rev (take (idx - 1) (drop 1 r))))
    ++ clamp_offsets (drop idx r).

(** The forecasts of a row: the median, the median minus each lower offset,
    the median plus each upper offset. *)
Definition absolute_row (idx : nat) (r : row) : row :=
  take 1 r
    ++ map (fun l => - l + nth 0 r 0) (take (idx - 1) (drop 1 r))
    ++ map (fun u => u + nth 0 r 0) (drop idx r).

End Quantile.

(** ** The forward pass *)

Module Forward.

Import Quantile.
Local Open Scope Q_scope.

(** What [ComponentStacker.unstack] hands back depends on the component
    asked for: a (batch, time) grid for ["time"] and ["lags"], a dict of
    named tensors for ["seasonalities"] and ["lagged_regressors"], a
    (batch, time, feature) tensor for the event and regressor blocks.  The
    stacker is a collaborator; only its call contract is embedded, with one
    field per kind of answer. *)
Record ComponentStacker := {
  feature_indices : list string;
  unstack_time : tensor -> matrix;
  unstack_lags : tensor -> matrix;
  unstack_seasonalities : tensor -> list (string * tensor);
  unstack_lagged_regressors : tensor -> list (string * matrix);
  unstack_features : string -> tensor -> tensor
}.

(** The fields of [configure_components.Seasonalities] that the
    constructor, the forward pass and the loss read.  [reg_lambda] is a
    float or [None]; [seasonality_local_reg] is a float, [False] or [None],
    the last two both read as [None] here. *)
Record Seasonalities := {
  season_mode : string;
  periods : list string;
  season_reg_lambda : option R;
  global_local : string;
  seasonality_local_reg : option R
}.

(** The per-series index tensor [meta], when there is one. *)
Abbreviation meta_t := (option (list nat)).

(** The attributes of [TimeNet] that [forward] reads.  The sub-models
    ([trend], [seasonality], [future_regressors], [ar_net], [covar_net]) are
    collaborators, taken as functions. *)
Record TimeNet := {
  quantiles : list Q;
  n_forecasts : nat;
  n_lags : nat;
  components_stacker : string -> option ComponentStacker;
  meta_used_in_model : bool;
  id_list : list string;
  trend : matrix -> meta_t -> tensor;
  config_seasonality : option Seasonalities;
  seasonality : list (string * tensor) -> meta_t -> tensor;
  events_dims_set : bool;
  event_params_additive : matrix;
  event_params_multiplicative : matrix;
  future_regressors : tensor -> string -> tensor;
  ar_net : matrix -> matrix;
  lagged_regressors_set : bool;
  covar_net : matrix -> matrix
}.

(** [torch.zeros(size=(B, T, C))] *)
Definition zeros (B T C : nat) : tensor :=
  replicate B (replicate T (replicate C 0)).

(** [m.shape[1]] *)
Definition shape1 {A} (m : list (list A)) : nat :=
  match m with
  | r :: _ => length r
  | [] => 0%nat
  end.

(** [t[:, lo:hi, :]] *)
Definition tslice {A} (lo hi : nat) (t : list (list A)) : list (list A) :=
  map (fun m => take (hi - lo) (drop lo m)) t.

(** [t[:, :n, 0]] *)
Definition head_chan0 (n : nat) (t : tensor) : matrix :=
  map (fun m => map (fun r => nth 0 r 0) (take n m)) t.

Definition madd (a b : matrix) : matrix := pw2 Qplus a b.
Definition msub (a b : matrix) : matrix := pw2 Qminus a b.
Definition mmul (a b : matrix) : matrix := pw2 Qmult a b.

(** [torch.sum(x * y, dim=-1)] of two vectors *)
Definition dot (x y : list Q) : Q := foldr Qplus 0 (zip_with Qmult x y).

(** [scalar_features_effects(features, params)] with [indices=None]:
    features of dims (batch, time, n_features), params of dims
    (n_quantiles, n_features). *)
Definition scalar_features_effects (features : tensor) (params : matrix)
  : tensor :=
  pw (fun feat => map (fun prow => dot feat prow) params) features.

(** [x.view(x.shape[0], h, c)] of a (batch, h * c) grid *)
Definition view3 (h c : nat) (x : matrix) : tensor :=
  map (fun r => map (fun i => take c (drop (i * c) r)) (seq 0 h)) x.

(** [torch.cat(ms, axis=1)] *)
Fixpoint cat1 (ms : list matrix) : matrix :=
  match ms with
  | [] => []
  | [m] => m
  | m :: ms' => zip_with app m (cat1 ms')
  end.

Definition auto_regression (self : TimeNet) (lags : matrix) : tensor :=
  let x := ar_net self lags in
  view3 (n_forecasts self) (length (quantiles self)) x.

Definition forward_covar_net (self : TimeNet)
    (covariates : list (string * matrix)) : tensor :=
  let x := cat1 (map snd covariates) in
  let x := covar_net self x in
  view3 (n_forecasts self) (length (quantiles self)) x.

(** [self.id_dict[name]]: the dict is built from [enumerate(id_list)], so a
    name listed twice keeps its last index. *)
Fixpoint id_dict (ids : list string) (i : nat) (name : string) : option nat :=
  match ids with
  | [] => None
  | k :: ids' =>
      match id_dict ids' (S i) name with
      | Some j => Some j
      | None => if String.eqb k name then Some i else None
      end
  end.

(** [name in d] for the keys of a dict *)
Definition has_key (name : string) (keys : list string) : bool :=
  existsb (String.eqb name) keys.

(** The local variables of [forward] at its end. *)
Record forward_vars := {
  v_time_input : matrix;
  v_trend : tensor;
  v_additive_components : tensor;
  v_additive_components_nonstationary : tensor;
  v_multiplicative_components_nonstationary : tensor;
  v_prediction : tensor;
  v_prediction_with_quantiles : tensor
}.

(** [TimeNet.forward]: the first result of a run that returns.  A mode
    without a stacker ends in an error ([None]); this is the only error of
    the source that the embedding accounts for.  The others (tensors whose
    dims do not fit, attributes that are missing) and the second result,
    the decomposition into named components that [include_components] asks
    for and that [compute_components] may fail to give, are not part of
    it: what is proved of a value of [forward] holds of the runs of the
    source that return it, and nothing is claimed on when these return. *)
Definition forward (self : TimeNet) (input_tensor : tensor) (mode : string)
    (meta : meta_t) : option forward_vars :=
  stacker ← components_stacker self mode;
  let time_input := unstack_time stacker input_tensor in
  let B := length time_input in
  let T := shape1 time_input in
  let nq := length (quantiles self) in
  (* Handle meta argument *)
  let meta :=
    match meta with
    | None =>
        if meta_used_in_model self then
          let name_id_dummy := hd EmptyString (id_list self) in
          Some (replicate B
                  (default 0%nat (id_dict (id_list self) 0 name_id_dummy)))
        else None
    | Some m => Some m
    end in
  (* Initialize components and nonstationary tensors *)
  let additive_components := zeros B (n_forecasts self) nq in
  let additive_components_nonstationary := zeros B T nq in
  let multiplicative_components_nonstationary := zeros B T nq in
  (* Unpack time feature and compute trend *)
  let trend := trend self time_input meta in
  (* Unpack and process seasonalities *)
  let '(additive_components_nonstationary,
        multiplicative_components_nonstationary) :=
    match config_seasonality self with
    | Some cs =>
        if negb (bool_decide (periods cs = [])) then
          let seasonalities_input := unstack_seasonalities stacker input_tensor in
          let s := seasonality self seasonalities_input meta in
          if String.eqb (season_mode cs) "additive" then
            (tadd additive_components_nonstationary s,
             multiplicative_components_nonstationary)
          else if String.eqb (season_mode cs) "multiplicative" then
            (additive_components_nonstationary,
             tadd multiplicative_components_nonstationary s)
          else (additive_components_nonstationary,
                multiplicative_components_nonstationary)
        else (additive_components_nonstationary,
              multiplicative_components_nonstationary)
    | None => (additive_components_nonstationary,
               multiplicative_components_nonstationary)
    end in
  (* Unpack and process events *)
  let additive_components_nonstationary :=
    if events_dims_set self
       && has_key "additive_events" (feature_indices stacker) then
      let additive_events_input :=
        unstack_features stacker "additive_events" input_tensor in
      let additive_events :=
        scalar_features_effects additive_events_input
          (event_params_additive self) in
      tadd additive_components_nonstationary additive_events
    else additive_components_nonstationary in
  let multiplicative_components_nonstationary :=
    if events_dims_set self
       && has_key "multiplicative_events" (feature_indices stacker) then
      let multiplicative_events_input :=
        unstack_features stacker "multiplicative_events" input_tensor in
      let multiplicative_events :=
        scalar_features_effects multiplicative_events_input
          (event_params_multiplicative self) in
      tadd multiplicative_components_nonstationary multiplicative_events
    else multiplicative_components_nonstationary in
  (* Unpack and process regressors *)
  let additive_components_nonstationary :=
    if has_key "additive_regressors" (feature_indices stacker) then
      let additive_regressors_input :=
        unstack_features stacker "additive_regressors" input_tensor in
      let additive_regressors :=
        future_regressors self additive_regressors_input "additive" in
      tadd additive_components_nonstationary additive_regressors
    else additive_components_nonstationary in
  let multiplicative_components_nonstationary :=
    if has_key "multiplicative_regressors" (feature_indices stacker) then
      let multiplicative_regressors_input :=
        unstack_features stacker "multiplicative_regressors" input_tensor in
      let multiplicative_regressors :=
        future_regressors self multiplicative_regressors_input
          "multiplicative" in
      tadd multiplicative_components_nonstationary multiplicative_regressors
    else multiplicative_components_nonstationary in
  (* Unpack and process lags *)
  let additive_components :=
    if has_key "lags" (feature_indices stacker) then
      let lags_input := unstack_lags stacker input_tensor in
      let nonstationary_components :=
        madd (madd (head_chan0 (n_lags self) trend)
                   (head_chan0 (n_lags self) additive_components_nonstationary))
             (mmul (detach (head_chan0 (n_lags self) trend))
                   (head_chan0 (n_lags self)
                      multiplicative_components_nonstationary)) in
      let stationarized_lags := msub lags_input nonstationary_components in
      let lags := auto_regression self stationarized_lags in
      tadd additive_components lags
    else additive_components in
  (* Unpack and process covariates *)
  let additive_components :=
    if lagged_regressors_set self then
      let covariates_input := unstack_lagged_regressors stacker input_tensor in
      let covariates := forward_covar_net self covariates_input in
      tadd additive_components covariates
    else additive_components in
  (* Combine components and compute predictions *)
  let predictions_nonstationary :=
    tadd (tadd (tslice (n_lags self) T trend)
               (tslice (n_lags self) T additive_components_nonstationary))
         (tmul (detach (tslice (n_lags self) T trend))
               (tslice (n_lags self) T
                  multiplicative_components_nonstationary)) in
  let prediction := tadd predictions_nonstationary additive_components in
  (* Correct crossing quantiles *)
  let prediction_with_quantiles :=
    forecasts (quantiles self) (negb (String.eqb mode "train")) prediction in
  Some {| v_time_input := time_input;
          v_trend := trend;
          v_additive_components := additive_components;
          v_additive_components_nonstationary :=
            additive_components_nonstationary;
          v_multiplicative_components_nonstationary :=
            multiplicative_components_nonstationary;
          v_prediction := prediction;
          v_prediction_with_quantiles := prediction_with_quantiles |}.

(** The entry of a tensor at (batch [b], time [h], channel [q]). *)
Definition entry {A} (t : list (list (list A))) (b h q : nat) : option A :=
  m ← t !! b; r ← m !! h; r !! q.

End Forward.

(** A small model to run the forward pass on: one series, two quantile
    channels' worth of trend, a window of one lag and two forecast steps, an
    additive seasonality, a multiplicative regressor block and no lags
    block in the schema. *)
Module Demo.

Import Forward.
Local Open Scope Q_scope.

Definition stacker : ComponentStacker := {|
  feature_indices := ["time"; "multiplicative_regressors"]%string;
  unstack_time := fun _ => [[0; 1#2; 1]];
  unstack_lags := fun _ => [];
  unstack_seasonalities := fun x => [("weekly"%string, x)];
  unstack_lagged_regressors := fun _ => [];
  unstack_features := fun _ x => x
|}.

Definition net : TimeNet := {|
  quantiles := [1#2; 9#10];
  n_forecasts := 2;
  n_lags := 1;
  components_stacker := fun mode =>
    if String.eqb mode "predict" then Some stacker
    else if String.eqb mode "train" then Some stacker else None;
  meta_used_in_model := false;
  id_list := ["__df__"%string];
  trend := fun t _ => pw (fun x => [3 + x; 1]) t;
  config_seasonality := Some {| season_mode := "additive";
                                periods := ["weekly"%string];
                                season_reg_lambda := None;
                                global_local := "global";
                                seasonality_local_reg := None |};
  seasonality := fun s _ => [[[1; 0]; [2; 0]; [-1; 0]]];
  events_dims_set := false;
  event_params_additive := [];
  event_params_multiplicative := [];
  future_regressors := fun x _ => x;
  ar_net := fun x => x;
  lagged_regressors_set := false;
  covar_net := fun x => x
|}.

Definition input : tensor := [[[1#10; 0]; [2#10; 0]; [3#10; 0]]].

End Demo.


(** ** Results of code that can raise *)

Module Py.

Inductive result (A : Type) : Type :=
| Ok (a : A)
| Raise (exn : string).
Arguments Ok {A} a.
Arguments Raise {A} exn.

Definition rbind {A B} (m : result A) (k : A -> result B) : result B :=
  match m with
  | Ok a => k a
  | Raise e => Raise e
  end.

Definition raises {A} (m : result A) : Prop :=
  match m with
  | Ok _ => False
  | Raise _ => True
  end.

#[global] Instance result_ret : MRet result := fun A a => Ok a.
#[global] Instance result_bind : MBind result := fun A B k m => rbind m k.

(** [o.attr] where [o] may be [None] *)
Definition deref {A} (o : option A) : result A :=
  match o with
  | Some a => Ok a
  | None => Raise "AttributeError"
  end.

End Py.

(** ** The loss: recency weights and regularization *)

Module Loss.

Import Forward Py.
Local Open Scope R_scope.

Abbreviation rmatrix := (list (list R)).
Abbreviation rtensor := (list (list (list R))).

(** The fields of [configure.Train] read by the loss.  The elementwise loss
    function and the delay schedule [get_reg_delay_weight] belong to the
    training configuration and are taken as they are. *)
Record Train := {
  train_loss_func : tensor -> tensor -> rtensor;
  newer_samples_weight : R;
  newer_samples_start : R;
  get_reg_delay_weight : R -> R;
  trend_reg_threshold : R
}.

Record Model := {
  max_lags : Z;
  model_n_forecasts : nat
}.

Record AutoregRession := {
  ar_reg_lambda : option R;
  regularize : rmatrix -> rmatrix
}.

(** [trend_local_reg] is a float, [False] or [None]; the last two are both
    [None] here. *)
Record Trend := {
  trend_reg : option R;
  n_changepoints : Z;
  trend_global_local : string;
  trend_local_reg : option R
}.

(** The attributes of [TimeNet] read by [loss_func] and
    [_add_batch_regularizations]: the configurations, the flags, and the
    parameters the regularizers are applied to.  Of [config_events],
    [config_holidays] and [config_regressors.regressors] only the
    comparison with [None] is read.  [train_progress], which exists once a
    training step has assigned it, and [ar_weights], which exists when the
    AR net was built, are taken to be there: the embedding accounts for
    the [AttributeError] of a configuration that is [None], not for the one
    of an attribute that was never assigned. *)
Record LossNet := {
  config_train : Train;
  config_model : Model;
  config_ar : option AutoregRession;
  config_trend : option Trend;
  config_seasonality : option Seasonalities;
  config_events_set : bool;
  config_holidays_set : bool;
  regressors_set : bool;
  n_lags : nat;
  reg_enabled : bool;
  finding_lr : bool;
  train_progress : R;
  ar_weights : rmatrix;
  get_trend_deltas : rtensor;
  trend_k0 : rtensor;
  trend_deltas : rtensor;
  season_dims_set : bool;
  season_params : list (string * rmatrix)
}.

(** The regularizers of [utils_torch] and [utils], called but not defined in
    [time_net.py]. *)
Class Regularizers := {
  reg_func_trend : rtensor -> R -> R;
  reg_func_season : rmatrix -> R;
  reg_func_events : LossNet -> R;
  reg_func_regressors : LossNet -> R;
  reg_func_trend_glocal : rtensor -> rtensor -> R -> R;
  reg_func_seasonality_glocal : list (string * rmatrix) -> R -> R
}.

(** [x > 0] on floats *)
Definition gt0 (x : R) : bool := if Rlt_dec 0 x then true else false.

(** The truth value of a float, [False] or [None] *)
Definition truthy (x : option R) : bool :=
  match x with
  | Some v => if Req_dec_T v 0 then false else true
  | None => false
  end.

(** [torch.clamp(x, lo, hi)] *)
Definition clamp (x lo hi : R) : R := Rmin (Rmax x lo) hi.

(** The body of [_get_time_based_sample_weight] at one entry [t] of the
    time tensor. *)
Definition sample_weight (end_w start_t t : R) : R :=
  let time := (t - start_t) / (1 - start_t) in
  let time := clamp time 0 1 in
  let time := PI * (time - 1) in
  let time := (1 / 2) * cos time + 1 / 2 in
  (1 + time * (end_w - 1)) / end_w.

(** [_get_time_based_sample_weight]: from dims (batch, time) to dims
    (batch, time, 1). *)
Definition _get_time_based_sample_weight (self : LossNet) (t : rmatrix)
  : rtensor :=
  let end_w := newer_samples_weight (config_train self) in
  let start_t := newer_samples_start (config_train self) in
  let weight := pw (sample_weight end_w start_t) (detach t) in
  (* add an extra dimension for the quantiles *)
  pw (fun w => [w]) weight.

(** [loss * weight] with [weight] of size 1 along the last axis, which torch
    expands to the size of [loss] there. *)
Definition bmul (loss weight : rtensor) : rtensor :=
  pw2 (fun l w => match w with
                  | [w0] => map (fun x => x * w0) l
                  | _ => zip_with Rmult l w
                  end) loss weight.

Definition rsum (l : list R) : R := foldr Rplus 0 l.

(** [loss.sum(dim=2)] *)
Definition sum_dim2 (loss : rtensor) : rmatrix := pw rsum loss.

(** [m.mean()] *)
Definition mean (m : rmatrix) : R :=
  rsum (concat m) / INR (length (concat m)).

(** The [reg_loss += ...] statements of [_add_batch_regularizations]. *)
Inductive term :=
| ar_sparsity
| trend_smoothness
| seasonality_sparsity (name : string)
| event_sparsity
| regressor_sparsity
| trend_glocal
| seasonality_glocal.

(** The accumulator [reg_loss], with the list of the [reg_loss += ...]
    statements executed so far. *)
Record acc := {
  reg_loss : R;
  added : list term
}.

(** [reg_loss += x] at the statement [t] *)
Definition add (t : term) (x : R) (a : acc) : acc :=
  {| reg_loss := reg_loss a + x; added := added a ++ [t] |}.

(** The statements under [if delay_weight > 0]. *)
Definition delay_gated (t : term) : bool :=
  match t with
  | trend_glocal | seasonality_glocal => false
  | _ => true
  end.

(** What a run of statements does to the accumulator: it appends to the
    list of statements and adds some number to [reg_loss]. *)
Definition extends (gated : bool) (reg reg' : acc) : Prop :=
  exists ts x,
    added reg' = added reg ++ ts
    /\ reg_loss reg' = reg_loss reg + x
    /\ Forall (fun t => delay_gated t = gated) ts.

(** The guards of the two always-on statements. *)
Definition trend_local_on (self : LossNet) : bool :=
  match config_trend self with
  | Some ct =>
      String.eqb (trend_global_local ct) "local" && truthy (trend_local_reg ct)
  | None => false
  end.

Definition seasonality_local_on (self : LossNet) : bool :=
  match config_seasonality self with
  | Some cs =>
      (String.eqb (global_local cs) "local"
       || String.eqb (global_local cs) "glocal")
      && truthy (seasonality_local_reg cs)
  | None => false
  end.

(** What [_add_batch_regularizations] and [loss_func] return, with the list
    of the [reg_loss += ...] statements that were executed. *)
Record outcome := {
  out_loss : R;
  out_reg_loss : R;
  out_added : list term
}.

Section Regularization.

Context `{Regularizers}.

(** The block of [_add_batch_regularizations] under [if delay_weight > 0]. *)
Definition delayed_regularizations (self : LossNet) (reg : acc) : result acc :=
  (* Add regularization of AR weights - sparsify *)
  reg ← (if (0 <? max_lags (config_model self))%Z then
           ar ← deref (config_ar self);
           match ar_reg_lambda ar with
           | Some reg_lambda =>
               let reg_ar := regularize ar (ar_weights self) in
               let reg_ar :=
                 rsum (concat reg_ar)
                 / INR (model_n_forecasts (config_model self)) in
               Ok (add ar_sparsity (reg_lambda * reg_ar) reg)
           | None => Ok reg
           end
         else Ok reg);
  (* Regularize trend to be smoother/sparse *)
  ct ← deref (config_trend self);
  let reg :=
    match trend_reg ct with
    | Some l_trend =>
        if (0 <? n_changepoints ct)%Z && gt0 l_trend then
          let reg_trend :=
            reg_func_trend (get_trend_deltas self)
              (trend_reg_threshold (config_train self)) in
          add trend_smoothness (l_trend * reg_trend) reg
        else reg
    | None => reg
    end in
  (* Regularize seasonality: sparsify fourier term coefficients *)
  let reg :=
    match config_seasonality self with
    | Some cs =>
        match season_reg_lambda cs with
        | Some l_season =>
            if season_dims_set self && gt0 l_season then
              fold_left
                (fun reg '(name, params) =>
                   let reg_season := reg_func_season params in
                   add (seasonality_sparsity name) (l_season * reg_season) reg)
                (season_params self) reg
            else reg
        | None => reg
        end
    | None => reg
    end in
  (* Regularize events: sparsify events features coefficients *)
  let reg :=
    if config_events_set self || config_holidays_set self then
      add event_sparsity (reg_func_events self) reg
    else reg in
  (* Regularize regressors: sparsify regressor features coefficients *)
  let reg :=
    if regressors_set self then
      add regressor_sparsity (reg_func_regressors self) reg
    else reg in
  Ok reg.

(** [_add_batch_regularizations].  Where the source passes the truthy
    [trend_local_reg] or [seasonality_local_reg] on to the regularizer,
    [default 0] reads the float out of the option. *)
Definition _add_batch_regularizations (self : LossNet) (loss progress : R)
  : result outcome :=
  let delay_weight := get_reg_delay_weight (config_train self) progress in
  let reg := {| reg_loss := 0; added := [] |} in
  reg ← (if gt0 delay_weight then delayed_regularizations self reg
         else Ok reg);
  (* Glocal Trend *)
  let reg :=
    match config_trend self with
    | Some ct =>
        if String.eqb (trend_global_local ct) "local"
           && truthy (trend_local_reg ct) then
          let trend_glocal_loss :=
            reg_func_trend_glocal (trend_k0 self) (trend_deltas self)
              (default 0 (trend_local_reg ct)) in
          add trend_glocal trend_glocal_loss reg
        else reg
    | None => reg
    end in
  (* Glocal Seasonality *)
  let reg :=
    match config_seasonality self with
    | Some cs =>
        if (String.eqb (global_local cs) "local"
            || String.eqb (global_local cs) "glocal")
           && truthy (seasonality_local_reg cs) then
          let seasonality_glocal_loss :=
            reg_func_seasonality_glocal (season_params self)
              (default 0 (seasonality_local_reg cs)) in
          add seasonality_glocal seasonality_glocal_loss reg
        else reg
    | None => reg
    end in
  let loss := loss + reg_loss reg in
  Ok {| out_loss := loss; out_reg_loss := reg_loss reg;
        out_added := added reg |}.

(** The two always-on terms by themselves: what each adds to [reg_loss],
    zero when its statement is not reached. *)
Definition trend_glocal_term (self : LossNet) : R :=
  match config_trend self with
  | Some ct =>
      if String.eqb (trend_global_local ct) "local"
         && truthy (trend_local_reg ct) then
        reg_func_trend_glocal (trend_k0 self) (trend_deltas self)
          (default 0 (trend_local_reg ct))
      else 0
  | None => 0
  end.

Definition seasonality_glocal_term (self : LossNet) : R :=
  match config_seasonality self with
  | Some cs =>
      if (String.eqb (global_local cs) "local"
          || String.eqb (global_local cs) "glocal")
         && truthy (seasonality_local_reg cs) then
        reg_func_seasonality_glocal (season_params self)
          (default 0 (seasonality_local_reg cs))
      else 0
  | None => 0
  end.

(** [loss_func] *)
Definition loss_func (self : LossNet) (time : rmatrix)
    (predicted targets : tensor) : result outcome :=
  (* Compute loss. no reduction. *)
  let loss := train_loss_func (config_train self) predicted targets in
  let loss :=
    if Rlt_dec 1 (newer_samples_weight (config_train self)) then
      (* Weigh newer samples more. *)
      bmul loss
        (_get_time_based_sample_weight self (map (drop (n_lags self)) time))
    else loss in
  let loss := mean (sum_dim2 loss) in
  (* Regularize. *)
  if reg_enabled self && negb (finding_lr self) then
    _add_batch_regularizations self loss (train_progress self)
  else
    Ok {| out_loss := loss; out_reg_loss := 0; out_added := [] |}.

End Regularization.

End Loss.

(** A model for the loss: two series, a trend with changepoints and a
    seasonality, each with a sparsity weight and a local weight; the delay
    schedule is a linear ramp between a start at one half and full
    strength at four fifths of the training.  [local_net] has both
    components in local mode, [glocal_net] both in glocal mode and
    [global_net] both in global mode. *)
Module LossDemo.

Import Forward Py Loss.
Local Open Scope R_scope.

Definition regs : Regularizers := {|
  reg_func_trend := fun _ _ => 7;
  reg_func_season := fun _ => 11;
  reg_func_events := fun _ => 13;
  reg_func_regressors := fun _ => 17;
  reg_func_trend_glocal := fun _ _ w => 5 * w;
  reg_func_seasonality_glocal := fun _ w => 3 * w
|}.

Definition train : Train := {|
  train_loss_func := fun p _ => pw (map Q2R) p;
  newer_samples_weight := 2;
  newer_samples_start := 0;
  get_reg_delay_weight :=
    fun p => Rmin 1 (Rmax 0 ((10 * p - 5) / 3));
  trend_reg_threshold := 0
|}.

Definition net (mode : string) : LossNet := {|
  config_train := train;
  config_model := {| max_lags := 0; model_n_forecasts := 2 |};
  config_ar := None;
  config_trend := Some {| trend_reg := Some 1;
                          n_changepoints := 10;
                          trend_global_local := mode;
                          trend_local_reg := Some 2 |};
  config_seasonality := Some {| season_mode := "additive";
                                periods := ["weekly"%string];
                                season_reg_lambda := Some 1;
                                global_local := mode;
                                seasonality_local_reg := Some 2 |};
  config_events_set := true;
  config_holidays_set := false;
  regressors_set := true;
  n_lags := 1;
  reg_enabled := true;
  finding_lr := false;
  train_progress := 1 / 4;
  ar_weights := [];
  get_trend_deltas := [];
  trend_k0 := [];
  trend_deltas := [];
  season_dims_set := true;
  season_params := [("weekly"%string, [])]
|}.

Definition local_net : LossNet := net "local".
Definition glocal_net : LossNet := net "glocal".
Definition global_net : LossNet := net "global".

End LossDemo.

(** ** Construction: the configuration checks of [__init__] *)

Module Init.

Import Forward Py.

(** The value that [events_dims] holds for an event or holiday: a dict
    with the keys ["mode"] and ["event_indices"]. *)
Record EventDims := {
  mode : string;
  event_indices : list nat
}.

(** Code that logs and may raise: the records of [log.error] so far are
    threaded through, and kept when an exception is raised. *)
Definition M (A : Type) : Type := list string -> result A * list string.

#[global] Instance init_ret : MRet M := fun A a log => (Ok a, log).

#[global] Instance init_bind : MBind M := fun A B k m log =>
  match m log with
  | (Ok a, log') => k a log'
  | (Raise e, log') => (Raise e, log')
  end.

Definition raise {A} (exn : string) : M A := fun log => (Raise exn, log).

Definition log_error (msg : string) : M unit :=
  fun log => (Ok tt, log ++ [msg]).

Definition lift {A} (r : result A) : M A := fun log => (r, log).

(** [m in ["additive", "multiplicative"]] *)
Definition known_mode (m : string) : bool :=
  String.eqb m "additive" || String.eqb m "multiplicative".

Definition is_none {A} (o : option A) : bool :=
  match o with
  | Some _ => false
  | None => true
  end.

(** [config_regressors]: of its field [regressors] only the comparison
    with [None] is read. *)
Record FutureRegressors := {
  regressors_given : bool
}.

(** What the loop over [self.events_dims.items()] leaves: the dict, with
    the entries visited so far as they are after the visit, and the two
    counters. *)
Record loop_state := {
  dims : list (string * EventDims);
  n_additive_event_params : nat;
  n_multiplicative_event_params : nat
}.

(** The loop over the events.  [configs] is the dict stored under [event]
    in [self.events_dims], not a copy: the assignment
    [self.events_dims[event]["mode"] = "additive"] is seen by the tests of
    [configs["mode"]] that follow it, and by whoever reads
    [self.events_dims] later. *)
Fixpoint events_loop (trend_is_none : bool)
    (items : list (string * EventDims)) (st : loop_state) : M loop_state :=
  match items with
  | [] => mret st
  | (event, configs) :: items =>
      configs ←
        (if negb (known_mode (mode configs)) then
           _ ← log_error ("Event Mode " ++ mode configs
                          ++ " not implemented. Defaulting to 'additive'.");
           mret {| mode := "additive";
                   event_indices := event_indices configs |}
         else mret configs);
      if String.eqb (mode configs) "additive" then
        events_loop trend_is_none items
          {| dims := dims st ++ [(event, configs)];
             n_additive_event_params :=
               n_additive_event_params st + length (event_indices configs);
             n_multiplicative_event_params :=
               n_multiplicative_event_params st |}
      else if String.eqb (mode configs) "multiplicative" then
        if trend_is_none then
          _ ← log_error "Multiplicative events require trend.";
          raise "ValueError"
        else
          events_loop trend_is_none items
            {| dims := dims st ++ [(event, configs)];
               n_additive_event_params := n_additive_event_params st;
               n_multiplicative_event_params :=
                 n_multiplicative_event_params st
                 + length (event_indices configs) |}
      else
        events_loop trend_is_none items
          {| dims := dims st ++ [(event, configs)];
             n_additive_event_params := n_additive_event_params st;
             n_multiplicative_event_params :=
               n_multiplicative_event_params st |}
  end.

(** An entry of [events_dims] after the loop has visited it. *)
Definition coerced (item : string * EventDims) : string * EventDims :=
  if known_mode (mode (snd item)) then item
  else (fst item, {| mode := "additive";
                     event_indices := event_indices (snd item) |}).


Section Constructor.

Context {Events Holidays : Type}.

(** [utils.config_events_to_model_dims], called but not defined in
    [time_net.py]. *)
Context (config_events_to_model_dims :
           option Events -> option Holidays ->
           option (list (string * EventDims))).

(** The arguments of [__init__] that its checks read. *)
Record Args := {
  config_train : option Loss.Train;
  config_trend : option Loss.Trend;
  config_seasonality : option Seasonalities;
  config_regressors : option FutureRegressors;
  config_events : option Events;
  config_holidays : option Holidays
}.

(** The attributes of the constructed model that the checks decide. *)
Record Constructed := {
  events_dims : option (list (string * EventDims));
  event_params : option (nat * nat);
  self_config_events : option Events;
  self_config_holidays : option Holidays
}.

(** The block of [__init__] under [# Seasonalities], up to the call of
    [get_seasonality]. *)
Definition seasonality_checks (args : Args) : M unit :=
  match config_seasonality args with
  | Some cs =>
      if String.eqb (season_mode cs) "multiplicative"
         && is_none (config_trend args) then
        raise "ValueError: Multiplicative seasonality requires trend."
      else if negb (known_mode (season_mode cs)) then
        raise ("ValueError: Seasonality Mode " ++ season_mode cs
               ++ " not implemented.")
      else mret tt
  | None => mret tt
  end.

(** The block of [__init__] under [# Events]. *)
Definition events_block (args : Args) : M Constructed :=
  match config_events_to_model_dims (config_events args)
          (config_holidays args) with
  | Some items =>
      st ← events_loop (is_none (config_trend args)) items
             {| dims := []; n_additive_event_params := 0;
                n_multiplicative_event_params := 0 |};
      mret {| events_dims := Some (dims st);
              event_params := Some (n_additive_event_params st,
                                    n_multiplicative_event_params st);
              self_config_events := config_events args;
              self_config_holidays := config_holidays args |}
  | None =>
      mret {| events_dims := None;
              event_params := None;
              self_config_events := None;
              self_config_holidays := None |}
  end.

(** [TimeNet.__init__], its checks.  The sub-models and parameters it
    builds in between come from collaborators ([get_trend],
    [get_seasonality], [init_parameter], [nn.Linear], ...), which are taken
    to return. *)
Definition __init__ (args : Args) : M Constructed :=
  (* Hyperparameters (can be tuned using trainer.tune()) *)
  _ ← lift (deref (config_train args));
  (* Seasonalities *)
  _ ← seasonality_checks args;
  (* Events *)
  self ← events_block args;
  (* Regressors *)
  _ ← lift (deref (config_regressors args));
  mret self.

End Constructor.

End Init.

(** Arguments to construct models from: a weekly seasonality in the given
    mode, with or without a trend, and three events, one of them in a mode
    that is not known. *)
Module InitDemo.

Import Forward Py Init.

Definition dims_of (mult : bool) (_ _ : option unit)
  : option (list (string * EventDims)) :=
  Some [("launch"%string, {| mode := "additive"; event_indices := [0%nat] |});
        ("strike"%string, {| mode := "relative";
                             event_indices := [1%nat; 2%nat] |});
        ("sale"%string,
         {| mode := if mult then "multiplicative" else "additive";
            event_indices := [3%nat] |})].

Definition trend_config : Loss.Trend :=
  {| Loss.trend_reg := None; Loss.n_changepoints := 10;
     Loss.trend_global_local := "global"; Loss.trend_local_reg := None |}.

Definition args (season : string) (with_trend : bool)
  : @Args unit unit := {|
  config_train := Some LossDemo.train;
  config_trend := if with_trend then Some trend_config else None;
  config_seasonality := Some {| season_mode := season;
                                periods := ["weekly"%string];
                                season_reg_lambda := None;
                                global_local := "global";
                                seasonality_local_reg := None |};
  config_regressors := Some {| regressors_given := false |};
  config_events := Some tt;
  config_holidays := None
|}.

End InitDemo.

(** ** The training step *)

Module Training.

Import Forward Py.
Local Open Scope R_scope.

(** The calls that [training_step] makes on the optimizer, the scheduler
    and the logger, in the order in which it makes them. *)
Inductive action :=
| zero_grad
| manual_backward (loss : R)
| optimizer_step
| scheduler_step (epoch : option R)
| log (name : string) (value : R)
| log_dict (values : list (string * R)).

(** The four actions of the optimization, as opposed to the logging. *)
Definition is_optimization (a : action) : bool :=
  match a with
  | zero_grad | manual_backward _ | optimizer_step | scheduler_step _ => true
  | log _ _ | log_dict _ => false
  end.

(** The model as [training_step] sees it: the attributes that [forward]
    reads ([net]), those that [loss_func] reads ([lossnet], with
    [train_progress] and [finding_lr] among them), and those of the
    training loop.  [current_epoch] is the trainer's, [epochs] the
    training configuration's, [get_last_lr] the scheduler's first last
    learning rate.  The optimizer, the scheduler, the logger, the metrics
    and [denormalize] are collaborators whose calls are taken to return;
    what [optimizer.step()] does to the parameters is not part of the
    state, of which [training_step] itself assigns [train_progress] and
    [train_epoch_prediction]. *)
Record LightningModule := {
  net : TimeNet;
  lossnet : Loss.LossNet;
  train_epoch_prediction : option tensor;
  current_epoch : nat;
  train_steps_per_epoch : nat;
  epochs : nat;
  metrics_enabled : bool;
  denormalize : matrix -> matrix;
  metrics_train : matrix -> matrix -> list (string * R);
  get_last_lr : R
}.

(** [self.train_progress = p] *)
Definition with_train_progress (p : R) (self : LightningModule)
  : LightningModule :=
  let l := lossnet self in
  {| net := net self;
     lossnet :=
       {| Loss.config_train := Loss.config_train l;
          Loss.config_model := Loss.config_model l;
          Loss.config_ar := Loss.config_ar l;
          Loss.config_trend := Loss.config_trend l;
          Loss.config_seasonality := Loss.config_seasonality l;
          Loss.config_events_set := Loss.config_events_set l;
          Loss.config_holidays_set := Loss.config_holidays_set l;
          Loss.regressors_set := Loss.regressors_set l;
          Loss.n_lags := Loss.n_lags l;
          Loss.reg_enabled := Loss.reg_enabled l;
          Loss.finding_lr := Loss.finding_lr l;
          Loss.train_progress := p;
          Loss.ar_weights := Loss.ar_weights l;
          Loss.get_trend_deltas := Loss.get_trend_deltas l;
          Loss.trend_k0 := Loss.trend_k0 l;
          Loss.trend_deltas := Loss.trend_deltas l;
          Loss.season_dims_set := Loss.season_dims_set l;
          Loss.season_params := Loss.season_params l |};
     train_epoch_prediction := train_epoch_prediction self;
     current_epoch := current_epoch self;
     train_steps_per_epoch := train_steps_per_epoch self;
     epochs := epochs self;
     metrics_enabled := metrics_enabled self;
     denormalize := denormalize self;
     metrics_train := metrics_train self;
     get_last_lr := get_last_lr self |}.

(** [self.train_epoch_prediction = predicted] *)
Definition with_train_epoch_prediction (predicted : tensor)
    (self : LightningModule) : LightningModule :=
  {| net := net self;
     lossnet := lossnet self;
     train_epoch_prediction := Some predicted;
     current_epoch := current_epoch self;
     train_steps_per_epoch := train_steps_per_epoch self;
     epochs := epochs self;
     metrics_enabled := metrics_enabled self;
     denormalize := denormalize self;
     metrics_train := metrics_train self;
     get_last_lr := get_last_lr self |}.

(** The model and the calls made so far. *)
Record world := {
  the_self : LightningModule;
  actions : list action
}.

(** Code that updates the model, calls its collaborators and may raise. *)
Definition T (A : Type) : Type := world -> result A * world.

#[global] Instance training_ret : MRet T := fun A a w => (Ok a, w).

#[global] Instance training_bind : MBind T := fun A B k m w =>
  match m w with
  | (Ok a, w') => k a w'
  | (Raise e, w') => (Raise e, w')
  end.

Definition get_self : T LightningModule := fun w => (Ok (the_self w), w).

Definition update_self (f : LightningModule -> LightningModule) : T unit :=
  fun w => (Ok tt, {| the_self := f (the_self w); actions := actions w |}).

Definition act (a : action) : T unit :=
  fun w => (Ok tt, {| the_self := the_self w; actions := actions w ++ [a] |}).

Definition lift {A} (r : result A) : T A := fun w => (r, w).

(** [x / float(n)] *)
Definition pydiv (x : R) (n : nat) : result R :=
  match n with
  | O => Raise "ZeroDivisionError"
  | S _ => Ok (x / INR n)
  end.

(** [[d[i] for i in names]] *)
Fixpoint lookup_all (d : string -> option nat) (names : list string)
  : result (list nat) :=
  match names with
  | [] => Ok []
  | i :: names =>
      match d i with
      | Some k => ks ← lookup_all d names; Ok (k :: ks)
      | None => Raise "KeyError"
      end
  end.

Definition of_option {A} (exn : string) (o : option A) : result A :=
  match o with
  | Some a => Ok a
  | None => Raise exn
  end.

Section Step.

Context `{Loss.Regularizers}.

(** [training_step].  The batch is the input tensor with the names of the
    series of its rows, [meta["df_name"]].  The time that the stacker
    hands out, rational in [forward], is read as real by the loss; the
    targets have one channel, which [squeeze(dim=2)] drops. *)
Definition training_step (batch : tensor * list string) (batch_idx : nat)
  : T R :=
  let '(inputs_tensor, meta) := batch in
  self ← get_self;
  step_fraction ←
    lift (pydiv (INR batch_idx) (train_steps_per_epoch self));
  let epoch_float := INR (current_epoch self) + step_fraction in
  progress ← lift (pydiv epoch_float (epochs self));
  _ ← update_self (with_train_progress progress);
  stacker ← lift (deref (components_stacker (net self) "train"));
  let targets := unstack_features stacker "targets" inputs_tensor in
  let time := unstack_time stacker inputs_tensor in
  (* Global-local *)
  meta_name_tensor ←
    (if meta_used_in_model (net self) then
       names ← lift (lookup_all (id_dict (id_list (net self)) 0) meta);
       mret (Some names)
     else mret None);
  (* Run forward calculation *)
  v ← lift (of_option "AttributeError"
              (forward (net self) inputs_tensor "train" meta_name_tensor));
  let predicted := v_prediction_with_quantiles v in
  (* Store predictions in self for later network visualization *)
  _ ← update_self (with_train_epoch_prediction predicted);
  (* Calculate loss *)
  self ← get_self;
  out ← lift (Loss.loss_func (lossnet self) (pw Q2R time) predicted targets);
  let loss := Loss.out_loss out in
  let reg_loss := Loss.out_reg_loss out in
  (* Optimization *)
  _ ← act zero_grad;
  _ ← act (manual_backward loss);
  _ ← act optimizer_step;
  _ ← (if Loss.finding_lr (lossnet self) then act (scheduler_step None)
       else act (scheduler_step (Some epoch_float)));
  _ ← (if Loss.finding_lr (lossnet self) then
         (* Manually track the loss for the lr finder *)
         act (log "train_loss" loss)
       else mret tt);
  (* Metrics *)
  _ ← (if metrics_enabled self && negb (Loss.finding_lr (lossnet self)) then
         let predicted_denorm := denormalize self (chan 0 predicted) in
         let target_denorm := denormalize self (chan 0 targets) in
         _ ← act (log_dict (metrics_train self predicted_denorm
                              target_denorm));
         _ ← act (log "Loss" loss);
         _ ← act (log "RegLoss" reg_loss);
         act (log "LR" (get_last_lr self))
       else mret tt);
  mret loss.

End Step.

End Training.

(** A model in training: the network of [Demo] with the losses of
    [LossDemo], at the second of four batches of the first of ten epochs,
    with metrics on. *)
Module TrainingDemo.

Import Forward Training.
Local Open Scope R_scope.

Definition module : LightningModule := {|
  net := Demo.net;
  lossnet := LossDemo.local_net;
  train_epoch_prediction := None;
  current_epoch := 0;
  train_steps_per_epoch := 4;
  epochs := 10;
  metrics_enabled := true;
  denormalize := fun m => m;
  metrics_train := fun _ _ => [("MAE"%string, 0)];
  get_last_lr := 1 / 100
|}.

Definition start : world := {| the_self := module; actions := [] |}.

Definition batch : tensor * list string := (Demo.input, ["__df__"%string]).

End TrainingDemo.

(** ** Setting a stacker; the validation, test and predict steps *)

Module Steps.

Import Forward Py Training.
Local Open Scope R_scope.

(** [self.components_stacker[mode] = stacker] *)
Definition with_components_stacker (stacker : ComponentStacker)
    (mode : string) (self : TimeNet) : TimeNet :=
  {| quantiles := quantiles self;
     n_forecasts := n_forecasts self;
     n_lags := n_lags self;
     components_stacker :=
       fun m => if String.eqb m mode then Some stacker
                else components_stacker self m;
     meta_used_in_model := meta_used_in_model self;
     id_list := id_list self;
     trend := trend self;
     config_seasonality := config_seasonality self;
     seasonality := seasonality self;
     events_dims_set := events_dims_set self;
     event_params_additive := event_params_additive self;
     event_params_multiplicative := event_params_multiplicative self;
     future_regressors := future_regressors self;
     ar_net := ar_net self;
     lagged_regressors_set := lagged_regressors_set self;
     covar_net := covar_net self |}.

(** [set_components_stacker] *)
Definition set_components_stacker (stacker : ComponentStacker)
    (mode : string) (self : TimeNet) : result TimeNet :=
  let modes := ["train"; "val"; "test"; "predict"]%string in
  if existsb (String.eqb mode) modes then
    Ok (with_components_stacker stacker mode self)
  else Raise "AssertionError".

Section Evaluation.

Context `{Loss.Regularizers}.

(** [self.metrics_val], the metric collection of the validation and test
    steps. *)
Context (metrics_val : matrix -> matrix -> list (string * R)).

(** The body that [validation_step] and [test_step] share, for the mode
    and the suffix of the logged names that each of them uses. *)
Definition evaluation_step (mode suffix : string)
    (batch : tensor * list string) (batch_idx : nat) : T unit :=
  let '(inputs_tensor, meta) := batch in
  self ← get_self;
  stacker ← lift (deref (components_stacker (net self) mode));
  let targets := unstack_features stacker "targets" inputs_tensor in
  let time := unstack_time stacker inputs_tensor in
  (* Global-local *)
  meta_name_tensor ←
    (if meta_used_in_model (net self) then
       names ← lift (lookup_all (id_dict (id_list (net self)) 0) meta);
       mret (Some names)
     else mret None);
  (* Run forward calculation *)
  v ← lift (of_option "AttributeError"
              (forward (net self) inputs_tensor mode meta_name_tensor));
  let predicted := v_prediction_with_quantiles v in
  (* Calculate loss *)
  out ← lift (Loss.loss_func (lossnet self) (pw Q2R time) predicted targets);
  let loss := Loss.out_loss out in
  let reg_loss := Loss.out_reg_loss out in
  (* Metrics *)
  if metrics_enabled self then
    let predicted_denorm := denormalize self (chan 0 predicted) in
    let target_denorm := denormalize self (chan 0 targets) in
    _ ← act (log_dict (metrics_val predicted_denorm target_denorm));
    _ ← act (log ("Loss" ++ suffix) loss);
    act (log ("RegLoss" ++ suffix) reg_loss)
  else mret tt.

(** [validation_step] *)
Definition validation_step (batch : tensor * list string) (batch_idx : nat)
  : T unit :=
  evaluation_step "val" "_val" batch batch_idx.

(** [test_step] *)
Definition test_step (batch : tensor * list string) (batch_idx : nat)
  : T unit :=
  evaluation_step "test" "_test" batch batch_idx.

End Evaluation.

(** [predict_step]; of the pair it returns, the prediction. *)
Definition predict_step (batch : tensor * list string) (batch_idx : nat)
  : T tensor :=
  let '(inputs_tensor, meta) := batch in
  self ← get_self;
  (* Global-local *)
  meta_name_tensor ←
    (if meta_used_in_model (net self) then
       names ← lift (lookup_all (id_dict (id_list (net self)) 0) meta);
       mret (Some names)
     else mret None);
  (* Run forward calculation *)
  v ← lift (of_option "AttributeError"
              (forward (net self) inputs_tensor "predict" meta_name_tensor));
  mret (v_prediction_with_quantiles v).

End Steps.

(** Further models to run the loss on: [LossDemo.local_net] without its
    trend configuration. *)
Module LossDemoMore.

Import Forward Py Loss.
Local Open Scope R_scope.

Definition no_trend_net : LossNet := {|
  config_train := LossDemo.train;
  config_model := {| max_lags := 0; model_n_forecasts := 2 |};
  config_ar := None;
  config_trend := None;
  config_seasonality := None;
  config_events_set := false;
  config_holidays_set := false;
  regressors_set := false;
  n_lags := 1;
  reg_enabled := true;
  finding_lr := false;
  train_progress := 9 / 10;
  ar_weights := [];
  get_trend_deltas := [];
  trend_k0 := [];
  trend_deltas := [];
  season_dims_set := false;
  season_params := []
|}.

End LossDemoMore.

(** ** The always-on local terms in the words of the specification *)

Module LossSpec.

Import Forward Py Loss.
Local Open Scope R_scope.

Section Terms.

Context `{Regularizers}.

(** Modelled from the spec: the per-series local trend term is there when
    the trend is configured as local or glocal with a nonzero local
    weight.  (The code asks for local; see [Loss.trend_glocal_term].) *)
Definition trend_local_term (self : LossNet) : R :=
  match config_trend self with
  | Some ct =>
      if (String.eqb (trend_global_local ct) "local"
          || String.eqb (trend_global_local ct) "glocal")
         && truthy (trend_local_reg ct) then
        reg_func_trend_glocal (trend_k0 self) (trend_deltas self)
          (default 0 (trend_local_reg ct))
      else 0
  | None => 0
  end.

(** Modelled from the spec: the per-series local seasonality term is there
    when the seasonality is configured as local or glocal with a nonzero
    local weight. *)
Definition seasonality_local_term (self : LossNet) : R :=
  match config_seasonality self with
  | Some cs =>
      if (String.eqb (global_local cs) "local"
          || String.eqb (global_local cs) "glocal")
         && truthy (seasonality_local_reg cs) then
        reg_func_seasonality_glocal (season_params self)
          (default 0 (seasonality_local_reg cs))
      else 0
  | None => 0
  end.

(** Modelled from the spec: the always-on local terms together. *)
Definition local_terms (self : LossNet) : R :=
  trend_local_term self + seasonality_local_term self.

End Terms.

End LossSpec.

(** ** Counting event parameters *)

Module InitMore.

Import Py Init.

(** The number of event indices of the entries in mode [m]. *)
Definition indices_in_mode (m : string) (items : list (string * EventDims))
  : nat :=
  list_sum
    (map (fun item => if String.eqb (mode (snd item)) m
                      then length (event_indices (snd item)) else 0%nat)
       items).

(** The number of event indices of all entries. *)
Definition all_indices (items : list (string * EventDims)) : nat :=
  list_sum (map (fun item => length (event_indices (snd item))) items).



End InitMore.

(** ** The AR net and the covariate net: their layers *)

Module Nets.

Import Tensor.
Local Open Scope nat_scope.

(** The layers that [__init__] puts into [nn.Sequential]: [nn.Linear] with
    its input size, its output size and whether it has a bias, and
    [nn.ReLU]. *)
Inductive layer :=
| Linear (d_inputs d_outputs : nat) (bias : bool)
| ReLU.

(** The loop over the hidden sizes: it appends a linear layer with bias
    and a ReLU per size, and carries the input size of the next layer. *)
Definition hidden_layers (d_inputs : nat) (sizes : list nat)
  : list layer * nat :=
  fold_left
    (fun '(net_layers, d_inputs) d_hidden_i =>
       (net_layers ++ [Linear d_inputs d_hidden_i true] ++ [ReLU],
        d_hidden_i))
    sizes ([], d_inputs).

(** The layers of [self.ar_net], built when [n_lags > 0]. *)
Definition ar_net_layers (n_lags : nat) (ar_layers : list nat)
    (n_forecasts n_quantiles : nat) : option (list layer) :=
  if 0 <? n_lags then
    let d_inputs := n_lags in
    let '(ar_net_layers, d_inputs) := hidden_layers d_inputs ar_layers in
    (* final layer has input size d_inputs and output size equal to
       no. of forecasts * no. of quantiles *)
    Some (ar_net_layers
          ++ [Linear d_inputs (n_forecasts * n_quantiles) false])
  else None.

(** [config_lagged_regressors]: the lagged regressors by name with their
    numbers of lags ([None] when there are none), and the hidden sizes. *)
Record LaggedRegressors := {
  regressors : option (list (string * nat));
  layers : list nat
}.

(** The layers of [self.covar_net], built when lagged regressors are
    configured. *)
Definition covar_net_layers (config_lagged_regressors : option LaggedRegressors)
    (n_forecasts n_quantiles : nat) : option (list layer) :=
  match config_lagged_regressors with
  | Some config =>
      match regressors config with
      | Some regs =>
          let d_inputs := list_sum (map snd regs) in
          let '(covar_net_layers, d_inputs) :=
            hidden_layers d_inputs (layers config) in
          Some (covar_net_layers
                ++ [Linear d_inputs (n_forecasts * n_quantiles) false])
      | None => None
      end
  | None => None
  end.

(** The layers whose weights the loop after the construction initializes:
    those that are [nn.Linear]. *)
Definition initialized (net : list layer) : list layer :=
  List.filter (fun lay => match lay with Linear _ _ _ => true | ReLU => false end)
    net.

(** The size of what a sequence of layers returns on vectors of size [d],
    if the sizes fit: a linear layer takes vectors of its input size to
    vectors of its output size, a ReLU keeps the size. *)
Fixpoint output_size (d : nat) (net : list layer) : option nat :=
  match net with
  | [] => Some d
  | Linear d_in d_out _ :: net =>
      if d =? d_in then output_size d_out net else None
  | ReLU :: net => output_size d net
  end.

(** The shape (rows, columns) of the weight that the property [ar_weights]
    returns: the weight of the first linear layer, of shape (output size,
    input size). *)
Fixpoint ar_weights_shape (net : list layer) : option (nat * nat) :=
  match net with
  | [] => None
  | Linear d_in d_out _ :: _ => Some (d_out, d_in)
  | ReLU :: net => ar_weights_shape net
  end.

(** [np.add.accumulate(l).tolist()] *)
Fixpoint accumulate_from (acc : nat) (l : list nat) : list nat :=
  match l with
  | [] => []
  | x :: l => (acc + x) :: accumulate_from (acc + x) l
  end.

Definition accumulate (l : list nat) : list nat := accumulate_from 0 l.

(** [l[:-1]] *)
Definition but_last {A} (l : list A) : list A := take (length l - 1) l.

(** [torch.tensor_split(row, indices)] on one row: the pieces
    [row[:i1]], [row[i1:i2]], ..., [row[ik:]]. *)
Fixpoint split_row {A} (start : nat) (indices : list nat) (r : list A)
  : list (list A) :=
  match indices with
  | [] => [drop start r]
  | i :: indices => take (i - start) (drop start r) :: split_row i indices r
  end.

(** [torch.tensor_split(m, indices, axis=1)]: one matrix per piece. *)
Definition tensor_split (m : matrix) (indices : list nat) : list matrix :=
  map (fun k => map (fun r => nth k (split_row 0 indices r) []) m)
    (seq 0 (S (length indices))).

(** [get_covar_weights].  The attributions are the weight of the first
    layer of the covariate net when it has no hidden layers, and otherwise
    what [interprete_model] returns, which is not part of [time_net.py];
    both are taken as they are. *)
Definition get_covar_weights (config_lagged_regressors : option LaggedRegressors)
    (first_weight interpreted : matrix) : option (list (string * matrix)) :=
  match config_lagged_regressors with
  | Some config =>
      match regressors config with
      | Some regs =>
          (* Accumulate the lags of the covariates *)
          let covar_splits := accumulate (but_last (map snd regs)) in
          (* Calculate the attributions w.r.t. the inputs *)
          let attributions :=
            match layers config with
            | [] => first_weight
            | _ :: _ => interpreted
            end in
          (* Split the attributions into the different covariates *)
          let attributions_split := tensor_split attributions covar_splits in
          (* Combine attributions and covariate name *)
          Some (zip (map fst regs) attributions_split)
      | None => None
      end
  | None => None
  end.

End Nets.

(** ** Components of a forecast: the flag and the events *)

Module Components.

Import Tensor Forward Py Init.
Local Open Scope Q_scope.

(** The attributes behind [set_compute_components]: the flag that makes
    [forward] compute components, and the attribute that keeps its
    previous value, which does not exist ([None]) until it is first
    assigned. *)
Record Flags := {
  include_components : bool;
  prev_include_components : option bool
}.

(** What [__init__] leaves: it assigns [include_components = False] and
    does not assign [prev_include_components]. *)
Definition constructed : Flags :=
  {| include_components := false; prev_include_components := None |}.

Definition set_compute_components (include_components0 : bool) (self : Flags)
  : Flags :=
  {| prev_include_components := Some (include_components self);
     include_components := include_components0 |}.

Definition reset_compute_components (self : Flags) : result Flags :=
  prev ← deref (prev_include_components self);
  Ok {| include_components := prev;
        prev_include_components := prev_include_components self |}.

(** [[f(x) for x in l]], up to the first exception *)
Fixpoint for_each {A B} (f : A -> result B) (l : list A) : result (list B) :=
  match l with
  | [] => Ok []
  | x :: l => y ← f x; ys ← for_each f l; Ok (y :: ys)
  end.

(** [r[indices]] on the last axis: an index past the end raises. *)
Definition index_row (indices : list nat) (r : row) : result row :=
  for_each (fun i => match r !! i with
                     | Some x => Ok x
                     | None => Raise "IndexError"
                     end) indices.

(** The entries of a row at positions that are all in range. *)
Definition select (indices : list nat) (r : row) : row :=
  map (fun i => nth i r 0) indices.

(** [params[:, indices]] *)
Definition index_columns (indices : list nat) (m : matrix) : result matrix :=
  for_each (index_row indices) m.

(** [features[:, :, indices]] *)
Definition index_features (indices : list nat) (t : tensor) : result tensor :=
  for_each (index_columns indices) t.

(** [scalar_features_effects] with its argument [indices]. *)
Definition scalar_features_effects (features : tensor) (params : matrix)
    (indices : option (list nat)) : result tensor :=
  '(features, params) ←
    match indices with
    | Some indices =>
        features ← index_features indices features;
        params ← index_columns indices params;
        Ok (features, params)
    | None => Ok (features, params)
    end;
  Ok (Forward.scalar_features_effects features params).

(** [d[key]] *)
Definition item {A} (d : string -> option A) (key : string) : result A :=
  match d key with
  | Some a => Ok a
  | None => Raise "KeyError"
  end.

(** [x[...]] where [x] may be [None] *)
Definition subscript {A} (x : option A) : result A :=
  match x with
  | Some a => Ok a
  | None => Raise "TypeError"
  end.

(** The part of [compute_components] on events and holidays.  The result
    lists the assignments [components[key] = value] in the order in which
    they are made. *)
Definition compute_components_events (self : TimeNet)
    (config_events_set config_holidays_set : bool)
    (events_dims : option (list (string * EventDims)))
    (time_input : matrix)
    (additive_events_input multiplicative_events_input : option tensor)
    (components_raw : string -> option tensor)
  : result (list (string * tensor)) :=
  let T := shape1 time_input in
  if config_events_set || config_holidays_set then
    events_additive ←
      match additive_events_input with
      | Some _ =>
          raw ← item components_raw "additive_events";
          Ok [("events_additive"%string, tslice (n_lags self) T raw)]
      | None => Ok []
      end;
    events_multiplicative ←
      match multiplicative_events_input with
      | Some _ =>
          raw ← item components_raw "multiplicative_events";
          Ok [("events_multiplicative"%string, tslice (n_lags self) T raw)]
      | None => Ok []
      end;
    events_dims ← deref events_dims;
    events ←
      for_each
        (fun '(event, configs) =>
           let mode := mode configs in
           let indices := event_indices configs in
           '(features, params) ←
             (if String.eqb mode "additive" then
                x ← subscript additive_events_input;
                Ok (tslice (n_lags self) T x, event_params_additive self)
              else
                x ← subscript multiplicative_events_input;
                Ok (tslice (n_lags self) T x,
                    event_params_multiplicative self));
           out ← scalar_features_effects features params (Some indices);
           Ok (("event_" ++ event)%string, out))
        events_dims;
    Ok (events_additive ++ events_multiplicative ++ events)
  else Ok [].

(** The components assigned for the events that are in additive mode
    ([additive = true]) or in another one: [events] lists one component
    per entry of [events_dims], in its order. *)
Definition components_in (additive : bool)
    (events_dims : list (string * EventDims))
    (events : list (string * tensor)) : list tensor :=
  map (fun p => snd (snd p))
    (List.filter
       (fun p => Bool.eqb (String.eqb (mode (snd (fst p))) "additive")
                   additive)
       (zip events_dims events)).

End Components.

(** A model with three events: two additive ones that share three feature
    columns, and a multiplicative one. *)
Module ComponentsDemo.

Import Forward.
Local Open Scope Q_scope.

Definition net : TimeNet := {|
  quantiles := [1#2; 9#10];
  n_forecasts := 2;
  n_lags := 1;
  components_stacker := fun _ => None;
  meta_used_in_model := false;
  id_list := ["__df__"%string];
  trend := fun t _ => pw (fun x => [3 + x; 1]) t;
  config_seasonality := None;
  seasonality := fun _ _ => [];
  events_dims_set := true;
  event_params_additive := [[1; 2; 3]; [0; 1; 0]];
  event_params_multiplicative := [[1#10]; [2#10]];
  future_regressors := fun x _ => x;
  ar_net := fun x => x;
  lagged_regressors_set := false;
  covar_net := fun x => x
|}.

Definition events_dims : list (string * Init.EventDims) :=
  [("easter"%string, {| Init.mode := "additive"; Init.event_indices := [0; 2]%nat |});
   ("sale"%string, {| Init.mode := "multiplicative"; Init.event_indices := [0%nat] |});
   ("fair"%string, {| Init.mode := "additive"; Init.event_indices := [1%nat] |})].

Definition time_input : Tensor.matrix := [[0; 1#2; 1]].

Definition additive_events_input : Tensor.tensor :=
  [[[1; 0; 0]; [1; 1; 0]; [0; 1; 1]]].

Definition multiplicative_events_input : Tensor.tensor :=
  [[[0]; [1]; [1]]].

Definition components_raw (key : string) : option Tensor.tensor :=
  if String.eqb key "additive_events" then
    Some (scalar_features_effects additive_events_input
            (event_params_additive net))
  else if String.eqb key "multiplicative_events" then
    Some (scalar_features_effects multiplicative_events_input
            (event_params_multiplicative net))
  else None.

End ComponentsDemo.

(** ** Components of a forecast: the lagged regressors *)

Module Attribution.

Import Tensor Forward Py Components.
Local Open Scope Q_scope.

(** [torch.sum(covar, axis=1)] *)
Definition sum_axis1 (m : matrix) : row := map (foldr Qplus 0) m.

(** [reduce(torch.add, l)] *)
Definition reduce_add (l : list row) : result row :=
  match l with
  | [] => Raise "TypeError"
  | x :: l => Ok (fold_left (zip_with Qplus) l x)
  end.

(** [v.reshape(h, c)] *)
Definition reshape (h c : nat) (v : row) : result matrix :=
  if (length v =? h * c)%nat then
    Ok (map (fun i => take c (drop (i * c) v)) (seq 0 h))
  else Raise "RuntimeError".

(** [d[name]] for a dict given by its items *)
Fixpoint getitem {A} (d : list (string * A)) (name : string) : result A :=
  match d with
  | [] => Raise "KeyError"
  | (key, value) :: d =>
      if String.eqb key name then Ok value else getitem d name
  end.

(** [torch.multiply(t, m)], [m] being broadcast along the batch axis *)
Definition multiply (t : tensor) (m : matrix) : tensor :=
  map (fun x => pw2 Qmult x m) t.

(** The part of [compute_components] on the lagged regressors.
    [covar_weights] is the attribute that [set_covar_weights] assigns and
    the constructor does not ([None] until then).  The result lists the
    assignments [components[key] = value] in the order in which they are
    made.  The quotient is that of the rationals, which differs from the
    one of floats where the divisor is zero. *)
Definition compute_components_lagged_regressors (self : TimeNet)
    (covar_weights : option (list (string * matrix)))
    (covariates_input : option (list (string * matrix)))
    (components_raw : string -> option tensor)
  : result (list (string * tensor)) :=
  match covariates_input with
  | Some covariates_input =>
      if lagged_regressors_set self then
        (* Combined forward pass *)
        all_covariates ← item components_raw "covariates";
        (* Calculate the contribution of each covariate on each forecast *)
        covar_attributions ← deref covar_weights;
        (* Sum the contributions of all covariates *)
        covar_attribution_sum_per_forecast ←
          reduce_add (map (fun p => sum_axis1 (snd p)) covar_attributions);
        for_each
          (fun name =>
             attributions ← getitem covar_attributions name;
             share ←
               reshape (n_forecasts self) (length (quantiles self))
                 (zip_with Qdiv (sum_axis1 attributions)
                    covar_attribution_sum_per_forecast);
             Ok (("lagged_regressor_" ++ name)%string,
                 multiply all_covariates share))
          (map fst covariates_input)
      else Ok []
  | None => Ok []
  end.

End Attribution.

(** A model with two lagged regressors, two forecast steps and two
    quantiles. *)
Module AttributionDemo.

Import Forward.
Local Open Scope Q_scope.

Definition net : TimeNet := {|
  quantiles := [1#2; 9#10];
  n_forecasts := 2;
  n_lags := 1;
  components_stacker := fun _ => None;
  meta_used_in_model := false;
  id_list := ["__df__"%string];
  trend := fun t _ => pw (fun x => [3 + x; 1]) t;
  config_seasonality := None;
  seasonality := fun _ _ => [];
  events_dims_set := false;
  event_params_additive := [];
  event_params_multiplicative := [];
  future_regressors := fun x _ => x;
  ar_net := fun x => x;
  lagged_regressors_set := true;
  covar_net := fun x => x
|}.

Definition covar_weights : list (string * Tensor.matrix) :=
  [("temp"%string, [[1; 1]; [2; 0]; [1; 2]; [0; 1]]);
   ("rain"%string, [[1; 0; 1]; [1; 1; 0]; [0; 0; 1]; [1; 1; 1]])].

Definition covariates_input : list (string * Tensor.matrix) :=
  [("temp"%string, [[5; 6]]); ("rain"%string, [[7; 8; 9]])].

Definition components_raw (key : string) : option Tensor.tensor :=
  if String.eqb key "covariates" then Some [[[4; 8]; [12; 16]]] else None.

End AttributionDemo.
(** * Facts *)

Import Tensor.

(** *** Elementwise operations on a common base grid *)

Lemma pw_pw {A B C} (f : B -> C) (g : A -> B) (b : grid A) :
  pw f (pw g b) = pw (fun x => f (g x)) b.
Proof.
  unfold pw. rewrite map_map. apply map_ext. intros l. apply map_map.
Qed.

Lemma pw_ext {A B} (f g : A -> B) (b : grid A) :
  (forall x, f x = g x) -> pw f b = pw g b.
Proof.
  intros E. unfold pw. apply map_ext. intros l. now apply map_ext.
Qed.

Lemma pw_id {A} (b : grid A) : pw (fun x => x) b = b.
Proof.
  unfold pw. rewrite <- (map_id b) at 2. apply map_ext. intros l.
  apply map_id.
Qed.

Lemma zip_with_map_map {A B C D} (h : B -> C -> D) (f : A -> B) (g : A -> C)
      (l : list A) :
  zip_with h (map f l) (map g l) = map (fun x => h (f x) (g x)) l.
Proof. induction l as [|x l IH]; simpl; [reflexivity | now rewrite IH]. Qed.

Lemma pw2_pw_pw {A B C D} (h : B -> C -> D) (f : A -> B) (g : A -> C)
      (b : grid A) :
  pw2 h (pw f b) (pw g b) = pw (fun x => h (f x) (g x)) b.
Proof.
  unfold pw2, pw. rewrite zip_with_map_map. apply map_ext. intros l.
  apply zip_with_map_map.
Qed.

Lemma last_dim_pw (f : row -> row) (b : tensor) :
  (forall r, length (f r) = length r) -> last_dim (pw f b) = last_dim b.
Proof.
  intros Hf. destruct b as [|[|r l] b]; simpl; auto.
Qed.


Lemma pw_ext_in {A B} (f g : A -> B) (t : grid A) :
  Forall (Forall (fun x => f x = g x)) t -> pw f t = pw g t.
Proof.
  unfold pw. induction 1 as [|m t Hm Ht IH]; simpl; [reflexivity|].
  f_equal; [|exact IH]. clear -Hm.
  induction Hm as [|x m Hx Hm IH]; simpl; [reflexivity|]. now f_equal.
Qed.

Lemma Forall_pw {A B} (P : B -> Prop) (f : A -> B) (t : grid A) :
  Forall (Forall (fun x => P (f x))) t -> Forall (Forall P) (pw f t).
Proof.
  unfold pw. induction 1 as [|m t Hm Ht IH]; simpl; constructor; auto.
  clear -Hm. induction Hm; simpl; constructor; auto.
Qed.
(** ** Quantile reconciliation, position by position *)

Import Quantile.
Local Open Scope Q_scope.

Lemma bind_run {A B} (m : M A) (k : A -> M B) s a s' :
  m s = (a, s') -> bind m k s = k a s'.
Proof. intros E. unfold bind. now rewrite E. Qed.

Lemma pw2_self {A B C} (h : A -> B -> C) (g : A -> B) (b : grid A) :
  pw2 h b (pw g b) = pw (fun x => h x (g x)) b.
Proof.
  rewrite <- (pw_id b) at 1. apply (pw2_pw_pw h (fun x => x) g).
Qed.

Lemma clamp0_run k s :
  (let* c := read_chan k in write_chan k (mmax_scalar 0 c)) s
  = (tt, {| buf := pw (row_clamp0 k) (buf s); writes := writes s ++ [k] |}).
Proof.
  unfold bind, read_chan, write_chan, set_chan, mmax_scalar, chan.
  rewrite pw_pw, pw2_self. reflexivity.
Qed.

Lemma max_into_run k i s :
  (let* next_diff := read_chan k in
   let* diff := read_chan i in
   write_chan k (mmax next_diff diff)) s
  = (tt, {| buf := pw (row_max_into k i) (buf s); writes := writes s ++ [k] |}).
Proof.
  unfold bind, read_chan, write_chan, set_chan, mmax, chan.
  rewrite pw2_pw_pw, pw2_self. reflexivity.
Qed.

Lemma for_run (body : nat -> M unit) (rbody : nat -> row -> row)
      (wch : nat -> nat) :
  (forall i s, body i s
     = (tt, {| buf := pw (rbody i) (buf s); writes := writes s ++ [wch i] |})) ->
  forall l s,
    for_ l body s
    = (tt, {| buf := pw (fun r => fold_left (fun r i => rbody i r) l r) (buf s);
              writes := writes s ++ map wch l |}).
Proof.
  intros Hbody l. induction l as [|i l IH]; intros [b w]; simpl.
  - unfold ret. now rewrite pw_id, app_nil_r.
  - rewrite (bind_run _ _ _ _ _ (Hbody i _)). rewrite IH. simpl.
    now rewrite pw_pw, <- app_assoc.
Qed.

Lemma upper_clamp_run (v : view) n s :
  (let* c := vread v 0 in
   vwrite v 0 (mmax_scalar 0 c) ;;
   for_ (seq 0 (Z.to_nat (n - 1))) (fun i =>
     let* next_diff := vread v (i + 1) in
     let* diff := vread v i in
     vwrite v (i + 1) (mmax next_diff diff))) s
  = (tt, {| buf := pw (row_upper_clamp (v_lo v) n) (buf s);
            writes := writes s ++ (v_lo v + 0)%nat
               :: map (fun i => (v_lo v + (i + 1))%nat)
                      (seq 0 (Z.to_nat (n - 1))) |}).
Proof.
  unfold vread, vwrite.
  change (bind (read_chan (v_lo v + 0)) ?k s)
    with (bind (let* c := read_chan (v_lo v + 0) in
                write_chan (v_lo v + 0) (mmax_scalar 0 c))
               (fun _ => for_ (seq 0 (Z.to_nat (n - 1))) (fun i =>
                  let* next_diff := read_chan (v_lo v + (i + 1)) in
                  let* diff := read_chan (v_lo v + i) in
                  write_chan (v_lo v + (i + 1)) (mmax next_diff diff))) s).
  rewrite (bind_run _ _ _ _ _ (clamp0_run _ s)).
  rewrite (for_run _ (fun i => row_max_into (v_lo v + (i + 1)) (v_lo v + i))
                   (fun i => (v_lo v + (i + 1))%nat)).
  - simpl. rewrite pw_pw, <- app_assoc. reflexivity.
  - intros i s'. apply max_into_run.
Qed.

Lemma lower_clamp_run (v : view) n s :
  (let* c := vread v (vlast v) in
   vwrite v (vlast v) (mmax_scalar 0 c) ;;
   for_ (range_down (Z.to_nat n)) (fun i =>
     let* next_diff := vread v (i - 1) in
     let* diff := vread v i in
     vwrite v (i - 1) (mmax next_diff diff))) s
  = (tt, {| buf := pw (fold_left
                         (fun r i => row_max_into (v_lo v + (i - 1)) (v_lo v + i) r)
                         (range_down (Z.to_nat n))
                       ∘ row_clamp0 (v_lo v + vlast v)) (buf s);
            writes := writes s ++ (v_lo v + vlast v)%nat
               :: map (fun i => (v_lo v + (i - 1))%nat)
                      (range_down (Z.to_nat n)) |}).
Proof.
  unfold vread, vwrite.
  change (bind (read_chan (v_lo v + vlast v)) ?k s)
    with (bind (let* c := read_chan (v_lo v + vlast v) in
                write_chan (v_lo v + vlast v) (mmax_scalar 0 c))
               (fun _ => for_ (range_down (Z.to_nat n)) (fun i =>
                  let* next_diff := read_chan (v_lo v + (i - 1)) in
                  let* diff := read_chan (v_lo v + i) in
                  write_chan (v_lo v + (i - 1)) (mmax next_diff diff))) s).
  rewrite (bind_run _ _ _ _ _ (clamp0_run _ s)).
  rewrite (for_run _ (fun i => row_max_into (v_lo v + (i - 1)) (v_lo v + i))
                   (fun i => (v_lo v + (i - 1))%nat)).
  - simpl. rewrite pw_pw, <- app_assoc. reflexivity.
  - intros i s'. apply max_into_run.
Qed.

Ltac pw_norm :=
  unfold set_slice, tadd, tneg, detach, repeat_last, slice, chan, set_chan,
    zeros_like;
  rewrite ?pw_pw, ?pw2_pw_pw; rewrite ?pw_pw, ?pw2_pw_pw.

Lemma upper_block_run (predict_mode : bool) idx d nu (b : tensor)
      (fb fo : row -> row) s :
  buf s = pw fb b ->
  (if (0 <? nu)%Z then
     (if predict_mode then
        let* c := vread {| v_lo := idx; v_hi := d |} 0 in
        vwrite {| v_lo := idx; v_hi := d |} 0 (mmax_scalar 0 c) ;;
        for_ (seq 0 (Z.to_nat (nu - 1))) (fun i =>
          let* next_diff := vread {| v_lo := idx; v_hi := d |} (i + 1) in
          let* diff := vread {| v_lo := idx; v_hi := d |} i in
          vwrite {| v_lo := idx; v_hi := d |} (i + 1) (mmax next_diff diff))
      else ret tt) ;;
     let* upper := vslice {| v_lo := idx; v_hi := d |} in
     let* median := read_chan 0 in
     ret (set_slice idx d
            (tadd upper (detach (repeat_last (Z.to_nat nu) median)))
            (pw fo b))
   else ret (pw fo b)) s
  = (pw (fun x =>
           if (0 <? nu)%Z
           then row_set_upper idx d nu
                  (if (0 <? nu)%Z && predict_mode
                   then row_upper_clamp idx nu (fb x) else fb x) (fo x)
           else fo x) b,
     {| buf := pw (fun x => if (0 <? nu)%Z && predict_mode
                            then row_upper_clamp idx nu (fb x) else fb x) b;
        writes := writes s ++
          (if (0 <? nu)%Z && predict_mode
           then (idx + 0)%nat
                  :: map (fun i => (idx + (i + 1))%nat)
                         (seq 0 (Z.to_nat (nu - 1)))
           else []) |}).
Proof.
  intros Hb. destruct s as [bs w]. simpl in Hb. subst bs.
  destruct (0 <? nu)%Z; simpl.
  2: { unfold ret. now rewrite app_nil_r. }
  destruct predict_mode.
  - rewrite (bind_run _ _ _ _ _ (upper_clamp_run _ nu _)).
    unfold bind, vslice, read_slice, read_chan, ret. simpl.
    pw_norm. reflexivity.
  - unfold bind, vslice, read_slice, read_chan, ret. simpl.
    pw_norm. now rewrite app_nil_r.
Qed.

Lemma lower_block_run (predict_mode : bool) idx nl (b : tensor)
      (fb fo : row -> row) s :
  buf s = pw fb b ->
  (if (0 <? nl)%Z then
     (if predict_mode then
        let* c := vread {| v_lo := 1; v_hi := idx |}
                        (vlast {| v_lo := 1; v_hi := idx |}) in
        vwrite {| v_lo := 1; v_hi := idx |}
               (vlast {| v_lo := 1; v_hi := idx |}) (mmax_scalar 0 c) ;;
        for_ (range_down (Z.to_nat nl)) (fun i =>
          let* next_diff := vread {| v_lo := 1; v_hi := idx |} (i - 1) in
          let* diff := vread {| v_lo := 1; v_hi := idx |} i in
          vwrite {| v_lo := 1; v_hi := idx |} (i - 1) (mmax next_diff diff))
      else ret tt) ;;
     let* lower := vslice {| v_lo := 1; v_hi := idx |} in
     let* median := read_chan 0 in
     ret (set_slice 1 idx
            (tadd (tneg lower) (detach (repeat_last (Z.to_nat nl) median)))
            (pw fo b))
   else ret (pw fo b)) s
  = (pw (fun x =>
           if (0 <? nl)%Z
           then row_set_lower idx nl
                  (if (0 <? nl)%Z && predict_mode
                   then row_lower_clamp (idx - 1 - 1) nl (fb x) else fb x)
                  (fo x)
           else fo x) b,
     {| buf := pw (fun x => if (0 <? nl)%Z && predict_mode
                            then row_lower_clamp (idx - 1 - 1) nl (fb x)
                            else fb x) b;
        writes := writes s ++
          (if (0 <? nl)%Z && predict_mode
           then (1 + (idx - 1 - 1))%nat
                  :: map (fun i => (1 + (i - 1))%nat)
                         (range_down (Z.to_nat nl))
           else []) |}).
Proof.
  intros Hb. destruct s as [bs w]. simpl in Hb. subst bs.
  destruct (0 <? nl)%Z; simpl.
  2: { unfold ret. now rewrite app_nil_r. }
  destruct predict_mode.
  - rewrite (bind_run _ _ _ _ _ (lower_clamp_run _ nl _)).
    unfold bind, vslice, read_slice, read_chan, ret. simpl.
    pw_norm. reflexivity.
  - unfold bind, vslice, read_slice, read_chan, ret. simpl.
    pw_norm. now rewrite app_nil_r.
Qed.

(** The routine is the elementwise operation made of [row_forecast] and
    [row_after], and it assigns the channels of [write_log]. *)
Lemma call_rows quantiles predict_mode diffs :
  call quantiles predict_mode diffs
  = (pw (row_forecast quantiles predict_mode (last_dim diffs)) diffs,
     {| buf := pw (row_after quantiles predict_mode (last_dim diffs)) diffs;
        writes := write_log quantiles predict_mode (last_dim diffs) |}).
Proof.
  unfold call, _compute_quantile_forecasts_from_diffs, row_forecast, row_after,
    write_log, row_after_upper.
  destruct (length quantiles <=? 1)%nat.
  { unfold get_diffs. simpl. now rewrite pw_id. }
  set (idx := quantiles_divider_index quantiles).
  set (d := last_dim diffs).
  set (nu := (Z.of_nat d - Z.of_nat idx)%Z).
  set (nl := (Z.of_nat idx - 1)%Z).
  rewrite (bind_run get_diffs _ _ _ _ eq_refl).
  rewrite (bind_run (read_chan 0) _ _ _ _ eq_refl).
  cbn [buf]. fold d. fold nu.
  assert (Eo : set_chan 0 (chan 0 diffs) (zeros_like diffs)
               = pw (fun r => <[0%nat := nth 0 r 0]> (replicate (length r) 0))
                    diffs).
  { unfold set_chan, chan, zeros_like. now rewrite pw2_pw_pw. }
  rewrite Eo.
  assert (Hb0 : buf {| buf := diffs; writes := [] |} = pw (fun r => r) diffs)
    by (simpl; now rewrite pw_id).
  rewrite (bind_run _ _ _ _ _
             (upper_block_run predict_mode idx d nu diffs _ _ _ Hb0)).
  match goal with
  | |- context [ {| buf := pw ?f diffs; writes := ?w |} ] =>
      rewrite (bind_run _ _ _ _ _
                 (lower_block_run predict_mode idx nl diffs f _
                    {| buf := pw f diffs; writes := w |} eq_refl))
  end.
  reflexivity.
Qed.


(** *** The two clamping loops compute running maxima *)

Lemma nth_middle_app (a : row) (x : Q) (l : row) k :
  length a = k -> nth k (a ++ x :: l) 0 = x.
Proof. intros <-. now rewrite nth_middle. Qed.

Lemma insert_middle_app (a : row) (x y : Q) (l : row) k :
  length a = k -> <[k := y]> (a ++ x :: l) = a ++ y :: l.
Proof.
  intros <-. rewrite insert_app_r_alt by lia.
  now rewrite Nat.sub_diag.
Qed.

Lemma upper_loop idx (l : row) : forall (a : row) x j,
  length a = (idx + j)%nat ->
  fold_left (fun r i => row_max_into (idx + (i + 1)) (idx + i) r)
            (seq j (length l)) (a ++ x :: l)
  = a ++ x :: running_max x l.
Proof.
  induction l as [|y l IH]; intros a x j Ha; simpl; [reflexivity|].
  unfold row_max_into at 2.
  replace (a ++ x :: y :: l) with ((a ++ [x]) ++ y :: l)
    by now rewrite <- app_assoc.
  rewrite (nth_middle_app (a ++ [x]) y l) by (rewrite length_app; simpl; lia).
  rewrite (insert_middle_app (a ++ [x])) by (rewrite length_app; simpl; lia).
  replace (nth (idx + j) ((a ++ [x]) ++ y :: l) 0) with x.
  2: { rewrite <- app_assoc. simpl. now rewrite nth_middle_app. }
  rewrite (IH (a ++ [x]) (Qmax y x) (S j)) by (rewrite length_app; simpl; lia).
  now rewrite <- app_assoc.
Qed.

Lemma lower_loop p (l : row) : forall (pre : row) x (b : row),
  length pre = p ->
  fold_left (fun r i => row_max_into (p + (i - 1)) (p + i) r)
            (rev (seq 1 (length l))) (pre ++ rev l ++ x :: b)
  = pre ++ rev (running_max x l) ++ x :: b.
Proof.
  induction l as [|y l IH]; intros pre x b Hp; [reflexivity|].
  cbn [length]. rewrite seq_S, rev_app_distr. cbn [rev app fold_left].
  cbn [running_max].
  unfold row_max_into at 2.
  assert (E : pre ++ (rev l ++ [y]) ++ x :: b
              = (pre ++ rev l) ++ y :: x :: b).
  { now rewrite <- !app_assoc. }
  rewrite E.
  rewrite (nth_middle_app (pre ++ rev l) y)
    by (rewrite length_app, length_rev; lia).
  rewrite (insert_middle_app (pre ++ rev l))
    by (rewrite length_app, length_rev; lia).
  replace (nth (p + (1 + length l)) ((pre ++ rev l) ++ y :: x :: b) 0) with x.
  2: { replace ((pre ++ rev l) ++ y :: x :: b)
         with ((pre ++ rev l ++ [y]) ++ x :: b)
         by now rewrite <- !app_assoc.
       rewrite nth_middle_app; [reflexivity|].
       rewrite !length_app, length_rev. simpl. lia. }
  replace ((pre ++ rev l) ++ Qmax y x :: x :: b)
    with (pre ++ rev l ++ Qmax y x :: (x :: b)) by now rewrite <- app_assoc.
  rewrite (IH pre (Qmax y x) (x :: b) Hp).
  simpl. now rewrite <- !app_assoc.
Qed.

Lemma length_running_max acc l : length (running_max acc l) = length l.
Proof. revert acc. induction l; intros; simpl; auto. Qed.

Lemma length_clamp_offsets l : length (clamp_offsets l) = length l.
Proof. destruct l; simpl; [|rewrite length_running_max]; auto. Qed.

Lemma upper_clamp_closed idx (pre : row) x (l : row) :
  length pre = idx ->
  row_upper_clamp idx (Z.of_nat (S (length l))) (pre ++ x :: l)
  = pre ++ clamp_offsets (x :: l).
Proof.
  intros Hp. unfold row_upper_clamp, row_clamp0.
  rewrite Nat.add_0_r.
  rewrite nth_middle_app, insert_middle_app by assumption.
  replace (Z.to_nat (Z.of_nat (S (length l)) - 1)) with (length l) by lia.
  apply upper_loop. lia.
Qed.

Lemma lower_clamp_closed (m : Q) (lo : row) x (b : row) :
  row_lower_clamp (S (length (lo ++ [x])) - 1 - 1)
                  (Z.of_nat (S (length (lo ++ [x]))) - 1)
                  (m :: (lo ++ [x]) ++ b)
  = m :: rev (clamp_offsets (rev (lo ++ [x]))) ++ b.
Proof.
  unfold row_lower_clamp, row_clamp0, range_down.
  rewrite length_app. cbn [length].
  replace (1 + (S (length lo + 1) - 1 - 1))%nat with (S (length lo)) by lia.
  replace (Z.to_nat (Z.of_nat (S (length lo + 1)) - 1) - 1)%nat
    with (length (rev lo)) by (rewrite length_rev; lia).
  replace (m :: (lo ++ [x]) ++ b) with ((m :: lo) ++ x :: b)
    by (simpl; now rewrite <- app_assoc).
  rewrite nth_middle_app, insert_middle_app by reflexivity.
  replace ((m :: lo) ++ Qmax 0 x :: b)
    with ([m] ++ rev (rev lo) ++ Qmax 0 x :: b)
    by now rewrite rev_involutive.
  rewrite (lower_loop 1 (rev lo) [m] (Qmax 0 x) b eq_refl).
  rewrite rev_app_distr. simpl. now rewrite <- app_assoc.
Qed.

Lemma zip_with_replicate_plus (l : row) (m : Q) n :
  n = length l ->
  zip_with Qplus l (replicate n m) = map (fun u => u + m) l.
Proof.
  intros ->. induction l as [|x l IH]; simpl; [reflexivity|now rewrite IH].
Qed.

Lemma clamped_row_split (m : Q) (lo up : row) :
  clamped_row (S (length lo)) (m :: lo ++ up)
  = m :: rev (clamp_offsets (rev lo)) ++ clamp_offsets up.
Proof.
  unfold clamped_row.
  change (drop 1 (m :: lo ++ up)) with (lo ++ up).
  change (drop (S (length lo)) (m :: lo ++ up)) with (drop (length lo) (lo ++ up)).
  replace (S (length lo) - 1)%nat with (length lo) by lia.
  rewrite take_app_length, drop_app_length. reflexivity.
Qed.

Lemma absolute_row_split (m : Q) (lo up : row) :
  absolute_row (S (length lo)) (m :: lo ++ up)
  = m :: map (fun l => - l + m) lo ++ map (fun u => u + m) up.
Proof.
  unfold absolute_row.
  change (drop 1 (m :: lo ++ up)) with (lo ++ up).
  change (drop (S (length lo)) (m :: lo ++ up)) with (drop (length lo) (lo ++ up)).
  replace (S (length lo) - 1)%nat with (length lo) by lia.
  rewrite take_app_length, drop_app_length. reflexivity.
Qed.

Lemma assemble_row (m : Q) (lo1 lo2 up1 : row) nlo nup :
  length lo1 = nlo -> length lo2 = nlo -> length up1 = nup ->
  let o := <[0%nat := m]> (replicate (S (nlo + nup)) 0) in
  let o1 := if (0 <? Z.of_nat nup)%Z
            then row_set_upper (S nlo) (S (nlo + nup)) (Z.of_nat nup)
                   (m :: lo1 ++ up1) o
            else o in
  (if (0 <? Z.of_nat nlo)%Z
   then row_set_lower (S nlo) (Z.of_nat nlo) (m :: lo2 ++ up1) o1
   else o1)
  = m :: map (fun l => - l + m) lo2 ++ map (fun u => u + m) up1.
Proof.
  intros H1 H2 H3. destruct H2, H3. intros o o1.
  assert (Eo1 : o1 = m :: replicate (length lo2) 0
                       ++ map (fun u => u + m) up1).
  { subst o1 o. destruct (0 <? Z.of_nat (length up1))%Z eqn:E.
    - unfold row_set_upper. cbn [replicate insert list_insert take drop nth].
      rewrite replicate_add, take_app_length' by now rewrite length_replicate.
      rewrite (drop_ge (replicate _ 0 ++ replicate _ 0))
        by (rewrite length_app, !length_replicate; lia).
      replace (S (length lo2 + length up1) - S (length lo2))%nat
        with (length up1) by lia.
      rewrite <- H1, drop_app_length, firstn_all, Nat2Z.id.
      rewrite zip_with_replicate_plus by reflexivity.
      now rewrite app_nil_r.
    - apply Z.ltb_ge in E.
      destruct up1; [|simpl in E; lia]. simpl.
      now rewrite Nat.add_0_r, app_nil_r. }
  rewrite Eo1. destruct (0 <? Z.of_nat (length lo2))%Z eqn:E.
  - unfold row_set_lower. cbn [take drop nth].
    replace (S (length lo2) - 1)%nat with (length lo2) by lia.
    rewrite take_0, drop_0, take_app_length, Nat2Z.id.
    rewrite drop_app_length' by now rewrite length_replicate.
    f_equal. f_equal.
    clear. induction lo2 as [|x l IH]; simpl; [reflexivity|].
    now rewrite IH.
  - apply Z.ltb_ge in E.
    destruct lo2; [|simpl in E; lia]. reflexivity.
Qed.

(** *** A row [median :: lower ++ upper] *)

Section RowSplit.

Variables (quantiles : list Q) (m : Q) (lo up : row).
Hypothesis Hmany : (1 < length quantiles)%nat.
Hypothesis Hidx : quantiles_divider_index quantiles = S (length lo).

Let r : row := m :: lo ++ up.
Let d : nat := S (length lo + length up).

Lemma row_after_upper_split predict_mode :
  row_after_upper quantiles predict_mode d r
  = if predict_mode then (m :: lo) ++ clamp_offsets up else r.
Proof using Hidx.
  clear Hmany. unfold row_after_upper. rewrite Hidx. subst r d.
  replace (Z.of_nat (S (length lo + length up)) - Z.of_nat (S (length lo)))%Z
    with (Z.of_nat (length up)) by lia.
  destruct predict_mode; [|now rewrite andb_false_r].
  rewrite andb_true_r. destruct up as [|x up'].
  - simpl. now rewrite app_nil_r.
  - replace (0 <? Z.of_nat (length (x :: up')))%Z with true
      by (symmetry; apply Z.ltb_lt; simpl; lia).
    apply (upper_clamp_closed (S (length lo)) (m :: lo) x up'). reflexivity.
Qed.

Lemma row_after_split predict_mode :
  row_after quantiles predict_mode d r
  = if predict_mode then clamped_row (S (length lo)) r else r.
Proof using Hmany Hidx.
  unfold row_after.
  replace (length quantiles <=? 1)%nat with false
    by (symmetry; apply Nat.leb_gt; exact Hmany).
  rewrite row_after_upper_split. rewrite Hidx.
  destruct predict_mode; [|now rewrite andb_false_r].
  rewrite andb_true_r. subst r. rewrite clamped_row_split.
  destruct lo as [|y lo'] using rev_ind.
  - reflexivity.
  - clear IHlo'.
    replace (0 <? Z.of_nat (S (length (lo' ++ [y]))) - 1)%Z with true
      by (symmetry; apply Z.ltb_lt; rewrite length_app; simpl; lia).
    replace ((m :: lo' ++ [y]) ++ clamp_offsets up)
      with (m :: (lo' ++ [y]) ++ clamp_offsets up) by reflexivity.
    apply lower_clamp_closed.
Qed.

Lemma row_forecast_split predict_mode :
  row_forecast quantiles predict_mode d r
  = absolute_row (S (length lo)) (row_after quantiles predict_mode d r).
Proof using Hmany Hidx.
  unfold row_forecast.
  replace (length quantiles <=? 1)%nat with false
    by (symmetry; apply Nat.leb_gt; exact Hmany).
  rewrite row_after_split, row_after_upper_split, Hidx.
  subst r d. cbn [nth length]. rewrite length_app.
  replace (Z.of_nat (S (length lo + length up)) - Z.of_nat (S (length lo)))%Z
    with (Z.of_nat (length up)) by lia.
  replace (Z.of_nat (S (length lo)) - 1)%Z with (Z.of_nat (length lo)) by lia.
  destruct predict_mode.
  - rewrite clamped_row_split.
    assert (L2 : length (rev (clamp_offsets (rev lo))) = length lo)
      by now rewrite length_rev, length_clamp_offsets, length_rev.
    replace (absolute_row (S (length lo)))
      with (absolute_row (S (length (rev (clamp_offsets (rev lo))))))
      by now rewrite L2.
    rewrite absolute_row_split.
    etransitivity;
      [|exact (assemble_row m lo (rev (clamp_offsets (rev lo)))
                 (clamp_offsets up) (length lo) (length up)
                 eq_refl L2 (length_clamp_offsets up))].
    reflexivity.
  - rewrite absolute_row_split.
    etransitivity;
      [|exact (assemble_row m lo lo up (length lo) (length up)
                 eq_refl eq_refl eq_refl)].
    reflexivity.
Qed.

End RowSplit.

(** *** Order facts *)

Lemma ssorted_lookup {A} (R : A -> A -> Prop) (l : list A) :
  StronglySorted R l ->
  forall k k' a b, (k < k')%nat -> l !! k = Some a -> l !! k' = Some b -> R a b.
Proof.
  induction 1 as [|x l Hl IH Hx]; intros k k' a b Hk Ha Hb.
  - discriminate.
  - destruct k' as [|k']; [lia|]. destruct k as [|k]; simpl in *.
    + inversion Ha; subst. rewrite Forall_forall in Hx. apply Hx.
      eapply list_elem_of_lookup_2. exact Hb.
    + eapply IH; [|exact Ha|exact Hb]. lia.
Qed.

Lemma ssorted_le_lookup (l : row) :
  StronglySorted Qle l ->
  forall k k' a b, (k <= k')%nat -> l !! k = Some a -> l !! k' = Some b -> a <= b.
Proof.
  intros Hl k k' a b Hk Ha Hb.
  destruct (Nat.eq_dec k k') as [->|Hne].
  - rewrite Ha in Hb. inversion Hb. apply Qle_refl.
  - eapply (ssorted_lookup Qle l Hl k k'); eauto. lia.
Qed.

Lemma ssorted_rev {A} (R : A -> A -> Prop) (l : list A) :
  StronglySorted R l -> StronglySorted (fun a b => R b a) (rev l).
Proof.
  induction 1 as [|x l Hl IH Hx]; simpl; [constructor|].
  apply StronglySorted_app_2; [|assumption|repeat constructor].
  intros a b Ha Hb. apply list_elem_of_singleton in Hb. subst b.
  rewrite Forall_forall in Hx. apply Hx.
  apply list_elem_of_In. apply list_elem_of_In in Ha. now apply in_rev.
Qed.

Lemma ssorted_map {A B} (R : A -> A -> Prop) (S : B -> B -> Prop) (f : A -> B)
      (l : list A) :
  (forall a b, R a b -> S (f a) (f b)) ->
  StronglySorted R l -> StronglySorted S (map f l).
Proof.
  intros Hf. induction 1 as [|x l Hl IH Hx]; simpl; constructor; auto.
  rewrite Forall_forall in Hx. rewrite Forall_forall. intros y Hy.
  apply list_elem_of_In, in_map_iff in Hy.
  destruct Hy as (a & <- & Ha). apply Hf, Hx. now apply list_elem_of_In.
Qed.

Lemma running_max_sorted (l : row) : forall acc,
  Forall (Qle acc) (running_max acc l)
  /\ StronglySorted Qle (running_max acc l).
Proof.
  induction l as [|x l IH]; intros acc; simpl.
  - split; constructor.
  - destruct (IH (Qmax x acc)) as [Hge Hs]. split.
    + constructor; [apply Q.le_max_r|].
      eapply Forall_impl; [exact Hge|].
      intros y Hy. simpl in Hy. eapply Qle_trans; [apply Q.le_max_r|exact Hy].
    + constructor; assumption.
Qed.

(** Clamped offsets are non-negative and do not decrease. *)
Lemma clamp_offsets_sorted (l : row) :
  Forall (Qle 0) (clamp_offsets l) /\ StronglySorted Qle (clamp_offsets l).
Proof.
  destruct l as [|x l]; simpl; [split; constructor|].
  destruct (running_max_sorted l (Qmax 0 x)) as [Hge Hs]. split.
  - constructor; [apply Q.le_max_l|].
    eapply Forall_impl; [exact Hge|].
    intros y Hy. simpl in Hy. eapply Qle_trans; [apply Q.le_max_l|exact Hy].
  - constructor; assumption.
Qed.

(** *** The divider index of a quantile list *)

Lemma above_median_true q : above_median q = true <-> 1 # 2 < q.
Proof.
  unfold above_median. rewrite negb_true_iff, <- not_true_iff_false.
  rewrite Qle_bool_iff. split; [apply Qnot_le_lt|apply Qlt_not_le].
Qed.

Lemma above_median_false q : above_median q = false <-> q <= 1 # 2.
Proof.
  unfold above_median. rewrite negb_false_iff. apply Qle_bool_iff.
Qed.

Lemma divider_index_cons q l :
  quantiles_divider_index (q :: l) = if above_median q then 0%nat else S (quantiles_divider_index l).
Proof.
  unfold quantiles_divider_index. simpl. destruct (above_median q); [reflexivity|].
  now destruct (first_above l).
Qed.

Lemma divider_index_split (l : list Q) :
  (quantiles_divider_index l <= length l)%nat
  /\ Forall (fun q => q <= 1 # 2) (take (quantiles_divider_index l) l)
  /\ match drop (quantiles_divider_index l) l with [] => True | q :: _ => 1 # 2 < q end.
Proof.
  induction l as [|q l (Hle & Hlo & Hup)].
  - repeat split; constructor.
  - rewrite divider_index_cons. destruct (above_median q) eqn:E.
    + repeat split; [simpl; lia|constructor|].
      simpl. now apply above_median_true.
    + repeat split; [simpl; lia| |exact Hup].
      simpl. constructor; [now apply above_median_false|exact Hlo].
Qed.

Lemma ascending_sorted (l : list Q) :
  ascending l = true -> StronglySorted Qle l.
Proof.
  induction l as [|a l IH]; [constructor|].
  destruct l as [|b l']; [repeat constructor|].
  cbn [ascending]. rewrite andb_true_iff, Qle_bool_iff. intros [Hab Hl].
  specialize (IH Hl). constructor; [exact IH|].
  apply StronglySorted_inv in IH. destruct IH as [_ Hb].
  constructor; [exact Hab|].
  eapply Forall_impl; [exact Hb|]. intros y Hy. simpl in Hy.
  eapply Qle_trans; eassumption.
Qed.

(** A configured list is [q0 :: below ++ above]: the median, then the
    quantiles up to 0.5 in ascending order, then those beyond 0.5 in
    ascending order, and the divider index is where [above] starts. *)
Lemma configured_split (quantiles : list Q) :
  configured quantiles = true ->
  exists q0 qlo qup,
    quantiles = q0 :: qlo ++ qup
    /\ quantiles_divider_index quantiles = S (length qlo)
    /\ q0 == 1 # 2
    /\ Forall (fun q => q <= 1 # 2) qlo
    /\ Forall (fun q => 1 # 2 < q) qup
    /\ StronglySorted Qle qlo
    /\ StronglySorted Qle qup.
Proof.
  destruct quantiles as [|q0 rest]; [discriminate|].
  cbn [configured]. rewrite andb_true_iff. intros [Hq0 Hasc].
  apply Qeq_bool_iff in Hq0. apply ascending_sorted in Hasc.
  destruct (divider_index_split rest) as (Hle & Hlo & Hup).
  exists q0, (take (quantiles_divider_index rest) rest), (drop (quantiles_divider_index rest) rest).
  rewrite take_drop.
  rewrite <- (take_drop (quantiles_divider_index rest) rest) in Hasc.
  apply StronglySorted_app in Hasc. destruct Hasc as (_ & Hs1 & Hs2).
  repeat split; try assumption.
  - rewrite divider_index_cons.
    replace (above_median q0) with false.
    + now rewrite length_take, Nat.min_l.
    + symmetry. apply above_median_false. rewrite Hq0. apply Qle_refl.
  - destruct (drop (quantiles_divider_index rest) rest) as [|x l]; [constructor|].
    constructor; [exact Hup|].
    apply StronglySorted_inv in Hs2. destruct Hs2 as [_ Hx].
    eapply Forall_impl; [exact Hx|]. intros y Hy. simpl in Hy.
    eapply Qlt_le_trans; eassumption.
Qed.

(** With the median first, the divider index is at least 1 and within the
    list. *)
Lemma median_first_divider (quantiles : list Q) :
  median_first quantiles = true -> quantiles <> [] ->
  (1 <= quantiles_divider_index quantiles <= length quantiles)%nat.
Proof.
  destruct quantiles as [|q0 rest]; [congruence|]. intros Hm _.
  rewrite divider_index_cons. cbn [median_first] in Hm.
  apply negb_true_iff in Hm. rewrite Hm.
  destruct (divider_index_split rest) as (Hle & _). simpl. lia.
Qed.

Lemma lookup_three {A} (x : A) (a b : list A) i v :
  (x :: a ++ b) !! i = Some v ->
  (i = 0%nat /\ v = x)
  \/ (exists k, i = S k /\ (k < length a)%nat /\ a !! k = Some v)
  \/ (exists k, i = S (length a + k) /\ b !! k = Some v).
Proof.
  destruct i as [|k]; simpl.
  - intros [= <-]. now left.
  - intros H. right. destruct (Nat.lt_ge_cases k (length a)) as [Hk|Hk].
    + left. exists k. rewrite lookup_app_l in H by assumption. auto.
    + right. exists (k - length a)%nat.
      rewrite lookup_app_r in H by assumption. split; [f_equal; lia|exact H].
Qed.

(** *** Rows of any length within the divider *)

Lemma row_decompose (r : row) idx :
  (1 <= idx <= length r)%nat ->
  exists m lo up, r = m :: lo ++ up /\ idx = S (length lo).
Proof.
  intros [H1 H2]. destruct r as [|m t]; [simpl in H2; lia|].
  exists m, (take (idx - 1) t), (drop (idx - 1) t). split.
  - now rewrite take_drop.
  - rewrite length_take. simpl in H2. lia.
Qed.

Lemma row_closed_form quantiles predict_mode (r : row) :
  (1 < length quantiles)%nat ->
  (1 <= quantiles_divider_index quantiles <= length r)%nat ->
  row_after quantiles predict_mode (length r) r
    = (if predict_mode
       then clamped_row (quantiles_divider_index quantiles) r else r)
  /\ row_forecast quantiles predict_mode (length r) r
    = absolute_row (quantiles_divider_index quantiles)
        (row_after quantiles predict_mode (length r) r).
Proof.
  intros Hmany Hidx.
  destruct (row_decompose r _ Hidx) as (m & lo & up & -> & E).
  replace (length (m :: lo ++ up)) with (S (length lo + length up))
    by (simpl; now rewrite length_app).
  rewrite E. split.
  - apply row_after_split; assumption.
  - apply row_forecast_split; assumption.
Qed.

(** *** Clamped forecasts follow the order of the quantiles *)

Lemma clamped_forecast_ordered quantiles (r : row) :
  configured quantiles = true ->
  length r = length quantiles ->
  quantile_ordered quantiles
    (absolute_row (quantiles_divider_index quantiles)
       (clamped_row (quantiles_divider_index quantiles) r)).
Proof.
  intros Hc Hlen.
  destruct (configured_split _ Hc)
    as (q0 & qlo & qup & -> & Eidx & Hq0 & Hqlo & Hqup & Sqlo & Squp).
  rewrite Eidx.
  assert (Hidx : (1 <= S (length qlo) <= length r)%nat).
  { rewrite Hlen. simpl. rewrite length_app. lia. }
  destruct (row_decompose r _ Hidx) as (m & lo & up & -> & E).
  injection E as E. rewrite E, clamped_row_split.
  destruct (clamp_offsets_sorted (rev lo)) as [Lge Ls].
  destruct (clamp_offsets_sorted up) as [Uge Us].
  set (Lc := rev (clamp_offsets (rev lo))).
  assert (LLc : length Lc = length lo)
    by (unfold Lc; now rewrite length_rev, length_clamp_offsets, length_rev).
  rewrite <- LLc, absolute_row_split.
  set (fl := map (fun l => - l + m) Lc).
  set (fu := map (fun u => u + m) (clamp_offsets up)).
  assert (Sfl : StronglySorted Qle fl).
  { apply (ssorted_map (fun a b => b <= a) Qle); [intros; Lqa.lra|].
    apply ssorted_rev. exact Ls. }
  assert (Ffl : Forall (fun v => v <= m) fl).
  { apply Forall_forall. intros v Hv.
    apply list_elem_of_In, in_map_iff in Hv. destruct Hv as (l & <- & Hl).
    apply in_rev in Hl. rewrite Forall_forall in Lge.
    specialize (Lge l (proj2 (list_elem_of_In _ _) Hl)). Lqa.lra. }
  assert (Sfu : StronglySorted Qle fu).
  { apply (ssorted_map Qle Qle); [intros; Lqa.lra|exact Us]. }
  assert (Ffu : Forall (fun v => m <= v) fu).
  { apply Forall_forall. intros v Hv.
    apply list_elem_of_In, in_map_iff in Hv. destruct Hv as (u & <- & Hu).
    rewrite Forall_forall in Uge.
    specialize (Uge u (proj2 (list_elem_of_In _ _) Hu)). Lqa.lra. }
  assert (Lfl : length fl = length qlo)
    by (unfold fl; rewrite length_map; lia).
  rewrite Forall_forall in Hqlo, Hqup, Ffl, Ffu.
  intros i j qi qj vi vj Hqi Hqj Hvi Hvj Hlt.
  apply lookup_three in Hqi, Hqj, Hvi, Hvj.
  destruct Hqi as [[-> ->]|[(a & -> & Ha & Hqi)|(a & -> & Hqi)]];
  destruct Hvi as [[? ->]|[(a' & ? & Ha' & Hvi)|(a' & ? & Hvi)]];
    try lia;
  destruct Hqj as [[-> ->]|[(b & -> & Hb & Hqj)|(b & -> & Hqj)]];
  destruct Hvj as [[? ->]|[(b' & ? & Hb' & Hvj)|(b' & ? & Hvj)]];
    try lia;
  repeat match goal with
         | H : S _ = S _ |- _ => injection H as H
         end;
  try (assert (a' = a) by lia; subst a');
  try (assert (b' = b) by lia; subst b');
  try (apply list_elem_of_lookup_2 in Hqi as Iqi);
  try (apply list_elem_of_lookup_2 in Hqj as Iqj);
  try (apply list_elem_of_lookup_2 in Hvi as Ivi);
  try (apply list_elem_of_lookup_2 in Hvj as Ivj).
  all: repeat match goal with
              | H : _ ∈ _ |- _ =>
                  first [apply Hqlo in H | apply Hqup in H
                        | apply Ffl in H | apply Ffu in H]
              end.
  all: try Lqa.lra.
  - destruct (Nat.le_gt_cases a b) as [Hab|Hab].
    + exact (ssorted_le_lookup fl Sfl a b vi vj Hab Hvi Hvj).
    + pose proof (ssorted_le_lookup qlo Sqlo b a qj qi ltac:(lia) Hqj Hqi).
      Lqa.lra.
  - destruct (Nat.le_gt_cases a b) as [Hab|Hab].
    + exact (ssorted_le_lookup fu Sfu a b vi vj Hab Hvi Hvj).
    + pose proof (ssorted_le_lookup qup Squp b a qj qi ltac:(lia) Hqj Hqi).
      Lqa.lra.
Qed.

(** *** Tensors of a given shape *)

Lemma shape3_rows B H C (t : tensor) :
  shape3 B H C t ->
  Forall (Forall (fun r : row => length r = C /\ last_dim t = C)) t.
Proof.
  intros [_ Hs]. destruct t as [|m t]; [constructor|].
  assert (Hm := Forall_inv Hs). destruct Hm as [Hlen Hm].
  destruct m as [|r m].
  - (* no time step: every batch entry is empty *)
    simpl in Hlen. subst H. apply Forall_forall. intros m' Hm'.
    rewrite Forall_forall in Hs. destruct (Hs m' Hm') as [E _].
    destruct m'; [constructor|discriminate].
  - assert (Hd : last_dim ((r :: m) :: t) = C) by (simpl; exact (Forall_inv Hm)).
    rewrite Hd. eapply Forall_impl; [exact Hs|].
    intros m' [_ Hm']. eapply Forall_impl; [exact Hm'|]. simpl. auto.
Qed.

Lemma shape3_last_dim B H C (t : tensor) :
  shape3 B H C t -> (0 < B)%nat -> (0 < H)%nat -> last_dim t = C.
Proof.
  intros [HB Hs] HB0 HH0. destruct t as [|m t]; [simpl in HB; lia|].
  destruct (Forall_inv Hs) as [Hlen Hm].
  destruct m as [|r m]; [simpl in Hlen; lia|]. exact (Forall_inv Hm).
Qed.

(** *** The results of a call *)

Lemma forecasts_rows quantiles predict_mode diffs :
  forecasts quantiles predict_mode diffs
  = pw (row_forecast quantiles predict_mode (last_dim diffs)) diffs.
Proof. unfold forecasts. now rewrite call_rows. Qed.

Lemma diffs_after_rows quantiles predict_mode diffs :
  diffs_after quantiles predict_mode diffs
  = pw (row_after quantiles predict_mode (last_dim diffs)) diffs.
Proof. unfold diffs_after. now rewrite call_rows. Qed.

Lemma written_log quantiles predict_mode diffs :
  written quantiles predict_mode diffs
  = write_log quantiles predict_mode (last_dim diffs).
Proof. unfold written. now rewrite call_rows. Qed.

(** *** Closed forms of a call, shapes and fixed points *)

Lemma shape3_row B H C (t : tensor) b h (m : list row) (r : row) :
  shape3 B H C t -> t !! b = Some m -> m !! h = Some r -> length r = C.
Proof.
  intros [_ Hs] Hm Hr. rewrite Forall_forall in Hs.
  destruct (Hs m (list_elem_of_lookup_2 _ _ _ Hm)) as [_ Hrows].
  rewrite Forall_forall in Hrows.
  exact (Hrows r (list_elem_of_lookup_2 _ _ _ Hr)).
Qed.

Lemma shape3_pw B H C (f : row -> row) (t : tensor) :
  (forall r, length r = C -> length (f r) = C) ->
  shape3 B H C t -> shape3 B H C (pw f t).
Proof.
  intros Hf [HB Hs]. unfold pw. split; [now rewrite length_map|].
  apply Forall_map. eapply Forall_impl; [exact Hs|].
  intros m [HH Hrows]. simpl. split; [now rewrite length_map|].
  apply Forall_map. eapply Forall_impl; [exact Hrows|].
  intros r Hr. simpl. now apply Hf.
Qed.

Lemma length_clamped_row idx (r : row) :
  (1 <= idx <= length r)%nat -> length (clamped_row idx r) = length r.
Proof.
  intros Hidx. destruct (row_decompose r idx Hidx) as (m & lo & up & -> & ->).
  rewrite clamped_row_split. simpl.
  now rewrite !length_app, length_rev, !length_clamp_offsets, length_rev.
Qed.

Lemma length_absolute_row idx (r : row) :
  (1 <= idx <= length r)%nat -> length (absolute_row idx r) = length r.
Proof.
  intros Hidx. destruct (row_decompose r idx Hidx) as (m & lo & up & -> & ->).
  rewrite absolute_row_split. simpl.
  now rewrite !length_app, !length_map.
Qed.

(** A call on a tensor with one channel per quantile, row by row. *)
Lemma call_closed_form quantiles predict_mode diffs B H :
  (1 < length quantiles)%nat ->
  median_first quantiles = true ->
  shape3 B H (length quantiles) diffs ->
  let idx := quantiles_divider_index quantiles in
  forecasts quantiles predict_mode diffs
  = pw (fun r => absolute_row idx
                   (if predict_mode then clamped_row idx r else r)) diffs
  /\ diffs_after quantiles predict_mode diffs
     = pw (fun r => if predict_mode then clamped_row idx r else r) diffs.
Proof.
  intros Hmany Hm Hs idx.
  assert (Hidx : (1 <= idx <= length quantiles)%nat).
  { apply median_first_divider; [exact Hm|].
    destruct quantiles; [simpl in Hmany; lia|discriminate]. }
  rewrite forecasts_rows, diffs_after_rows.
  split; apply pw_ext_in;
    (eapply Forall_impl; [exact (shape3_rows _ _ _ _ Hs)|]);
    intros m Hrows; (eapply Forall_impl; [exact Hrows|]);
    intros r [Hr Hd]; simpl; rewrite Hd, <- Hr; rewrite <- Hr in Hidx;
    destruct (row_closed_form quantiles predict_mode r Hmany Hidx)
      as [Ea Ef].
  - now rewrite Ef, Ea.
  - exact Ea.
Qed.

Lemma Qmax_fixed_r (x acc : Q) : acc <= x -> Qmax x acc = x.
Proof.
  intros Hle. unfold Qmax, GenericMinMax.gmax.
  destruct (x ?= acc) eqn:E; try reflexivity.
  apply Qlt_alt in E. exfalso. exact (Qlt_not_le _ _ E Hle).
Qed.

Lemma running_max_fixed (l : row) : forall acc,
  Forall (Qle acc) l -> StronglySorted Qle l -> running_max acc l = l.
Proof.
  induction l as [|x l IH]; intros acc Hge Hs; simpl; [reflexivity|].
  apply Forall_cons_1 in Hge as [Hx Hge].
  apply StronglySorted_inv in Hs as [Hs Hxl].
  rewrite (Qmax_fixed_r x acc Hx). f_equal. now apply IH.
Qed.

(** Clamping clamped offsets changes nothing. *)
Lemma clamp_offsets_idempotent (l : row) :
  clamp_offsets (clamp_offsets l) = clamp_offsets l.
Proof.
  destruct l as [|x l]; [reflexivity|]. cbn [clamp_offsets].
  assert (Hhead : Qmax 0 (Qmax 0 x) = Qmax 0 x).
  { unfold Qmax, GenericMinMax.gmax.
    destruct (0 ?= x) eqn:E; [reflexivity|now rewrite E|reflexivity]. }
  rewrite Hhead. f_equal.
  destruct (running_max_sorted l (Qmax 0 x)) as [Hge Hs].
  now apply running_max_fixed.
Qed.

Lemma clamped_row_idempotent idx (r : row) :
  (1 <= idx <= length r)%nat ->
  clamped_row idx (clamped_row idx r) = clamped_row idx r.
Proof.
  intros Hidx. destruct (row_decompose r idx Hidx) as (m & lo & up & -> & ->).
  rewrite clamped_row_split.
  assert (Hlen : length (rev (clamp_offsets (rev lo))) = length lo)
    by now rewrite length_rev, length_clamp_offsets, length_rev.
  rewrite <- Hlen at 1. rewrite clamped_row_split.
  now rewrite rev_involutive, !clamp_offsets_idempotent.
Qed.

(** The channel [j] of the forecasts of a row, from the median [m] and the
    offset [d] of that channel. *)
Lemma absolute_row_lookup idx (r : row) j m d :
  (1 <= idx <= length r)%nat ->
  r !! 0%nat = Some m -> r !! j = Some d ->
  absolute_row idx r !! j
  = Some (if (j =? 0)%nat then m
          else if (j <? idx)%nat then - d + m else d + m).
Proof.
  intros Hidx Hm Hd.
  destruct (row_decompose r idx Hidx) as (m' & lo & up & -> & ->).
  injection Hm as ->. rewrite absolute_row_split.
  destruct j as [|k]; [reflexivity|]. cbn [Nat.eqb].
  change ((m :: lo ++ up) !! S k) with ((lo ++ up) !! k) in Hd.
  change ((m :: map (fun l => - l + m) lo ++ map (fun u => u + m) up) !! S k)
    with ((map (fun l => - l + m) lo ++ map (fun u => u + m) up) !! k).
  destruct (Nat.lt_ge_cases k (length lo)) as [Hk|Hk].
  - replace (S k <? S (length lo))%nat with true
      by (symmetry; apply Nat.ltb_lt; lia).
    rewrite lookup_app_l in Hd by exact Hk.
    rewrite lookup_app_l by (now rewrite length_map).
    now rewrite list_lookup_fmap, Hd.
  - replace (S k <? S (length lo))%nat with false
      by (symmetry; apply Nat.ltb_ge; lia).
    rewrite lookup_app_r in Hd by exact Hk.
    rewrite lookup_app_r by (now rewrite length_map).
    now rewrite length_map, list_lookup_fmap, Hd.
Qed.

(** In predict mode the forecasts do not decrease along the quantiles. *)
Lemma forecasts_ordered quantiles diffs B H :
  configured quantiles = true ->
  (1 < length quantiles)%nat ->
  shape3 B H (length quantiles) diffs ->
  Forall (Forall (quantile_ordered quantiles))
    (forecasts quantiles true diffs).
Proof.
  intros Hc Hmany Hs.
  assert (Hm : median_first quantiles = true).
  { destruct quantiles as [|q0 rest]; [discriminate|]. cbn in Hc |- *.
    apply andb_true_iff in Hc as [Hq _]. apply Qeq_bool_iff in Hq.
    apply negb_true_iff, above_median_false. rewrite Hq. apply Qle_refl. }
  destruct (call_closed_form quantiles true diffs B H Hmany Hm Hs)
    as [-> _].
  apply Forall_pw.
  eapply Forall_impl; [exact (shape3_rows _ _ _ _ Hs)|].
  intros m Hrows. eapply Forall_impl; [exact Hrows|].
  intros r [Hr _]. simpl. now apply clamped_forecast_ordered.
Qed.

(** ** The forward pass, entry by entry *)

Import Forward.

Lemma entry_pw2 (f : Q -> Q -> Q) (x y : tensor) b h q a c :
  entry x b h q = Some a -> entry y b h q = Some c ->
  entry (pw2 (zip_with f) x y) b h q = Some (f a c).
Proof.
  unfold entry, pw2. intros Hx Hy.
  rewrite lookup_zip_with.
  destruct (x !! b) as [mx|]; [|discriminate].
  destruct (y !! b) as [my|]; [|discriminate]. simpl in *.
  rewrite lookup_zip_with.
  destruct (mx !! h) as [rx|]; [|discriminate].
  destruct (my !! h) as [ry|]; [|discriminate]. simpl in *.
  rewrite lookup_zip_with, Hx, Hy. reflexivity.
Qed.

Lemma entry_tslice lo hi (t : tensor) b h q :
  (lo + h < hi)%nat ->
  entry (tslice lo hi t) b h q = entry t b (lo + h) q.
Proof.
  intros Hh. unfold entry, tslice.
  rewrite list_lookup_fmap. destruct (t !! b) as [m|]; [|reflexivity].
  simpl. rewrite lookup_take. case_decide; [|lia]. now rewrite lookup_drop.
Qed.

(** The last assignments of [forward], read off its result. *)
Lemma forward_prediction self input_tensor mode meta v :
  forward self input_tensor mode meta = Some v ->
  let T := shape1 (v_time_input v) in
  v_prediction v
  = tadd (tadd (tadd (tslice (n_lags self) T (v_trend v))
                     (tslice (n_lags self) T
                        (v_additive_components_nonstationary v)))
               (tmul (detach (tslice (n_lags self) T (v_trend v)))
                     (tslice (n_lags self) T
                        (v_multiplicative_components_nonstationary v))))
         (v_additive_components v).
Proof.
  intros Hv. unfold forward in Hv.
  destruct (components_stacker self mode); [|discriminate]. simpl in Hv.
  repeat match type of Hv with
         | context [let '(_, _) := ?x in _] => destruct x
         end.
  inversion Hv. reflexivity.
Qed.

(** The embedding of [forward] has a value for every mode that has a
    stacker; whether the source returns there depends on more. *)
Lemma forward_returns self input_tensor mode meta st :
  components_stacker self mode = Some st ->
  is_Some (forward self input_tensor mode meta).
Proof.
  intros Hst. unfold forward. rewrite Hst. simpl.
  repeat match goal with
         | |- context [let '(_, _) := ?x in _] => destruct x
         end.
  eexists; reflexivity.
Qed.

Lemma entry_pw {A B} (f : list A -> list B) (t : list (list (list A))) b h j :
  entry (pw f t) b h j = (m ← t !! b; r ← m !! h; f r !! j).
Proof.
  unfold entry, pw. rewrite list_lookup_fmap.
  destruct (t !! b) as [m|]; [|reflexivity]. simpl.
  rewrite list_lookup_fmap. now destruct (m !! h).
Qed.

(** ** The evaluation and predict steps: their runs *)

Section StepsFacts.

Import Forward Py Training Steps.
Local Open Scope R_scope.

Context `{Loss.Regularizers}.
Context (metrics_val : matrix -> matrix -> list (string * R)).

Ltac run_steps :=
  unfold mbind, training_bind, mret, training_ret, get_self, update_self,
    act, lift; cbn [the_self actions fst snd].

(** A run of an evaluation step leaves the model as it is and calls the
    logger only, three times when the metrics are enabled and the run
    returns, and not at all otherwise. *)
Lemma evaluation_step_runs mode suffix batch batch_idx w :
  let run := evaluation_step metrics_val mode suffix batch batch_idx w in
  the_self (snd run) = the_self w
  /\ exists logging,
       actions (snd run) = actions w ++ logging
       /\ Forall (fun a => is_optimization a = false) logging
       /\ (metrics_enabled (the_self w) = false \/ raises (fst run) ->
           logging = [])
       /\ (metrics_enabled (the_self w) = true -> ~ raises (fst run) ->
           exists values loss reg_loss,
             logging = [log_dict values; log ("Loss" ++ suffix) loss;
                        log ("RegLoss" ++ suffix) reg_loss]).
Proof.
  destruct batch as [inputs_tensor meta]. unfold evaluation_step. run_steps.
  assert (Hraise : forall e,
    the_self w = the_self w
    /\ exists logging,
         actions w = actions w ++ logging
         /\ Forall (fun a => is_optimization a = false) logging
         /\ (metrics_enabled (the_self w) = false
             \/ raises (@Raise unit e) -> logging = [])
         /\ (metrics_enabled (the_self w) = true ->
             ~ raises (@Raise unit e) ->
             exists values loss reg_loss,
               logging = [log_dict values; log ("Loss" ++ suffix) loss;
                          log ("RegLoss" ++ suffix) reg_loss])).
  { intros e. split; [reflexivity|]. exists []. rewrite app_nil_r.
    split; [reflexivity|]. split; [constructor|]. split; [reflexivity|].
    intros _ Hn. exfalso. apply Hn. exact I. }
  destruct (deref (components_stacker _ _)) as [stacker|e];
    [|cbn [fst snd]; apply Hraise].
  destruct (meta_used_in_model _);
    [destruct (lookup_all _ meta) as [names|e]|];
    cbn [the_self actions fst snd];
    try apply Hraise.
  all: destruct (of_option _ (forward _ _ _ _)) as [v|e];
    [|cbn [fst snd]; apply Hraise].
  all: destruct (Loss.loss_func _ _ _ _) as [out|e];
    [|cbn [fst snd]; apply Hraise].
  all: destruct (metrics_enabled (the_self w)) eqn:Hme;
    cbn [the_self actions fst snd]; (split; [reflexivity|]).
  all: first
    [ exists []; rewrite app_nil_r;
      split; [reflexivity|]; split; [constructor|];
      split; [reflexivity|]; intros Hd; discriminate
    | eexists; rewrite <- !app_assoc; cbn [app];
      split; [reflexivity|]; split; [repeat constructor|];
      split; [intros [Hd|Hr]; [discriminate|destruct Hr]|];
      intros _ _; eexists; eexists; eexists; reflexivity ].
Qed.

(** A run of the predict step leaves the model and the calls as they are,
    and what it returns is what [forward] returns in predict mode. *)
Lemma predict_step_runs batch batch_idx w :
  snd (predict_step batch batch_idx w) = w
  /\ forall prediction,
       fst (predict_step batch batch_idx w) = Ok prediction ->
       exists meta v,
         forward (net (the_self w)) (fst batch) "predict" meta = Some v
         /\ prediction = v_prediction_with_quantiles v.
Proof.
  destruct batch as [inputs_tensor meta]. unfold predict_step. run_steps.
  destruct (meta_used_in_model _);
    [destruct (lookup_all _ meta) as [names|e]|];
    cbn [the_self actions fst snd].
  2: { split; [reflexivity|discriminate]. }
  all: match goal with
       | |- context [forward ?n ?i ?m ?x] =>
           destruct (forward n i m x) as [v|] eqn:Hv
       end; cbn [of_option fst snd].
  all: split; [reflexivity|]; try discriminate.
  all: intros prediction [= <-]; eexists; exists v;
    split; [exact Hv|reflexivity].
Qed.

End StepsFacts.

(** ** The index of the series names *)

Section IdDictFacts.

Import Forward Py Training.

Lemma id_dict_none ids : forall k name,
  id_dict ids k name = None <-> ~ In name ids.
Proof.
  induction ids as [|x ids IH]; intros k name; cbn.
  - split; [intros _ []|reflexivity].
  - destruct (id_dict ids (S k) name) as [j|] eqn:Hrec.
    + split; [discriminate|]. intros Hn. exfalso. apply Hn. right.
      destruct (in_dec String.string_dec name ids) as [Hin|Hout]; [exact Hin|].
      apply (IH (S k)) in Hout. congruence.
    + apply IH in Hrec. destruct (String.eqb x name) eqn:Hx.
      * apply String.eqb_eq in Hx. split; [discriminate|].
        intros Hn. exfalso. apply Hn. now left.
      * apply String.eqb_neq in Hx. split; [|reflexivity].
        intros _ [Hin|Hin]; contradiction.
Qed.

Lemma id_dict_some ids : forall k name j,
  id_dict ids k name = Some j ->
  (k <= j)%nat
  /\ ids !! (j - k)%nat = Some name
  /\ forall j', (j - k < j')%nat -> ids !! j' <> Some name.
Proof.
  induction ids as [|x ids IH]; intros k name j; cbn; [discriminate|].
  destruct (id_dict ids (S k) name) as [j0|] eqn:Hrec.
  - intros [= <-]. destruct (IH _ _ _ Hrec) as (Hle & Hat & Hlast).
    split; [lia|]. replace (j0 - k)%nat with (S (j0 - S k)) by lia.
    split; [exact Hat|]. intros j' Hj'. destruct j' as [|j'']; [lia|].
    cbn. apply Hlast. lia.
  - destruct (String.eqb x name) eqn:Hx; [|discriminate].
    apply String.eqb_eq in Hx. intros [= <-]. split; [lia|].
    rewrite Nat.sub_diag. split; [now rewrite Hx|].
    intros j' Hj'. destruct j' as [|j'']; [lia|]. cbn.
    apply id_dict_none in Hrec. intros Hat. apply Hrec.
    apply list_elem_of_In. exact (list_elem_of_lookup_2 _ _ _ Hat).
Qed.

Lemma lookup_all_ok (d : string -> option nat) names : forall ks,
  lookup_all d names = Ok ks ->
  Forall2 (fun name k => d name = Some k) names ks.
Proof.
  induction names as [|name names IH]; intros ks; cbn.
  - intros [= <-]. constructor.
  - destruct (d name) as [k|] eqn:Hk; [|discriminate].
    destruct (lookup_all d names) as [ks'|]; [|discriminate].
    intros [= <-]. constructor; [exact Hk|now apply IH].
Qed.

Lemma lookup_all_raise (d : string -> option nat) names :
  (exists e, lookup_all d names = Raise e)
  <-> exists name, In name names /\ d name = None.
Proof.
  induction names as [|name names IH]; cbn.
  - split; [intros [e He]; discriminate|intros (name & [] & _)].
  - destruct (d name) as [k|] eqn:Hk.
    + destruct (lookup_all d names) as [ks|e] eqn:Hrest; cbn.
      * split; [intros [e He]; discriminate|].
        intros (n & [<-|Hin] & Hn); [congruence|].
        destruct (proj2 IH) as [e He]; [now exists n|discriminate].
      * split; [|intros _; now exists e].
        intros _. destruct (proj1 IH) as (n & Hin & Hn); [now exists e|].
        exists n. split; [now right|exact Hn].
    + split; [|intros _; now eexists].
      intros _. exists name. split; [now left|exact Hk].
Qed.

End IdDictFacts.

(** ** Segmenting the last dimension *)

Section ViewFacts.

Import Forward.

Lemma view_row_take {A} (c : nat) (r : list A) : forall h,
  (h * c <= length r)%nat ->
  concat (map (fun i => take c (drop (i * c) r)) (seq 0 h)) = take (h * c) r.
Proof.
  induction h as [|h IH]; intros Hlen; [reflexivity|].
  rewrite seq_S, map_app, concat_app, IH by lia. cbn [map concat plus].
  rewrite app_nil_r.
  replace (S h * c)%nat with (h * c + c)%nat by lia.
  now rewrite take_take_drop.
Qed.

Lemma view_row_lookup {A} (c : nat) (r : list A) h k q :
  (k < h)%nat -> (q < c)%nat ->
  (m ← map (fun i => take c (drop (i * c) r)) (seq 0 h) !! k; m !! q)
  = r !! (k * c + q)%nat.
Proof.
  intros Hk Hq. rewrite list_lookup_fmap.
  rewrite lookup_seq_lt by exact Hk. cbn.
  rewrite lookup_take_lt by exact Hq. now rewrite lookup_drop.
Qed.

Lemma view3_shape (h c : nat) (x : matrix) B :
  length x = B -> Forall (fun r => length r = (h * c)%nat) x ->
  shape3 B h c (view3 h c x).
Proof.
  intros HB Hx. unfold view3. split; [now rewrite length_map|].
  apply Forall_map. eapply Forall_impl; [exact Hx|].
  intros r Hr. cbn. split; [now rewrite length_map, length_seq|].
  apply Forall_map. apply Forall_forall. intros i Hi. cbn.
  apply elem_of_seq in Hi. rewrite length_take, length_drop.
  cbn beta in Hr. rewrite Hr. apply Nat.min_l.
  replace (h * c - i * c)%nat with ((h - i) * c)%nat by nia. nia.
Qed.

Lemma view3_flat (h c : nat) (x : matrix) :
  Forall (fun r => length r = (h * c)%nat) x ->
  map (fun m : list row => concat m) (view3 h c x) = x.
Proof.
  intros Hx. unfold view3. rewrite map_map.
  induction Hx as [|r x Hr _ IH]; [reflexivity|]. cbn [map].
  rewrite IH, view_row_take by lia. now rewrite <- Hr, firstn_all.
Qed.

Lemma view3_entry (h c : nat) (x : matrix) b k q :
  (k < h)%nat -> (q < c)%nat ->
  entry (view3 h c x) b k q = (r ← x !! b; r !! (k * c + q)%nat).
Proof.
  intros Hk Hq. unfold entry, view3. rewrite list_lookup_fmap.
  destruct (x !! b) as [r|]; [|reflexivity]. cbn.
  now apply view_row_lookup.
Qed.

End ViewFacts.

(** ** Regularization: what is added, and when *)

Section RegularizationFacts.

Import Forward Py Loss.
Local Open Scope R_scope.

Context `{Regularizers}.

Lemma truthy_spec (x : option R) :
  truthy x = true <-> exists v, x = Some v /\ v <> 0.
Proof.
  unfold truthy. destruct x as [v|].
  - destruct (Req_dec_T v 0) as [Hv|Hv]; split.
    + discriminate.
    + intros (w & [= <-] & Hw). contradiction.
    + intros _. now exists v.
    + reflexivity.
  - split; [discriminate|]. intros (v & Hv & _). discriminate.
Qed.

Lemma gt0_spec (x : R) : gt0 x = true <-> 0 < x.
Proof. unfold gt0. destruct (Rlt_dec 0 x); split; auto; discriminate. Qed.

Lemma gt0_false (x : R) : x <= 0 -> gt0 x = false.
Proof. unfold gt0. intros Hx. destruct (Rlt_dec 0 x); [Lra.lra|reflexivity]. Qed.

Lemma extends_refl g reg : extends g reg reg.
Proof.
  exists [], 0. rewrite app_nil_r. split; [reflexivity|].
  split; [Lra.lra|constructor].
Qed.

Lemma extends_add g t x reg :
  delay_gated t = g -> extends g reg (add t x reg).
Proof.
  intros Ht. exists [t], x. simpl. repeat split. now repeat constructor.
Qed.

Lemma extends_trans g a b c : extends g a b -> extends g b c -> extends g a c.
Proof.
  intros (ts & x & Ha & Hx & Hts) (us & y & Hb & Hy & Hus).
  exists (ts ++ us), (x + y). rewrite Hb, Ha, Hy, Hx, app_assoc.
  split; [reflexivity|]. split; [Lra.lra|]. now apply Forall_app.
Qed.

Lemma extends_seasons l_season params reg :
  extends true reg
    (fold_left
       (fun reg '(name, params) =>
          let reg_season := reg_func_season params in
          add (seasonality_sparsity name) (l_season * reg_season) reg)
       params reg).
Proof.
  revert reg. induction params as [|[name p] params IH]; intros reg; simpl.
  - apply extends_refl.
  - eapply extends_trans; [|apply IH]. now apply extends_add.
Qed.

Lemma delayed_extends self reg reg' :
  delayed_regularizations self reg = Ok reg' -> extends true reg reg'.
Proof.
  unfold delayed_regularizations. intros Hd.
  repeat match type of Hd with
         | context [mbind _ ?m] =>
             let E := fresh "E" in destruct m eqn:E; simpl in Hd;
             [|discriminate]
         end.
  injection Hd as <-.
  assert (Har : extends true reg a).
  { destruct (0 <? _)%Z; [|injection E as <-; apply extends_refl].
    destruct (deref (config_ar self)) as [ar|]; simpl in E; [|discriminate].
    destruct (ar_reg_lambda ar); injection E as <-;
      [now apply extends_add|apply extends_refl]. }
  eapply extends_trans; [exact Har|]. clear Har E.
  repeat match goal with
         | |- extends true _ (if ?c then _ else _) =>
             destruct c;
             [eapply extends_trans; [|now apply extends_add]|]
         end;
  repeat match goal with
         | |- extends true _ (match ?c with _ => _ end) => destruct c
         | |- extends true _ (fold_left _ _ _) =>
             eapply extends_trans; [|apply extends_seasons]
         | |- extends true _ (add _ _ _) =>
             eapply extends_trans; [|now apply extends_add]
         | |- extends true ?x ?x => apply extends_refl
         end.
Qed.

(** The accumulator before the first statement. *)
Lemma regularizations_closed self loss progress reg0 :
  (if gt0 (get_reg_delay_weight (config_train self) progress)
   then delayed_regularizations self {| reg_loss := 0; added := [] |}
   else Ok {| reg_loss := 0; added := [] |}) = Ok reg0 ->
  exists out,
    _add_batch_regularizations self loss progress = Ok out
    /\ out_reg_loss out
       = reg_loss reg0 + trend_glocal_term self + seasonality_glocal_term self
    /\ out_loss out = loss + out_reg_loss out
    /\ out_added out
       = added reg0
         ++ (if trend_local_on self then [trend_glocal] else [])
         ++ (if seasonality_local_on self then [seasonality_glocal] else []).
Proof.
  intros Hg. unfold _add_batch_regularizations. rewrite Hg. simpl.
  eexists. split; [reflexivity|]. simpl.
  unfold trend_glocal_term, seasonality_glocal_term, trend_local_on,
    seasonality_local_on.
  destruct (config_trend self) as [ct|];
    [destruct (_ && truthy (trend_local_reg ct))|];
    (destruct (config_seasonality self) as [cs|];
     [destruct (_ && truthy (seasonality_local_reg cs))|]);
    simpl; rewrite <- ?app_assoc, ?app_nil_r;
    (split; [Lra.lra|split; reflexivity]).
Qed.

Lemma regularizations_returns self loss progress out :
  _add_batch_regularizations self loss progress = Ok out ->
  exists reg0,
    (if gt0 (get_reg_delay_weight (config_train self) progress)
     then delayed_regularizations self {| reg_loss := 0; added := [] |}
     else Ok {| reg_loss := 0; added := [] |}) = Ok reg0.
Proof.
  unfold _add_batch_regularizations. intros Ho.
  match type of Ho with
  | context [mbind _ ?m] => destruct m as [reg0|]; [|discriminate]
  end.
  now exists reg0.
Qed.

(** When the routine returns in the embedding: always with a delay weight
    that is not positive, and otherwise when the configurations that the
    gated block dereferences are there. *)
Lemma regularizations_total self loss progress :
  get_reg_delay_weight (config_train self) progress <= 0
  \/ (config_trend self <> None
      /\ ((max_lags (config_model self) <= 0)%Z \/ config_ar self <> None)) ->
  exists out, _add_batch_regularizations self loss progress = Ok out.
Proof.
  intros Hret.
  assert (Hg : exists reg0,
    (if gt0 (get_reg_delay_weight (config_train self) progress)
     then delayed_regularizations self {| reg_loss := 0; added := [] |}
     else Ok {| reg_loss := 0; added := [] |}) = Ok reg0).
  { destruct (gt0 _) eqn:Hgt; [|eexists; reflexivity].
    apply gt0_spec in Hgt.
    destruct Hret as [Hle|[Hct Har]]; [Lra.lra|].
    unfold delayed_regularizations.
    destruct (config_trend self) as [ct|]; [|contradiction].
    destruct (0 <? max_lags (config_model self))%Z eqn:Hlags.
    - apply Z.ltb_lt in Hlags. destruct Har as [Hle|Har]; [lia|].
      destruct (config_ar self) as [ar|]; [|contradiction]. simpl.
      destruct (ar_reg_lambda ar); simpl; eexists; reflexivity.
    - simpl. eexists; reflexivity. }
  destruct Hg as [reg0 Hg].
  destruct (regularizations_closed self loss progress reg0 Hg)
    as (out & Hout & _).
  now exists out.
Qed.

Lemma loss_func_returns self time predicted targets :
  config_trend self <> None ->
  (max_lags (config_model self) <= 0)%Z \/ config_ar self <> None ->
  exists out, loss_func self time predicted targets = Ok out.
Proof.
  intros Hct Har. unfold loss_func.
  destruct (reg_enabled self && negb (finding_lr self)).
  - apply regularizations_total. right. now split.
  - eexists; reflexivity.
Qed.

End RegularizationFacts.

(** ** Regularization: the statements under the delay gate *)

Section GatedFacts.

Import Forward Py Loss.
Local Open Scope R_scope.

Context `{Regularizers}.

(** The statements that the gated block executes, in order. *)
Lemma delayed_added self reg reg' :
  delayed_regularizations self reg = Ok reg' ->
  exists ct,
    config_trend self = Some ct
    /\ ((0 <? max_lags (config_model self))%Z = true ->
        config_ar self <> None)
    /\ added reg'
       = added reg
         ++ (if (0 <? max_lags (config_model self))%Z then
               match config_ar self with
               | Some ar =>
                   match ar_reg_lambda ar with
                   | Some _ => [ar_sparsity]
                   | None => []
                   end
               | None => []
               end
             else [])
         ++ match trend_reg ct with
            | Some l_trend =>
                if (0 <? n_changepoints ct)%Z && gt0 l_trend
                then [trend_smoothness] else []
            | None => []
            end
         ++ match config_seasonality self with
            | Some cs =>
                match season_reg_lambda cs with
                | Some l_season =>
                    if season_dims_set self && gt0 l_season
                    then map (fun item => seasonality_sparsity (fst item))
                           (season_params self)
                    else []
                | None => []
                end
            | None => []
            end
         ++ (if config_events_set self || config_holidays_set self
             then [event_sparsity] else [])
         ++ (if regressors_set self then [regressor_sparsity] else []).
Proof.
  unfold delayed_regularizations. intros Hd.
  assert (Hseasons : forall l_season params reg0,
    added (fold_left
             (fun reg '(name, params) =>
                let reg_season := reg_func_season params in
                add (seasonality_sparsity name) (l_season * reg_season) reg)
             params reg0)
    = added reg0 ++ map (fun item => seasonality_sparsity (fst item)) params).
  { intros l_season params. induction params as [|[name p] params IH];
      intros reg0; cbn [fold_left map fst].
    - now rewrite app_nil_r.
    - rewrite IH. cbn [add added]. now rewrite <- app_assoc. }
  destruct (0 <? max_lags (config_model self))%Z.
  - destruct (config_ar self) as [ar|]; cbn in Hd; [|discriminate].
    destruct (config_trend self) as [ct|]; [|now destruct (ar_reg_lambda ar)].
    exists ct. split; [reflexivity|]. split; [discriminate|].
    destruct (ar_reg_lambda ar); cbn in Hd; injection Hd as <-;
      destruct (trend_reg ct) as [l_trend|];
      try destruct (_ && gt0 l_trend);
      destruct (config_seasonality self) as [cs|];
      try destruct (season_reg_lambda cs) as [l_season|];
      try destruct (_ && gt0 l_season);
      destruct (_ || _); destruct (regressors_set self);
      cbn [add added]; rewrite ?Hseasons; cbn [add added];
      rewrite <- ?app_assoc; cbn [app]; rewrite ?app_nil_r;
      reflexivity.
  - cbn in Hd.
    destruct (config_trend self) as [ct|]; [|discriminate].
    exists ct. split; [reflexivity|]. split; [discriminate|].
    cbn in Hd. injection Hd as <-.
    destruct (trend_reg ct) as [l_trend|];
      try destruct (_ && gt0 l_trend);
      destruct (config_seasonality self) as [cs|];
      try destruct (season_reg_lambda cs) as [l_season|];
      try destruct (_ && gt0 l_season);
      destruct (_ || _); destruct (regressors_set self);
      cbn [add added]; rewrite ?Hseasons; cbn [add added];
      rewrite <- ?app_assoc; cbn [app]; rewrite ?app_nil_r;
      reflexivity.
Qed.

(** In the embedding the gated block raises exactly for want of a
    configuration that it dereferences. *)
Lemma delayed_raises self reg :
  raises (delayed_regularizations self reg)
  <-> ((0 < max_lags (config_model self))%Z /\ config_ar self = None)
      \/ config_trend self = None.
Proof.
  unfold delayed_regularizations.
  destruct (0 <? max_lags (config_model self))%Z eqn:Hlags.
  - apply Z.ltb_lt in Hlags.
    destruct (config_ar self) as [ar|]; cbn.
    + destruct (config_trend self) as [ct|];
        destruct (ar_reg_lambda ar); cbn; split; auto;
        try (intros [[_ Hn]|Hn]; discriminate); intros [].
    + split; auto.
  - apply Z.ltb_ge in Hlags. cbn.
    destruct (config_trend self) as [ct|]; cbn; split; auto.
    + intros [].
    + intros [[Hl _]|Hn]; [lia|discriminate].
Qed.

(** All the statements that a returning run has executed, in order. *)
Lemma regularizations_added self loss progress out :
  _add_batch_regularizations self loss progress = Ok out ->
  out_added out
  = (if gt0 (get_reg_delay_weight (config_train self) progress) then
       (if (0 <? max_lags (config_model self))%Z then
          match config_ar self with
          | Some ar =>
              match ar_reg_lambda ar with
              | Some _ => [ar_sparsity]
              | None => []
              end
          | None => []
          end
        else [])
       ++ match config_trend self with
          | Some ct =>
              match trend_reg ct with
              | Some l_trend =>
                  if (0 <? n_changepoints ct)%Z && gt0 l_trend
                  then [trend_smoothness] else []
              | None => []
              end
          | None => []
          end
       ++ match config_seasonality self with
          | Some cs =>
              match season_reg_lambda cs with
              | Some l_season =>
                  if season_dims_set self && gt0 l_season
                  then map (fun item => seasonality_sparsity (fst item))
                         (season_params self)
                  else []
              | None => []
              end
          | None => []
          end
       ++ (if config_events_set self || config_holidays_set self
           then [event_sparsity] else [])
       ++ (if regressors_set self then [regressor_sparsity] else [])
     else [])
    ++ (if trend_local_on self then [trend_glocal] else [])
    ++ (if seasonality_local_on self then [seasonality_glocal] else []).
Proof.
  intros Hout.
  destruct (regularizations_returns self loss progress out Hout)
    as [reg0 Hg].
  destruct (regularizations_closed self loss progress reg0 Hg)
    as (out' & Hout' & _ & _ & Hadded).
  rewrite Hout in Hout'. injection Hout' as <-. rewrite Hadded.
  f_equal. destruct (gt0 _).
  - destruct (delayed_added self _ _ Hg) as (ct & Hct & _ & ->).
    rewrite Hct. reflexivity.
  - now injection Hg as <-.
Qed.

End GatedFacts.

(** ** The training step: its runs *)

Section TrainingFacts.

Import Forward Py Training.
Local Open Scope R_scope.

Context `{Loss.Regularizers}.

Lemma lookup_all_known (d : string -> option nat) (names : list string) :
  Forall (fun name => is_Some (d name)) names ->
  exists ks, lookup_all d names = Ok ks.
Proof.
  induction 1 as [|name names [k Hk] _ [ks IH]]; cbn.
  - now exists [].
  - rewrite Hk, IH. now exists (k :: ks).
Qed.

(** Unfolding the plumbing of a run. *)
Ltac run_step :=
  unfold mbind, training_bind, mret, training_ret, get_self, update_self,
    act, lift; cbn [the_self actions fst snd].

(** A run of the embedding, in which the calls on the collaborators
    return, either raises before the optimization, with no call made, or
    makes the four calls of the optimization in a row, followed by calls
    of the logger only, and returns the loss it passed to the backward
    pass. *)
Lemma training_step_runs batch batch_idx w :
  (exists e w',
     training_step batch batch_idx w = (Raise e, w')
     /\ actions w' = actions w)
  \/ (exists loss epoch logging w',
        training_step batch batch_idx w = (Ok loss, w')
        /\ actions w'
           = actions w
             ++ [zero_grad; manual_backward loss; optimizer_step;
                 scheduler_step epoch]
             ++ logging
        /\ Forall (fun a => is_optimization a = false) logging).
Proof.
  destruct batch as [inputs_tensor meta]. unfold training_step. run_step.
  destruct (pydiv _ (train_steps_per_epoch _)) as [step_fraction|e];
    [|left; now eauto].
  destruct (pydiv _ (epochs _)) as [progress|e]; [|left; now eauto].
  cbn [the_self actions fst snd].
  destruct (deref (components_stacker _ _)) as [stacker|e];
    [|left; now eauto].
  assert (Hraise : forall e w',
            actions w' = actions w ->
            exists e0 w'0,
              (@Raise R e, w') = (Raise e0, w'0) /\ actions w'0 = actions w)
    by (intros e w' Hw; now exists e, w').
  destruct (meta_used_in_model _);
    [destruct (lookup_all _ meta) as [names|e]|];
    cbn [the_self actions fst snd];
    try (left; now apply Hraise);
    (destruct (of_option _ (forward _ _ _ _)) as [v|e];
     [|left; now apply Hraise]);
    (destruct (Loss.loss_func _ _ _ _) as [out|e];
     [|left; now apply Hraise]);
    cbn [lossnet with_train_epoch_prediction with_train_progress
         metrics_enabled the_self actions fst snd Loss.finding_lr];
    destruct (Loss.finding_lr (lossnet (the_self w)));
    destruct (metrics_enabled (the_self w));
    cbn [andb negb the_self actions fst snd];
    right; eexists; eexists; eexists; eexists;
    (split; [reflexivity|]); cbn [actions];
    rewrite <- ?app_assoc; cbn [app];
    (split; [reflexivity|]); repeat constructor.
Qed.

(** A run of the embedding returns when the step and epoch counts are
    positive, the train stacker is set, the series of the batch are known
    and the loss returns. *)
Lemma training_step_returns batch batch_idx w :
  train_steps_per_epoch (the_self w) <> 0%nat ->
  epochs (the_self w) <> 0%nat ->
  components_stacker (net (the_self w)) "train" <> None ->
  (meta_used_in_model (net (the_self w)) = true ->
   Forall (fun name => is_Some (id_dict (id_list (net (the_self w))) 0 name))
     (snd batch)) ->
  (forall p time predicted targets,
     exists out,
       Loss.loss_func (lossnet (with_train_progress p (the_self w)))
         time predicted targets = Ok out) ->
  exists loss w', training_step batch batch_idx w = (Ok loss, w').
Proof.
  intros Hsteps Hepochs Hstacker Hnames Hloss.
  destruct (training_step_runs batch batch_idx w)
    as [(e & w' & Hrun & _)|(loss & _ & _ & w' & Hrun & _)];
    [exfalso|now exists loss, w'].
  revert Hrun. destruct batch as [inputs_tensor meta].
  unfold training_step. run_step.
  destruct (train_steps_per_epoch (the_self w)); [contradiction|].
  destruct (epochs (the_self w)); [contradiction|].
  cbn [pydiv the_self actions fst snd].
  destruct (components_stacker (net (the_self w)) "train") as [stacker|]
    eqn:Hst; [|contradiction].
  cbn [deref].
  destruct (meta_used_in_model (net (the_self w)));
    [destruct (lookup_all_known _ _ (Hnames eq_refl)) as [ks Hks];
     cbn [snd] in Hks; rewrite Hks|];
    cbn [the_self actions fst snd];
    match goal with
    | |- context [forward ?n ?i ?m ?x] =>
        destruct (forward_returns n i m x stacker Hst) as [v Hv]; rewrite Hv
    end;
    cbn [of_option lossnet with_train_epoch_prediction];
    match goal with
    | |- context [Loss.loss_func (lossnet (with_train_progress ?p _))
                    ?t ?pr ?tg] =>
        destruct (Hloss p t pr tg) as [out Hout]; rewrite Hout
    end;
    destruct (Loss.finding_lr _); destruct (metrics_enabled _);
    cbn [andb negb the_self actions fst snd]; discriminate.
Qed.

End TrainingFacts.

(** ** The recency weight *)

Section WeightFacts.

Import Forward Py Loss.
Local Open Scope R_scope.

Lemma clamp_below x : x <= 0 -> clamp x 0 1 = 0.
Proof.
  intros Hx. unfold clamp. rewrite Rmax_right by exact Hx.
  apply Rmin_left. Lra.lra.
Qed.

Lemma clamp_above x : 1 <= x -> clamp x 0 1 = 1.
Proof.
  intros Hx. unfold clamp. rewrite Rmax_left by Lra.lra.
  now apply Rmin_right.
Qed.

Lemma clamp_inside x : 0 <= x <= 1 -> clamp x 0 1 = x.
Proof.
  intros Hx. unfold clamp. rewrite Rmax_left by Lra.lra.
  apply Rmin_left. Lra.lra.
Qed.

Lemma clamp_range x : 0 <= clamp x 0 1 <= 1.
Proof.
  unfold clamp. split.
  - apply Rmin_glb; [apply Rmax_r|Lra.lra].
  - apply Rmin_r.
Qed.

Lemma clamp_mono x y : x <= y -> clamp x 0 1 <= clamp y 0 1.
Proof.
  intros Hxy. unfold clamp.
  apply Rle_min_compat_r. now apply Rle_max_compat_r.
Qed.

(** The position of [t] in the ramp, before clamping. *)
Lemma ramp_position_sign start_t t :
  start_t < 1 ->
  (t <= start_t -> (t - start_t) / (1 - start_t) <= 0)
  /\ (start_t <= t -> 0 <= (t - start_t) / (1 - start_t))
  /\ (t <= 1 -> (t - start_t) / (1 - start_t) <= 1)
  /\ (1 <= t -> 1 <= (t - start_t) / (1 - start_t)).
Proof.
  intros Hs.
  assert (Hd : 0 < / (1 - start_t)) by (apply Rinv_0_lt_compat; Lra.lra).
  assert (Hone : (1 - start_t) * / (1 - start_t) = 1)
    by (apply Rinv_r; Lra.lra).
  unfold Rdiv. repeat split; intros Ht; Lra.nra.
Qed.

Lemma ramp_position_mono start_t t1 t2 :
  start_t < 1 -> t1 <= t2 ->
  (t1 - start_t) / (1 - start_t) <= (t2 - start_t) / (1 - start_t).
Proof.
  intros Hs Ht.
  assert (Hd : 0 < / (1 - start_t)) by (apply Rinv_0_lt_compat; Lra.lra).
  unfold Rdiv. Lra.nra.
Qed.

(** The half cosine over the clamped position: from 0 to 1, never
    decreasing. *)
Lemma half_cosine_range u :
  0 <= (1 / 2) * cos (PI * (u - 1)) + 1 / 2 <= 1.
Proof. pose proof (COS_bound (PI * (u - 1))). Lra.lra. Qed.

Lemma half_cosine_mono u v :
  0 <= u -> u <= v -> v <= 1 ->
  (1 / 2) * cos (PI * (u - 1)) + 1 / 2
  <= (1 / 2) * cos (PI * (v - 1)) + 1 / 2.
Proof.
  intros Hu Huv Hv. pose proof PI_RGT_0 as Hpi.
  assert (Hcos : cos (PI * (1 - u)) <= cos (PI * (1 - v))).
  { apply cos_decr_1; Lra.nra. }
  replace (PI * (u - 1)) with (- (PI * (1 - u))) by Lra.lra.
  replace (PI * (v - 1)) with (- (PI * (1 - v))) by Lra.lra.
  rewrite !cos_neg. Lra.lra.
Qed.

Lemma sample_weight_before end_w start_t t :
  start_t < 1 -> t <= start_t ->
  sample_weight end_w start_t t = 1 / end_w.
Proof.
  intros Hs Ht. unfold sample_weight.
  rewrite clamp_below by now apply ramp_position_sign.
  replace (PI * (0 - 1)) with (- PI) by Lra.lra.
  rewrite cos_neg, cos_PI. unfold Rdiv. f_equal. Lra.lra.
Qed.

Lemma sample_weight_end end_w start_t t :
  start_t < 1 -> end_w <> 0 -> 1 <= t ->
  sample_weight end_w start_t t = 1.
Proof.
  intros Hs Hw Ht. unfold sample_weight.
  rewrite clamp_above by now apply ramp_position_sign.
  replace (PI * (1 - 1)) with 0 by Lra.lra.
  rewrite cos_0. field. exact Hw.
Qed.

Lemma sample_weight_ramp end_w start_t t :
  start_t < 1 -> start_t <= t <= 1 ->
  sample_weight end_w start_t t
  = (1 + ((1 / 2) * cos (PI * ((t - start_t) / (1 - start_t) - 1)) + 1 / 2)
         * (end_w - 1)) / end_w.
Proof.
  intros Hs [Ht1 Ht2]. unfold sample_weight.
  rewrite clamp_inside; [reflexivity|].
  split; now apply ramp_position_sign.
Qed.

Lemma sample_weight_range end_w start_t t :
  1 < end_w -> 1 / end_w <= sample_weight end_w start_t t <= 1.
Proof.
  intros Hw. unfold sample_weight.
  pose proof (half_cosine_range (clamp ((t - start_t) / (1 - start_t)) 0 1))
    as [Hlo Hhi].
  cbv zeta.
  set (c := (1 / 2) * cos _ + 1 / 2) in *.
  assert (Hd : 0 < / end_w) by (apply Rinv_0_lt_compat; Lra.lra).
  assert (Hone : end_w * / end_w = 1) by (apply Rinv_r; Lra.lra).
  assert (Hp : 0 <= c * (end_w - 1) * / end_w).
  { repeat apply Rmult_le_pos; Lra.lra. }
  assert (Hq : 0 <= (1 - c) * (end_w - 1) * / end_w).
  { repeat apply Rmult_le_pos; Lra.lra. }
  unfold Rdiv. split; Lra.nra.
Qed.

Lemma sample_weight_mono end_w start_t t1 t2 :
  1 < end_w -> start_t < 1 -> t1 <= t2 ->
  sample_weight end_w start_t t1 <= sample_weight end_w start_t t2.
Proof.
  intros Hw Hs Ht. unfold sample_weight.
  pose proof (half_cosine_mono
                (clamp ((t1 - start_t) / (1 - start_t)) 0 1)
                (clamp ((t2 - start_t) / (1 - start_t)) 0 1)) as Hmono.
  pose proof (clamp_range ((t1 - start_t) / (1 - start_t))) as [H1 _].
  pose proof (clamp_range ((t2 - start_t) / (1 - start_t))) as [_ H2].
  specialize (Hmono H1
                (clamp_mono _ _ (ramp_position_mono _ _ _ Hs Ht)) H2).
  cbv zeta.
  set (c1 := (1 / 2)
             * cos (PI * (clamp ((t1 - start_t) / (1 - start_t)) 0 1 - 1))
             + 1 / 2) in *.
  set (c2 := (1 / 2)
             * cos (PI * (clamp ((t2 - start_t) / (1 - start_t)) 0 1 - 1))
             + 1 / 2) in *.
  assert (Hd : 0 < / end_w) by (apply Rinv_0_lt_compat; Lra.lra).
  assert (Hp : 0 <= (c2 - c1) * (end_w - 1) * / end_w).
  { repeat apply Rmult_le_pos; Lra.lra. }
  unfold Rdiv. Lra.nra.
Qed.

Lemma weight_tensor (self : LossNet) (t : rmatrix) :
  _get_time_based_sample_weight self t
  = pw (fun x => [sample_weight (newer_samples_weight (config_train self))
                    (newer_samples_start (config_train self)) x]) t.
Proof. unfold _get_time_based_sample_weight, detach. now rewrite pw_pw. Qed.

(** Every channel of the loss at one (batch, time) position is multiplied
    by the weight of the time at that position. *)
Lemma entry_bmul_weight (self : LossNet) (loss : rtensor) (t : rmatrix)
    (b h q : nat) (l x : R) :
  entry loss b h q = Some l ->
  (m ← t !! b; m !! h) = Some x ->
  entry (bmul loss (_get_time_based_sample_weight self t)) b h q
  = Some (l * sample_weight (newer_samples_weight (config_train self))
                (newer_samples_start (config_train self)) x).
Proof.
  rewrite weight_tensor. unfold entry, bmul, pw, pw2. intros Hl Hx.
  rewrite lookup_zip_with, list_lookup_fmap.
  destruct (loss !! b) as [lm|]; [|discriminate].
  destruct (t !! b) as [tm|]; [|discriminate]. simpl in *.
  rewrite lookup_zip_with, list_lookup_fmap, Hx.
  destruct (lm !! h) as [lr|]; [|discriminate]. simpl in *.
  rewrite list_lookup_fmap, Hl. reflexivity.
Qed.

End WeightFacts.

(** ** Weighted losses: sums and means *)

Section WeightedFacts.

Import Forward Py Loss.
Local Open Scope R_scope.

Lemma rsum_scale (l : list R) (w : R) :
  rsum (map (fun x => x * w) l) = rsum l * w.
Proof.
  unfold rsum. induction l as [|x l IH]; cbn; [Lra.lra|].
  rewrite IH. Lra.lra.
Qed.

Lemma rsum_nonneg (l : list R) : Forall (Rle 0) l -> 0 <= rsum l.
Proof.
  unfold rsum. induction 1 as [|x l Hx _ IH]; cbn; Lra.lra.
Qed.

Lemma rsum_app (l1 l2 : list R) : rsum (l1 ++ l2) = rsum l1 + rsum l2.
Proof.
  unfold rsum. induction l1 as [|x l1 IH]; cbn; [Lra.lra|].
  rewrite IH. Lra.lra.
Qed.

(** Sums of products with factors between [lo] and 1. *)
Lemma rsum_weighted_bounds (lo : R) (l ws : list R) :
  Forall (Rle 0) l -> Forall (fun w => lo <= w <= 1) ws ->
  length l = length ws ->
  lo * rsum l <= rsum (zip_with Rmult l ws) <= rsum l.
Proof.
  intros Hl. revert ws. unfold rsum.
  induction Hl as [|x l Hx _ IH]; intros ws Hws Hlen.
  - cbn. Lra.lra.
  - destruct ws as [|w ws]; [discriminate|].
    apply Forall_cons_1 in Hws as [Hw Hws].
    injection Hlen as Hlen. specialize (IH ws Hws Hlen). cbn. Lra.nra.
Qed.

(** The sum over the quantiles of a weighted loss is the weighted sum. *)
Lemma sum_dim2_bmul (self : LossNet) (loss : rtensor) (t : rmatrix) :
  sum_dim2 (bmul loss (_get_time_based_sample_weight self t))
  = pw2 (fun l x =>
           rsum l * sample_weight (newer_samples_weight (config_train self))
                      (newer_samples_start (config_train self)) x)
      loss t.
Proof.
  rewrite weight_tensor. unfold sum_dim2, bmul, pw, pw2.
  revert t. induction loss as [|lm loss IH]; intros [|tm t]; cbn;
    try reflexivity.
  f_equal; [|apply IH]. clear IH.
  revert tm. induction lm as [|l lm IH]; intros [|x tm]; cbn;
    try reflexivity.
  f_equal; [apply rsum_scale|apply IH].
Qed.

Lemma concat_pw2_same_shape {A B C} (f : A -> B -> C)
    (a : list (list A)) (b : list (list B)) :
  Forall2 (fun x y => length x = length y) a b ->
  concat (pw2 f a b) = zip_with f (concat a) (concat b).
Proof.
  unfold pw2. induction 1 as [|x y a b Hxy _ IH]; cbn; [reflexivity|].
  rewrite IH. clear IH. revert y Hxy.
  induction x as [|x0 x IHx]; intros [|y0 y] Hlen; try discriminate;
    cbn; [reflexivity|].
  injection Hlen as Hlen. f_equal. now apply IHx.
Qed.

Lemma length_concat_same_shape {A B}
    (a : list (list A)) (b : list (list B)) :
  Forall2 (fun x y => length x = length y) a b ->
  length (concat a) = length (concat b).
Proof.
  induction 1 as [|x y a b Hxy _ IH]; cbn; [reflexivity|].
  rewrite !length_app. congruence.
Qed.

Lemma zip_with_split_mult {A B} (f : A -> R) (g : B -> R)
    (l : list A) (t : list B) :
  zip_with (fun x y => f x * g y) l t = zip_with Rmult (map f l) (map g t).
Proof.
  revert t. induction l as [|x l IH]; intros [|y t]; cbn; try reflexivity.
  now rewrite IH.
Qed.

End WeightedFacts.

(** ** Construction: when the checks raise *)

Section InitFacts.

Import Forward Py Init.

Lemma known_mode_spec (m : string) :
  known_mode m = true <-> m = "additive"%string \/ m = "multiplicative"%string.
Proof.
  unfold known_mode. now rewrite orb_true_iff, !String.eqb_eq.
Qed.


(** One round of the loop, by the mode of the entry. *)
Lemma events_loop_cons trend_is_none event configs items st log :
  events_loop trend_is_none ((event, configs) :: items) st log
  = if known_mode (mode configs) then
      if String.eqb (mode configs) "additive" then
        events_loop trend_is_none items
          {| dims := dims st ++ [(event, configs)];
             n_additive_event_params :=
               n_additive_event_params st + length (event_indices configs);
             n_multiplicative_event_params :=
               n_multiplicative_event_params st |} log
      else if trend_is_none then
        (Raise "ValueError", log ++ ["Multiplicative events require trend."])
      else
        events_loop trend_is_none items
          {| dims := dims st ++ [(event, configs)];
             n_additive_event_params := n_additive_event_params st;
             n_multiplicative_event_params :=
               n_multiplicative_event_params st
               + length (event_indices configs) |} log
    else
      events_loop trend_is_none items
        {| dims := dims st
                   ++ [(event, {| mode := "additive";
                                  event_indices := event_indices configs |})];
           n_additive_event_params :=
             n_additive_event_params st + length (event_indices configs);
           n_multiplicative_event_params :=
             n_multiplicative_event_params st |}
        (log ++ [("Event Mode " ++ mode configs
                  ++ " not implemented. Defaulting to 'additive'.")%string]).
Proof.
  cbn [events_loop]. unfold mbind, init_bind.
  destruct (known_mode (mode configs)) eqn:Hk; cbn.
  - destruct (String.eqb (mode configs) "additive") eqn:Ha; [reflexivity|].
    apply known_mode_spec in Hk. apply String.eqb_neq in Ha.
    destruct Hk as [Hk|Hk]; [contradiction|]. rewrite Hk. cbn.
    destruct trend_is_none; reflexivity.
  - reflexivity.
Qed.



Lemma events_loop_raises items : forall st log,
  Exists (fun item => mode (snd item) = "multiplicative"%string) items ->
  exists log',
    events_loop true items st log = (Raise "ValueError", log')
    /\ In "Multiplicative events require trend."%string log'.
Proof.
  induction items as [|[event configs] items IH]; intros st log Hex.
  - now apply Exists_nil in Hex.
  - rewrite events_loop_cons.
    destruct (known_mode (mode configs)) eqn:Hk.
    + destruct (String.eqb (mode configs) "additive") eqn:Ha.
      * apply Exists_cons in Hex as [Hm|Hex]; [|now apply IH].
        cbn in Hm. rewrite Hm in Ha. discriminate.
      * eexists. split; [reflexivity|]. apply in_app_iff. right. now left.
    + apply Exists_cons in Hex as [Hm|Hex]; [|now apply IH].
      cbn in Hm. rewrite Hm in Hk. discriminate.
Qed.

Section ConstructorFacts.

Context {Events Holidays : Type}.
Context (dims_of : option Events -> option Holidays ->
                   option (list (string * EventDims))).



(** With the two configurations it dereferences in place, [__init__] is
    its two checking blocks, one after the other. *)
Lemma init_run (args : @Args Events Holidays) ct cr log :
  config_train args = Some ct -> config_regressors args = Some cr ->
  __init__ dims_of args log
  = match seasonality_checks args log with
    | (Ok _, log1) =>
        match events_block dims_of args log1 with
        | (Ok self, log2) => (Ok self, log2)
        | (Raise e, log2) => (Raise e, log2)
        end
    | (Raise e, log1) => (Raise e, log1)
    end.
Proof.
  intros Hct Hcr. unfold __init__. rewrite Hct, Hcr.
  unfold mbind, init_bind, lift, deref.
  destruct (seasonality_checks args log) as [[[]|e] log1]; [|reflexivity].
  destruct (events_block dims_of args log1) as [[self|e] log2]; reflexivity.
Qed.

End ConstructorFacts.

End InitFacts.

(** ** Construction: what the events loop counts *)

Section InitMoreFacts.

Import Forward Py Init InitMore.

Lemma coerced_known item : known_mode (mode (snd (coerced item))) = true.
Proof.
  unfold coerced. destruct (known_mode (mode (snd item))) eqn:Hk;
    [exact Hk|reflexivity].
Qed.

Lemma coerced_frame item :
  fst (coerced item) = fst item
  /\ event_indices (snd (coerced item)) = event_indices (snd item).
Proof. unfold coerced. now destruct (known_mode (mode (snd item))). Qed.

(** A run of the loop that returns has counted the indices by mode. *)
Lemma events_loop_counts trend_is_none items : forall st log st' log',
  events_loop trend_is_none items st log = (Ok st', log') ->
  dims st' = dims st ++ map coerced items
  /\ n_additive_event_params st'
     = (n_additive_event_params st
        + indices_in_mode "additive" (map coerced items))%nat
  /\ n_multiplicative_event_params st'
     = (n_multiplicative_event_params st
        + indices_in_mode "multiplicative" (map coerced items))%nat.
Proof.
  induction items as [|[event configs] items IH]; intros st log st' log'.
  - cbn. intros [= <- <-]. rewrite app_nil_r.
    unfold indices_in_mode. cbn. repeat split; lia.
  - rewrite events_loop_cons.
    assert (Hcons : forall m item rest,
      indices_in_mode m (item :: rest)
      = ((if String.eqb (mode (snd item)) m
          then length (event_indices (snd item)) else 0)
         + indices_in_mode m rest)%nat) by reflexivity.
    cbn [map]. rewrite !Hcons.
    destruct (known_mode (mode configs)) eqn:Hk.
    + assert (Hc : coerced (event, configs) = (event, configs))
        by (unfold coerced; cbn [snd]; now rewrite Hk).
      rewrite Hc. cbn [snd].
      destruct (String.eqb (mode configs) "additive") eqn:Ha.
      * intros Hrun. apply IH in Hrun as (Hd & Hadd & Hmul).
        cbn [dims n_additive_event_params n_multiplicative_event_params]
          in Hd, Hadd, Hmul.
        apply String.eqb_eq in Ha.
        replace (String.eqb (mode configs) "multiplicative") with false
          by (rewrite Ha; reflexivity).
        rewrite Hd, Hadd, Hmul, <- app_assoc.
        split; [reflexivity|]. split; lia.
      * destruct trend_is_none; [discriminate|].
        intros Hrun. apply IH in Hrun as (Hd & Hadd & Hmul).
        cbn [dims n_additive_event_params n_multiplicative_event_params]
          in Hd, Hadd, Hmul.
        apply known_mode_spec in Hk. apply String.eqb_neq in Ha.
        destruct Hk as [Hk|Hk]; [contradiction|].
        replace (String.eqb (mode configs) "multiplicative") with true
          by (rewrite Hk; reflexivity).
        rewrite Hd, Hadd, Hmul, <- app_assoc.
        split; [reflexivity|]. split; lia.
    + assert (Hc : coerced (event, configs)
                   = (event, {| mode := "additive";
                                event_indices := event_indices configs |}))
        by (unfold coerced; cbn [fst snd]; now rewrite Hk).
      rewrite Hc. cbn [snd mode event_indices].
      intros Hrun. apply IH in Hrun as (Hd & Hadd & Hmul).
      cbn [dims n_additive_event_params n_multiplicative_event_params]
        in Hd, Hadd, Hmul.
      rewrite Hd, Hadd, Hmul, <- app_assoc.
      split; [reflexivity|]. split; cbn; lia.
Qed.

(** Every index is counted once, under one of the two modes. *)
Lemma indices_partition items :
  Forall (fun item => known_mode (mode (snd item)) = true) items ->
  (indices_in_mode "additive" items + indices_in_mode "multiplicative" items
   = all_indices items)%nat.
Proof.
  unfold indices_in_mode, all_indices.
  induction 1 as [|item items Hk _ IH]; cbn [map list_sum]; [reflexivity|].
  apply known_mode_spec in Hk.
  destruct Hk as [Hk|Hk]; rewrite Hk; simpl (String.eqb _ _);
    unfold list_sum in *; cbn [fold_right]; lia.
Qed.

Lemma all_indices_coerced items :
  all_indices (map coerced items) = all_indices items.
Proof.
  unfold all_indices. rewrite map_map. f_equal. apply map_ext.
  intros item. now destruct (coerced_frame item) as [_ ->].
Qed.

Section ConstructorMoreFacts.

Context {Events Holidays : Type}.
Context (dims_of : option Events -> option Holidays ->
                   option (list (string * EventDims))).

(** [__init__] block by block, whatever configurations are there. *)
Lemma init_blocks (args : @Args Events Holidays) log :
  __init__ dims_of args log
  = match config_train args with
    | None => (Raise "AttributeError", log)
    | Some _ =>
        match seasonality_checks args log with
        | (Raise e, log1) => (Raise e, log1)
        | (Ok _, log1) =>
            match events_block dims_of args log1 with
            | (Raise e, log2) => (Raise e, log2)
            | (Ok self, log2) =>
                match config_regressors args with
                | Some _ => (Ok self, log2)
                | None => (Raise "AttributeError", log2)
                end
            end
        end
    end.
Proof.
  unfold __init__, mbind, init_bind, lift, deref.
  destruct (config_train args); [|reflexivity].
  destruct (seasonality_checks args log) as [[[]|e] log1]; [|reflexivity].
  destruct (events_block dims_of args log1) as [[self|e] log2];
    [|reflexivity].
  now destruct (config_regressors args).
Qed.

(** What a returning run of the events block has built. *)
Lemma events_block_ok (args : @Args Events Holidays) log self log' :
  events_block dims_of args log = (Ok self, log') ->
  match dims_of (config_events args) (config_holidays args) with
  | Some items =>
      events_dims self = Some (map coerced items)
      /\ event_params self
         = Some (indices_in_mode "additive" (map coerced items),
                 indices_in_mode "multiplicative" (map coerced items))
      /\ self_config_events self = config_events args
      /\ self_config_holidays self = config_holidays args
      /\ (config_trend args = None ->
          Forall (fun item => mode (snd item) <> "multiplicative"%string)
            items)
  | None =>
      events_dims self = None /\ event_params self = None
      /\ self_config_events self = None /\ self_config_holidays self = None
  end.
Proof.
  unfold events_block.
  destruct (dims_of (config_events args) (config_holidays args))
    as [items|].
  - unfold mbind, init_bind.
    destruct (events_loop _ items _ log) as [[st|e] log1] eqn:Hloop;
      [|discriminate].
    intros [= <- <-]. cbn.
    destruct (events_loop_counts _ _ _ _ _ _ Hloop) as (Hd & Hadd & Hmul).
    cbn in Hd, Hadd, Hmul. rewrite Hd, Hadd, Hmul.
    repeat split.
    intros Htr. rewrite Htr in Hloop. cbn in Hloop.
    apply Forall_forall. intros item Hin Hm.
    destruct (events_loop_raises items
                {| dims := []; n_additive_event_params := 0;
                   n_multiplicative_event_params := 0 |} log)
      as (log2 & Hr & _).
    { apply Exists_exists. now exists item. }
    congruence.
  - intros [= <- <-]. cbn. repeat split.
Qed.

End ConstructorMoreFacts.

Lemma no_multiplicative_indices items :
  Forall (fun item => mode (snd item) <> "multiplicative"%string) items ->
  indices_in_mode "multiplicative" (map coerced items) = 0%nat.
Proof.
  unfold indices_in_mode. induction 1 as [|item items Hm _ IH];
    [reflexivity|].
  cbn [map]. unfold list_sum in *. cbn [fold_right]. rewrite IH.
  unfold coerced. destruct (known_mode (mode (snd item))); cbn [snd mode].
  - apply String.eqb_neq in Hm. now rewrite Hm.
  - reflexivity.
Qed.

End InitMoreFacts.

(** ** The layers of the nets: sizes *)

Section NetsFacts.

Import Tensor Nets.
Local Open Scope nat_scope.

Lemma hidden_layers_acc sizes : forall acc d,
  fold_left
    (fun '(net_layers, d_inputs) d_hidden_i =>
       (net_layers ++ [Linear d_inputs d_hidden_i true] ++ [ReLU],
        d_hidden_i))
    sizes (acc, d)
  = (acc ++ fst (hidden_layers d sizes), snd (hidden_layers d sizes)).
Proof.
  unfold hidden_layers.
  induction sizes as [|s sizes IH]; intros acc d; cbn [fold_left].
  - cbn. now rewrite app_nil_r.
  - rewrite IH. rewrite (IH ([] ++ _)). cbn [fst snd app].
    now rewrite <- app_assoc.
Qed.

Lemma hidden_layers_cons d s sizes :
  hidden_layers d (s :: sizes)
  = (Linear d s true :: ReLU :: fst (hidden_layers s sizes),
     snd (hidden_layers s sizes)).
Proof.
  unfold hidden_layers at 1. cbn [fold_left]. now rewrite hidden_layers_acc.
Qed.

Lemma hidden_layers_length sizes : forall d,
  length (fst (hidden_layers d sizes)) = 2 * length sizes.
Proof.
  induction sizes as [|s sizes IH]; intros d; [reflexivity|].
  rewrite hidden_layers_cons. cbn [fst length]. rewrite IH. lia.
Qed.

Lemma hidden_layers_last sizes : forall d,
  snd (hidden_layers d sizes) = default d (last sizes).
Proof.
  induction sizes as [|s sizes IH]; intros d; [reflexivity|].
  rewrite hidden_layers_cons. cbn [snd]. rewrite IH.
  destruct sizes as [|n sizes]; [reflexivity|].
  change (last (s :: n :: sizes)) with (last (n :: sizes)).
  destruct (last (n :: sizes)) eqn:E; [reflexivity|].
  apply last_None in E. discriminate.
Qed.

Lemma hidden_layers_output sizes : forall d rest,
  output_size d (fst (hidden_layers d sizes) ++ rest)
  = output_size (snd (hidden_layers d sizes)) rest.
Proof.
  induction sizes as [|s sizes IH]; intros d rest; [reflexivity|].
  rewrite hidden_layers_cons. cbn [fst snd app output_size].
  rewrite Nat.eqb_refl. apply IH.
Qed.

Lemma hidden_layers_first sizes d d_out :
  ar_weights_shape
    (fst (hidden_layers d sizes)
     ++ [Linear (snd (hidden_layers d sizes)) d_out false])
  = Some (hd d_out sizes, d).
Proof.
  destruct sizes as [|s sizes]; [reflexivity|].
  now rewrite hidden_layers_cons.
Qed.

Lemma hidden_layers_initialized sizes : forall d rest,
  length (initialized (fst (hidden_layers d sizes) ++ rest))
  = length sizes + length (initialized rest).
Proof.
  induction sizes as [|s sizes IH]; intros d rest; [reflexivity|].
  rewrite hidden_layers_cons. cbn [fst app]. unfold initialized in *.
  cbn [List.filter length]. now rewrite IH.
Qed.

Lemma hidden_layers_bias sizes : forall d,
  Forall (fun lay => match lay with
                     | Linear _ _ bias => bias = true
                     | ReLU => True
                     end)
    (fst (hidden_layers d sizes)).
Proof.
  induction sizes as [|s sizes IH]; intros d; [constructor|].
  rewrite hidden_layers_cons. cbn [fst]. repeat constructor. apply IH.
Qed.

End NetsFacts.

Section CatFacts.

Import Tensor Forward.
Local Open Scope nat_scope.

(** Concatenating matrices of the same number of rows along axis 1 adds the
    widths. *)
Lemma cat1_shape (B : nat) (ms : list matrix) (ns : list nat) :
  ms <> [] ->
  Forall2 (fun (m : matrix) n =>
             length m = B /\ Forall (fun r => length r = n) m) ms ns ->
  length (cat1 ms) = B
  /\ Forall (fun r => length r = list_sum ns) (cat1 ms).
Proof.
  intros Hne Hall. induction Hall as [|m n ms ns Hmn Hall IH];
    [contradiction|]. destruct Hmn as [Hm Hr].
  destruct ms as [|m' ms].
  - apply Forall2_nil_inv_l in Hall as ->. cbn. split; [exact Hm|].
    eapply Forall_impl; [exact Hr|]. intros r Hlen. cbn in *. lia.
  - destruct IH as [IHB IHr]; [discriminate|].
    change (cat1 (m :: m' :: ms)) with (zip_with app m (cat1 (m' :: ms))).
    split; [rewrite length_zip_with; lia|].
    apply Forall_forall. intros r Hin.
    apply elem_of_lookup_zip_with in Hin as (i & x & y & -> & Hx & Hy).
    rewrite Forall_forall in Hr, IHr.
    rewrite length_app, (Hr x (list_elem_of_lookup_2 _ _ _ Hx)),
      (IHr y (list_elem_of_lookup_2 _ _ _ Hy)).
    unfold list_sum. reflexivity.
Qed.

End CatFacts.

(** ** Splitting attributions by covariate *)

Section SplitFacts.

Import Tensor Forward Nets.
Local Open Scope nat_scope.

Lemma accumulate_from_length l : forall acc,
  length (accumulate_from acc l) = length l.
Proof. induction l as [|x l IH]; intros acc; cbn; [|rewrite IH]; reflexivity. Qed.

Lemma split_row_length {A} idx : forall start (r : list A),
  length (split_row start idx r) = S (length idx).
Proof.
  induction idx as [|i idx IH]; intros start r; cbn; [|rewrite IH];
    reflexivity.
Qed.

(** The pieces of a row, put together again, are the row. *)
Lemma concat_split_row {A} l : forall start (r : list A),
  concat (split_row start (accumulate_from start l) r) = drop start r.
Proof.
  induction l as [|x l IH]; intros start r; cbn [accumulate_from split_row concat].
  - apply app_nil_r.
  - rewrite IH. replace (start + x - start) with x by lia.
    rewrite <- (take_drop x (drop start r)) at 2.
    rewrite drop_drop. reflexivity.
Qed.

(** The piece of a covariate starts where the lags of the covariates
    before it end, and has as many entries as the covariate has lags. *)
Lemma split_row_lookup {A} l : forall start (r : list A) k n,
  l !! k = Some n ->
  split_row start (accumulate_from start l) r !! k
  = Some (take n (drop (start + list_sum (take k l)) r)).
Proof.
  induction l as [|x l IH]; intros start r k n Hk; [discriminate|].
  destruct k as [|k]; cbn [accumulate_from split_row].
  - injection Hk as ->. cbn. rewrite Nat.add_0_r.
    now replace (start + n - start) with n by lia.
  - cbn in Hk. cbn [lookup list_lookup]. rewrite (IH _ _ _ _ Hk).
    cbn [take]. unfold list_sum. cbn [fold_right]. fold (list_sum (take k l)).
    now rewrite Nat.add_assoc.
Qed.

(** The last piece is the rest of the row. *)
Lemma split_row_last {A} l : forall start (r : list A),
  split_row start (accumulate_from start l) r !! length l
  = Some (drop (start + list_sum l) r).
Proof.
  induction l as [|x l IH]; intros start r; cbn [accumulate_from split_row length].
  - cbn. now rewrite Nat.add_0_r.
  - cbn [lookup list_lookup]. rewrite IH. unfold list_sum.
    cbn [fold_right]. fold (list_sum l). now rewrite Nat.add_assoc.
Qed.

Lemma concat_take_drop_S {A} (l : list (list A)) s n :
  concat (take (S n) (drop s l))
  = nth s l [] ++ concat (take n (drop (S s) l)).
Proof.
  rewrite nth_lookup. destruct (l !! s) as [x|] eqn:E.
  - now rewrite (drop_S _ _ _ E).
  - apply lookup_ge_None in E.
    rewrite !drop_ge by lia. now rewrite !take_nil.
Qed.

(** Concatenating along axis 1 the matrices of the pieces of every row. *)
Lemma cat1_pieces (f : row -> list row) (m : matrix) n : forall s,
  cat1 (map (fun k => map (fun r => nth k (f r) []) m) (seq s (S n)))
  = map (fun r => concat (take (S n) (drop s (f r)))) m.
Proof.
  induction n as [|n IH]; intros s.
  - cbn [seq map cat1]. apply map_ext. intros r.
    rewrite concat_take_drop_S. cbn. now rewrite app_nil_r.
  - change (seq s (S (S n))) with (s :: seq (S s) (S n)).
    cbn [map]. 
    change (cat1 (?x :: map ?g (seq (S s) (S n))))
      with (cat1 (x :: map g (S s :: seq (S (S s)) n))).
    cbn [map cat1].
    change (match map ?g (seq (S (S s)) n) with
            | [] => ?a
            | _ :: _ => ?b
            end) with (cat1 (map g (seq (S s) (S n)))) at 1.
    rewrite IH. rewrite zip_with_fmap_l, zip_with_fmap_r, zip_with_diag.
    apply map_ext. intros r. now rewrite (concat_take_drop_S (f r) s (S n)).
Qed.

(** Splitting and concatenating again gives the matrix back. *)
Lemma cat1_tensor_split (m : matrix) (l : list nat) :
  cat1 (tensor_split m (accumulate l)) = m.
Proof.
  unfold tensor_split, accumulate.
  rewrite (cat1_pieces (fun r => split_row 0 (accumulate_from 0 l) r) m).
  rewrite <- (map_id m) at 2. apply map_ext. intros r.
  rewrite drop_0, take_ge by (rewrite split_row_length; lia).
  now rewrite concat_split_row.
Qed.

Lemma tensor_split_length (m : matrix) idx :
  length (tensor_split m idx) = S (length idx).
Proof. unfold tensor_split. now rewrite length_map, length_seq. Qed.

Lemma tensor_split_lookup (m : matrix) idx k :
  k <= length idx ->
  tensor_split m idx !! k
  = Some (map (fun r => nth k (split_row 0 idx r) []) m).
Proof.
  intros Hk. unfold tensor_split. rewrite list_lookup_fmap.
  rewrite lookup_seq_lt by lia. reflexivity.
Qed.

Lemma but_last_snoc {A} (l : list A) x : but_last (l ++ [x]) = l.
Proof.
  unfold but_last. rewrite length_app. cbn [length].
  replace (length l + 1 - 1) with (length l) by lia.
  now rewrite take_app_length.
Qed.

End SplitFacts.

Section SumFacts.

Import Nets.
Local Open Scope nat_scope.

Lemma list_sum_take_S (ns : list nat) k n :
  ns !! k = Some n ->
  list_sum (take (S k) ns) = list_sum (take k ns) + n.
Proof.
  intros Hk. rewrite (take_S_r _ _ _ Hk), list_sum_app. cbn. lia.
Qed.

Lemma list_sum_take_le (ns : list nat) k :
  list_sum (take k ns) <= list_sum ns.
Proof.
  rewrite <- (take_drop k ns) at 2. rewrite list_sum_app. lia.
Qed.

(** The piece of the covariate at position [k] of a row that has one entry
    per lag of every covariate. *)
Lemma piece_length {A} (ns : list nat) (r : list A) k n :
  ns !! k = Some n ->
  length r = list_sum ns ->
  length (take n (drop (list_sum (take k ns)) r)) = n
  /\ (S k = length ns ->
      drop (list_sum (take k ns)) r
      = take n (drop (list_sum (take k ns)) r)).
Proof.
  intros Hk Hr.
  pose proof (list_sum_take_S _ _ _ Hk) as HS.
  pose proof (list_sum_take_le ns (S k)) as Hle.
  split.
  - rewrite length_take, length_drop. lia.
  - intros Hlast. symmetry. apply take_ge.
    rewrite length_drop. rewrite (take_ge ns (S k)) in HS by lia. lia.
Qed.

End SumFacts.

(** ** The components of the events *)

Section ComponentsFacts.

Import Tensor Forward Py Init Components.
Local Open Scope Q_scope.

Lemma for_each_ok {A B} (f : A -> result B) (g : A -> B) (l : list A) :
  Forall (fun x => f x = Ok (g x)) l ->
  for_each f l = Ok (map g l).
Proof.
  induction 1 as [|x l Hx _ IH]; [reflexivity|].
  cbn [for_each]. rewrite Hx. cbn. rewrite IH. reflexivity.
Qed.

Lemma index_row_ok (indices : list nat) (r : row) :
  Forall (fun i => (i < length r)%nat) indices ->
  index_row indices r = Ok (select indices r).
Proof.
  intros Hin. apply for_each_ok. eapply Forall_impl; [exact Hin|].
  intros i Hi. cbn beta. rewrite nth_lookup.
  destruct (lookup_lt_is_Some_2 r i Hi) as [x ->]. reflexivity.
Qed.

Lemma index_columns_ok (indices : list nat) (m : matrix) (F : nat) :
  Forall (fun r => length r = F) m ->
  Forall (fun i => (i < F)%nat) indices ->
  index_columns indices m = Ok (map (select indices) m).
Proof.
  intros Hm Hin. apply for_each_ok. eapply Forall_impl; [exact Hm|].
  intros r Hr. cbn beta. apply index_row_ok. now rewrite Hr.
Qed.

Lemma index_features_ok (indices : list nat) (t : tensor) (F : nat) :
  Forall (Forall (fun r => length r = F)) t ->
  Forall (fun i => (i < F)%nat) indices ->
  index_features indices t = Ok (pw (select indices) t).
Proof.
  intros Ht Hin. apply for_each_ok. eapply Forall_impl; [exact Ht|].
  intros m Hm. cbn beta. now apply index_columns_ok with F.
Qed.

(** The effects of the features at in-range positions. *)
Lemma scalar_features_effects_ok features params indices (F : nat) :
  Forall (Forall (fun r => length r = F)) features ->
  Forall (fun r => length r = F) params ->
  Forall (fun i => (i < F)%nat) indices ->
  Components.scalar_features_effects features params (Some indices)
  = Ok (Forward.scalar_features_effects (pw (select indices) features)
          (map (select indices) params)).
Proof.
  intros Hf Hp Hin. unfold Components.scalar_features_effects.
  rewrite (index_features_ok _ _ _ Hf Hin). cbn.
  rewrite (index_columns_ok _ _ _ Hp Hin). reflexivity.
Qed.

(** An index out of range makes the selection raise. *)
Lemma index_row_raises (indices : list nat) (r : row) i :
  In i indices -> (length r <= i)%nat ->
  index_row indices r = Raise "IndexError".
Proof.
  intros Hin Hi. unfold index_row.
  induction indices as [|j indices IH]; [contradiction|].
  cbn [for_each]. destruct (r !! j) as [x|] eqn:Hj; [|reflexivity].
  destruct Hin as [->|Hin].
  - apply lookup_lt_Some in Hj. lia.
  - cbn. rewrite (IH Hin). reflexivity.
Qed.

Lemma tslice_pw {A B} (f : A -> B) lo hi (t : grid A) :
  tslice lo hi (pw f t) = pw f (tslice lo hi t).
Proof.
  unfold tslice, pw. rewrite !map_map. apply map_ext. intros m.
  now rewrite <- fmap_drop, <- fmap_take.
Qed.

Lemma entry_effects (features : tensor) (params : matrix) b h q feat prow :
  features !! b ≫= (fun m => m !! h) = Some feat ->
  params !! q = Some prow ->
  entry (Forward.scalar_features_effects features params) b h q
  = Some (dot feat prow).
Proof.
  intros Hf Hp. unfold entry, Forward.scalar_features_effects, pw.
  rewrite list_lookup_fmap. destruct (features !! b) as [m|]; [|discriminate].
  cbn in *. rewrite list_lookup_fmap, Hf. cbn.
  rewrite list_lookup_fmap, Hp. reflexivity.
Qed.

Lemma entry_effects_inv (features : tensor) (params : matrix) b h q v :
  entry (Forward.scalar_features_effects features params) b h q = Some v ->
  exists feat prow,
    features !! b ≫= (fun m => m !! h) = Some feat
    /\ params !! q = Some prow
    /\ v = dot feat prow.
Proof.
  unfold entry, Forward.scalar_features_effects, pw.
  rewrite list_lookup_fmap. destruct (features !! b) as [m|]; [|discriminate].
  cbn. rewrite list_lookup_fmap. destruct (m !! h) as [feat|]; [|discriminate].
  cbn. rewrite list_lookup_fmap. destruct (params !! q) as [prow|];
    [|discriminate].
  cbn. intros [= <-]. now exists feat, prow.
Qed.

(** Sums of rationals. *)
Lemma dot_select indices (x y : row) :
  dot (select indices x) (select indices y)
  = foldr Qplus 0 (map (fun i => nth i x 0 * nth i y 0) indices).
Proof.
  unfold dot, select. induction indices as [|i indices IH]; [reflexivity|].
  cbn. now rewrite IH.
Qed.

Lemma Qsum_app (l1 l2 : list Q) :
  foldr Qplus 0 (l1 ++ l2) == foldr Qplus 0 l1 + foldr Qplus 0 l2.
Proof.
  induction l1 as [|x l1 IH]; cbn; [Lqa.lra|]. rewrite IH. Lqa.lra.
Qed.

Lemma Qsum_concat (h : nat -> Q) (idxs : list (list nat)) :
  foldr Qplus 0 (map (fun idx => foldr Qplus 0 (map h idx)) idxs)
  == foldr Qplus 0 (map h (concat idxs)).
Proof.
  induction idxs as [|idx idxs IH]; cbn; [reflexivity|].
  rewrite map_app, Qsum_app, IH. reflexivity.
Qed.

Lemma Qsum_Permutation (h : nat -> Q) (l l' : list nat) :
  Permutation l l' ->
  foldr Qplus 0 (map h l) == foldr Qplus 0 (map h l').
Proof.
  induction 1 as [|x l l' _ IH|x y l|l l' l'' _ IH1 _ IH2]; cbn.
  - reflexivity.
  - rewrite IH. reflexivity.
  - Lqa.lra.
  - now rewrite IH1.
Qed.

Lemma zip_with_seq (x y : row) : forall s,
  length x = length y ->
  zip_with Qmult x y
  = map (fun i => nth (i - s) x 0 * nth (i - s) y 0) (seq s (length x)).
Proof.
  revert y. induction x as [|a x IH]; intros [|c y] s Hlen;
    try discriminate; [reflexivity|].
  cbn [zip_with length seq map]. rewrite Nat.sub_diag. cbn [nth].
  f_equal. cbn in Hlen. rewrite (IH y (S s)) by lia.
  apply map_ext_in. intros i Hi. apply in_seq in Hi.
  replace (i - s)%nat with (S (i - S s)) by lia. reflexivity.
Qed.

Lemma dot_seq (x y : row) (F : nat) :
  length x = F -> length y = F ->
  dot x y = foldr Qplus 0 (map (fun i => nth i x 0 * nth i y 0) (seq 0 F)).
Proof.
  intros Hx Hy. unfold dot. rewrite (zip_with_seq x y 0) by lia.
  rewrite Hx. f_equal. apply map_ext. intros i. now rewrite Nat.sub_0_r.
Qed.

(** The effects at positions that are together every column once add up to
    the effect of all columns. *)
Lemma dot_partition (idxs : list (list nat)) (x y : row) (F : nat) :
  length x = F -> length y = F ->
  Permutation (concat idxs) (seq 0 F) ->
  foldr Qplus 0 (map (fun idx => dot (select idx x) (select idx y)) idxs)
  == dot x y.
Proof.
  intros Hx Hy Hperm. rewrite (dot_seq x y F Hx Hy).
  rewrite <- (Qsum_Permutation _ _ _ Hperm), <- Qsum_concat.
  erewrite map_ext; [reflexivity|]. intros idx. apply dot_select.
Qed.

Lemma filter_zip_map {A B} (keep : A -> bool) (g : A -> B) (l : list A) :
  List.filter (fun p => keep (fst p)) (zip l (map g l))
  = map (fun a => (a, g a)) (List.filter keep l).
Proof.
  induction l as [|a l IH]; [reflexivity|].
  cbn. destruct (keep a); cbn; now rewrite IH.
Qed.

Lemma tslice_effects lo hi (features : tensor) (params : matrix) :
  tslice lo hi (Forward.scalar_features_effects features params)
  = Forward.scalar_features_effects (tslice lo hi features) params.
Proof. unfold Forward.scalar_features_effects. apply tslice_pw. Qed.

Lemma tslice_widths {A} (P : A -> Prop) lo hi (t : grid A) :
  Forall (Forall P) t -> Forall (Forall P) (tslice lo hi t).
Proof.
  intros Ht. unfold tslice. apply Forall_fmap.
  eapply Forall_impl; [exact Ht|]. intros m Hm. cbn.
  apply Forall_take, Forall_drop, Hm.
Qed.

Lemma lookup_widths {A} (P : A -> Prop) (t : grid A) b h x :
  Forall (Forall P) t ->
  t !! b ≫= (fun m => m !! h) = Some x -> P x.
Proof.
  intros Ht Hx. destruct (t !! b) as [m|] eqn:Hm; [|discriminate].
  cbn in Hx. rewrite Forall_forall in Ht.
  pose proof (Ht m (list_elem_of_lookup_2 _ _ _ Hm)) as HP.
  rewrite Forall_forall in HP.
  exact (HP x (list_elem_of_lookup_2 _ _ _ Hx)).
Qed.

(** The components of the events whose indices are together every column
    once add up, entry by entry, to the effect of all columns. *)
Lemma effects_partition (keep : string * EventDims -> bool)
    (events_dims : list (string * EventDims))
    (features : tensor) (params : matrix) (F : nat) b h q total :
  Forall (Forall (fun r => length r = F)) features ->
  Forall (fun r => length r = F) params ->
  Permutation
    (concat (map (fun item => event_indices (snd item))
               (List.filter keep events_dims)))
    (seq 0 F) ->
  entry (Forward.scalar_features_effects features params) b h q
  = Some total ->
  exists parts,
    Forall2 (fun c v => entry c b h q = Some v)
      (map (fun item =>
              Forward.scalar_features_effects
                (pw (select (event_indices (snd item))) features)
                (map (select (event_indices (snd item))) params))
         (List.filter keep events_dims))
      parts
    /\ foldr Qplus 0 parts == total.
Proof.
  intros Hf Hp Hperm Htotal.
  apply entry_effects_inv in Htotal as (feat & prow & Hfeat & Hprow & ->).
  exists (map (fun item => dot (select (event_indices (snd item)) feat)
                             (select (event_indices (snd item)) prow))
            (List.filter keep events_dims)).
  split.
  - apply Forall2_fmap, Forall_Forall2_diag, Forall_forall. intros item _.
    apply entry_effects.
    + unfold pw. rewrite list_lookup_fmap.
      destruct (features !! b) as [m|]; [|discriminate]. cbn in *.
      rewrite list_lookup_fmap, Hfeat. reflexivity.
    + rewrite list_lookup_fmap, Hprow. reflexivity.
  - assert (Hlenf : length feat = F)
      by exact (lookup_widths (fun r : row => length r = F) _ _ _ _ Hf Hfeat).
    assert (Hlenp : length prow = F).
    { rewrite Forall_forall in Hp.
      exact (Hp prow (list_elem_of_lookup_2 _ _ _ Hprow)). }
    pose proof (dot_partition
                  (map (fun item : string * EventDims =>
                          event_indices (snd item))
                     (List.filter keep events_dims))
                  feat prow F Hlenf Hlenp Hperm) as Hsum.
    rewrite map_map in Hsum. exact Hsum.
Qed.

(** A run of the events part on inputs of the right widths, with all
    indices in range. *)
Lemma compute_components_events_run (self : TimeNet) (ce ch : bool)
    (events_dims : list (string * EventDims)) (time_input : matrix)
    (fa fm ra rm : tensor) (components_raw : string -> option tensor)
    (Fa Fm : nat) :
  ce || ch = true ->
  components_raw "additive_events"%string = Some ra ->
  components_raw "multiplicative_events"%string = Some rm ->
  Forall (Forall (fun r => length r = Fa)) fa ->
  Forall (fun r => length r = Fa) (event_params_additive self) ->
  Forall (Forall (fun r => length r = Fm)) fm ->
  Forall (fun r => length r = Fm) (event_params_multiplicative self) ->
  Forall (fun item =>
            Forall (fun i => (i < if String.eqb (mode (snd item)) "additive"
                                  then Fa else Fm)%nat)
              (event_indices (snd item))) events_dims ->
  let lo := n_lags self in
  let hi := shape1 time_input in
  compute_components_events self ce ch (Some events_dims) time_input
    (Some fa) (Some fm) components_raw
  = Ok ([("events_additive"%string, tslice lo hi ra);
         ("events_multiplicative"%string, tslice lo hi rm)]
        ++ map (fun item =>
                  (("event_" ++ fst item)%string,
                   if String.eqb (mode (snd item)) "additive" then
                     Forward.scalar_features_effects
                       (pw (select (event_indices (snd item)))
                          (tslice lo hi fa))
                       (map (select (event_indices (snd item)))
                          (event_params_additive self))
                   else
                     Forward.scalar_features_effects
                       (pw (select (event_indices (snd item)))
                          (tslice lo hi fm))
                       (map (select (event_indices (snd item)))
                          (event_params_multiplicative self))))
            events_dims).
Proof.
  intros Hset Hra Hrm Hfa Hpa Hfm Hpm Hin lo hi.
  unfold compute_components_events. rewrite Hset.
  unfold item. rewrite Hra, Hrm. cbn [mbind result_bind rbind deref].
  erewrite for_each_ok; [reflexivity|].
  eapply Forall_impl; [exact Hin|]. intros [event configs] Hi.
  cbn [fst snd] in *.
  destruct (String.eqb (mode configs) "additive");
    cbn [subscript mbind result_bind rbind].
  - rewrite (scalar_features_effects_ok _ _ _ Fa); try assumption;
      [reflexivity|]. now apply tslice_widths.
  - rewrite (scalar_features_effects_ok _ _ _ Fm); try assumption;
      [reflexivity|]. now apply tslice_widths.
Qed.

(** Selections raise nothing but [IndexError]. *)
Lemma for_each_raise {A B} (f : A -> result B) (l : list A) exn e :
  (forall x e', f x = Raise e' -> e' = exn) ->
  for_each f l = Raise e -> e = exn.
Proof.
  intros Hf. induction l as [|x l IH]; [discriminate|].
  cbn [for_each]. destruct (f x) as [y|e'] eqn:Hx; cbn.
  - destruct (for_each f l) as [ys|e'']; cbn; [discriminate|].
    intros [= <-]. now apply IH.
  - intros [= <-]. exact (Hf _ _ Hx).
Qed.

Lemma index_row_raise indices r e :
  index_row indices r = Raise e -> e = "IndexError"%string.
Proof.
  apply for_each_raise. intros i e'. destruct (r !! i); [discriminate|].
  now intros [= <-].
Qed.

Lemma index_features_raise indices t e :
  index_features indices t = Raise e -> e = "IndexError"%string.
Proof.
  apply for_each_raise. intros m e'. apply for_each_raise.
  intros r e''. apply index_row_raise.
Qed.

Lemma index_columns_raises indices (m : matrix) (F : nat) :
  m <> [] ->
  Forall (fun r => length r = F) m ->
  Exists (fun i => (F <= i)%nat) indices ->
  index_columns indices m = Raise "IndexError".
Proof.
  intros Hne Hm Hex. destruct m as [|r m]; [contradiction|].
  apply Exists_exists in Hex as (i & Hi & Hle).
  apply list_elem_of_In in Hi.
  unfold index_columns. cbn [for_each].
  rewrite (index_row_raises indices r i Hi); [reflexivity|].
  apply Forall_cons in Hm as [-> _]. exact Hle.
Qed.

(** Selecting every column in order selects the row. *)
Lemma select_all (r : row) : select (seq 0 (length r)) r = r.
Proof.
  unfold select. apply list_eq. intros i. rewrite list_lookup_fmap.
  destruct (r !! i) as [x|] eqn:Hi.
  - rewrite lookup_seq_lt by (now apply lookup_lt_Some in Hi). cbn.
    now rewrite nth_lookup, Hi.
  - apply lookup_ge_None in Hi. now rewrite lookup_seq_ge by lia.
Qed.

End ComponentsFacts.

(** ** The components of the lagged regressors *)

Section AttributionFacts.

Import Tensor Forward Py Components Attribution.
Local Open Scope Q_scope.

Lemma for_each_Forall2 {A B} (f : A -> result B) (l : list A) (l' : list B) :
  Forall2 (fun x y => f x = Ok y) l l' ->
  for_each f l = Ok l'.
Proof.
  induction 1 as [|x y l l' Hx _ IH]; [reflexivity|].
  cbn [for_each]. rewrite Hx. cbn. rewrite IH. reflexivity.
Qed.

(** Looking up a key of a dict gives the value stored with it. *)
Lemma getitem_In {A} (d : list (string * A)) key value :
  NoDup (map fst d) -> In (key, value) d -> getitem d key = Ok value.
Proof.
  induction d as [|[k v] d IH]; intros Hnd Hin; [contradiction|].
  cbn [map fst] in Hnd. apply NoDup_cons in Hnd as [Hk Hnd].
  cbn [getitem]. destruct Hin as [[= -> ->]|Hin].
  - now rewrite String.eqb_refl.
  - destruct (String.eqb_spec k key) as [->|_]; [|now apply IH].
    exfalso. apply Hk. apply list_elem_of_In.
    apply in_map_iff. now exists (key, value).
Qed.

Lemma nth_zip_with_Qplus (x y : row) j :
  (j < length x)%nat -> (j < length y)%nat ->
  nth j (zip_with Qplus x y) 0 = nth j x 0 + nth j y 0.
Proof.
  intros Hx Hy. rewrite !nth_lookup, lookup_zip_with.
  destruct (lookup_lt_is_Some_2 x j Hx) as [a ->].
  destruct (lookup_lt_is_Some_2 y j Hy) as [c ->]. reflexivity.
Qed.

(** The sum of vectors of one length, entry by entry. *)
Lemma reduce_add_entries (l : list row) (N : nat) : forall x,
  length x = N -> Forall (fun s => length s = N) l ->
  length (fold_left (zip_with Qplus) l x) = N
  /\ forall j, (j < N)%nat ->
       nth j (fold_left (zip_with Qplus) l x) 0
       == nth j x 0 + foldr Qplus 0 (map (fun s => nth j s 0) l).
Proof.
  induction l as [|a l IH]; intros x Hx Hl; cbn [fold_left map foldr].
  - split; [exact Hx|]. intros j _. Lqa.lra.
  - apply Forall_cons in Hl as [Ha Hl].
    destruct (IH (zip_with Qplus x a)) as [Hlen Hnth]; [|exact Hl|].
    { rewrite length_zip_with. lia. }
    split; [exact Hlen|]. intros j Hj. rewrite (Hnth j Hj).
    rewrite nth_zip_with_Qplus by lia. Lqa.lra.
Qed.

Lemma entry_multiply (t : tensor) (m : matrix) b h q x s :
  entry t b h q = Some x ->
  (r ← m !! h; r !! q) = Some s ->
  entry (multiply t m) b h q = Some (x * s).
Proof.
  unfold entry, multiply, pw2. intros Hx Hs.
  rewrite list_lookup_fmap. destruct (t !! b) as [tm|]; [|discriminate].
  cbn in *. rewrite lookup_zip_with.
  destruct (tm !! h) as [tr|]; [|discriminate].
  destruct (m !! h) as [mr|]; [|discriminate]. cbn in *.
  rewrite lookup_zip_with, Hx, Hs. reflexivity.
Qed.

Lemma Qsum_shares (x t : Q) (l : list Q) :
  foldr Qplus 0 (map (fun s => x * (s / t)) l)
  == x * (foldr Qplus 0 l / t).
Proof.
  induction l as [|s l IH]; cbn [map foldr].
  - unfold Qdiv. Lqa.lra.
  - rewrite IH. unfold Qdiv. Lqa.lra.
Qed.

Lemma nth_sum_axis1 (m : matrix) j :
  nth j (sum_axis1 m) 0 = foldr Qplus 0 (nth j m []).
Proof.
  unfold sum_axis1. rewrite !nth_lookup, list_lookup_fmap.
  now destruct (m !! j).
Qed.

End AttributionFacts.

(** ** Quantile reconciliation: the properties *)

Lemma fold_inserts_nil (f : row -> nat -> row) (l : list nat) :
  (forall i, f [] i = []) -> fold_left f l [] = [].
Proof. intros Hf. induction l as [|i l IH]; simpl; [|rewrite Hf]; auto. Qed.

Lemma row_after_upper_nil quantiles predict_mode d :
  row_after_upper quantiles predict_mode d [] = [].
Proof.
  unfold row_after_upper. destruct (_ && _); [|reflexivity].
  unfold row_upper_clamp. cbn. now apply fold_inserts_nil.
Qed.

Lemma row_after_nil quantiles predict_mode d :
  row_after quantiles predict_mode d [] = [].
Proof.
  unfold row_after. destruct (_ <=? _)%nat; [reflexivity|].
  rewrite row_after_upper_nil. destruct (_ && _); [|reflexivity].
  unfold row_lower_clamp. cbn. now apply fold_inserts_nil.
Qed.

(** The median channel of a row of forecasts is the median channel of the
    row of [diffs], whatever the lengths involved. *)
Lemma row_forecast_median quantiles predict_mode d (r : row) :
  median_first quantiles = true ->
  nth 0 (row_forecast quantiles predict_mode d r) 0 = nth 0 r 0.
Proof.
  intros Hm. unfold row_forecast.
  destruct (length quantiles <=? 1)%nat eqn:Hlen; [reflexivity|].
  apply Nat.leb_gt in Hlen.
  assert (Hidx : (1 <= quantiles_divider_index quantiles)%nat).
  { apply median_first_divider; [exact Hm|]. destruct quantiles; [simpl in Hlen; lia|discriminate]. }
  destruct (quantiles_divider_index quantiles) as [|k]; [lia|].
  destruct r as [|x t].
  - rewrite row_after_nil, row_after_upper_nil.
    unfold row_set_upper, row_set_lower. cbn.
    repeat match goal with |- context [if ?c then _ else _] => destruct c end;
      rewrite ?take_nil, ?drop_nil; cbn; rewrite ?take_nil, ?drop_nil;
      reflexivity.
  - unfold row_set_upper, row_set_lower. cbn.
    repeat match goal with |- context [if ?c then _ else _] => destruct c end;
      reflexivity.
Qed.

(** C7 (median invariance).  For every quantile list whose first entry is
    the median, every [diffs] and both values of [predict_mode], the median
    channel of the result of [_compute_quantile_forecasts_from_diffs] is the
    median channel of [diffs] as it was passed in. *)
Theorem median_channel_unchanged :
  forall (quantiles : list Q) (predict_mode : bool) (diffs : tensor),
    median_first quantiles = true ->
    chan 0 (forecasts quantiles predict_mode diffs) = chan 0 diffs.
Proof.
  intros quantiles predict_mode diffs Hm.
  rewrite forecasts_rows. unfold chan. rewrite pw_pw.
  apply pw_ext. intros r. now apply row_forecast_median.
Qed.

Lemma median_channel_unchanged_witness :
  median_first [1#2; 1#10; 9#10] = true
  /\ chan 0 (forecasts [1#2; 1#10; 9#10] true [[[10; -1; -2]]])
     = chan 0 [[[10; -1; -2]]].
Proof.
  split; [reflexivity|].
  apply (median_channel_unchanged [1#2; 1#10; 9#10] true [[[10; -1; -2]]]).
  reflexivity.
Defined.

(** C8 (single-quantile identity).  With exactly one quantile configured
    the routine returns [diffs] itself, in train mode and in predict mode,
    and writes nothing into it. *)
Theorem single_quantile_identity :
  forall (quantiles : list Q) (predict_mode : bool) (diffs : tensor),
    length quantiles = 1%nat ->
    forecasts quantiles predict_mode diffs = diffs
    /\ diffs_after quantiles predict_mode diffs = diffs
    /\ written quantiles predict_mode diffs = [].
Proof.
  intros quantiles predict_mode diffs Hlen.
  unfold forecasts, diffs_after, written, call,
    _compute_quantile_forecasts_from_diffs.
  rewrite Hlen. simpl. auto.
Qed.

Lemma single_quantile_identity_witness :
  length [1#2] = 1%nat
  /\ forecasts [1#2] true [[[3]; [-4]]] = [[[3]; [-4]]].
Proof.
  split; [reflexivity|].
  apply (single_quantile_identity [1#2] true [[[3]; [-4]]]). reflexivity.
Defined.

Lemma configured_median_first quantiles :
  configured quantiles = true -> median_first quantiles = true.
Proof.
  destruct quantiles as [|q0 rest]; [discriminate|]. cbn.
  rewrite andb_true_iff. intros [Hq _]. apply Qeq_bool_iff in Hq.
  apply negb_true_iff, above_median_false. rewrite Hq. apply Qle_refl.
Qed.

Lemma not_train mode :
  mode <> "train"%string -> negb (String.eqb mode "train") = true.
Proof. intros H. apply negb_true_iff. now apply String.eqb_neq. Qed.

(** C1 (quantile monotonicity, predict mode only).  For every configured
    quantile list with more than one quantile and every [diffs] of matching
    shape, a call with [predict_mode = (mode != "train")] for a mode other
    than train returns forecasts that do not decrease along the quantiles at
    any (batch, time) position; this is the call [forward] makes; and in
    train mode the forecasts can cross: with quantiles (0.5, 0.1, 0.9) and
    the row (10, -1, -2) the 10% forecast 11 exceeds the median 10. *)
Theorem quantile_monotonicity_outside_train :
  (forall (quantiles : list Q) (diffs : tensor) (B H : nat) (mode : string),
      configured quantiles = true ->
      (1 < length quantiles)%nat ->
      shape3 B H (length quantiles) diffs ->
      mode <> "train"%string ->
      Forall (Forall (quantile_ordered quantiles))
        (forecasts quantiles (negb (String.eqb mode "train")) diffs))
  /\ (forall self input_tensor mode meta v,
        Forward.forward self input_tensor mode meta = Some v ->
        Forward.v_prediction_with_quantiles v
        = forecasts (Forward.quantiles self) (negb (String.eqb mode "train"))
            (Forward.v_prediction v))
  /\ ~ Forall (Forall (quantile_ordered [1#2; 1#10; 9#10]))
         (forecasts [1#2; 1#10; 9#10] (negb (String.eqb "train" "train"))
            [[[10; -1; -2]]]).
Proof.
  split; [|split].
  - intros quantiles diffs B H mode Hc Hmany Hs Hmode.
    rewrite (not_train _ Hmode), forecasts_rows.
    apply Forall_pw.
    eapply Forall_impl; [exact (shape3_rows _ _ _ _ Hs)|].
    intros m Hm. eapply Forall_impl; [exact Hm|].
    intros r [Hr Hd]. simpl. rewrite Hd, <- Hr.
    assert (Hidx : (1 <= quantiles_divider_index quantiles <= length r)%nat).
    { rewrite Hr. apply median_first_divider.
      - now apply configured_median_first.
      - destruct quantiles; [discriminate|discriminate]. }
    destruct (row_closed_form quantiles true r Hmany Hidx) as [Ea Ef].
    rewrite Ef, Ea. now apply clamped_forecast_ordered.
  - intros self input_tensor mode meta v Hv. unfold Forward.forward in Hv.
    destruct (Forward.components_stacker self mode); [|discriminate].
    simpl in Hv.
    repeat match type of Hv with
           | context [let '(_, _) := ?x in _] => destruct x
           end.
    now inversion Hv.
  - intros Hall. apply Forall_inv in Hall. apply Forall_inv in Hall.
    specialize (Hall 1%nat 0%nat (1#10) (1#2) (- (-1) + 10) 10
                  eq_refl eq_refl eq_refl eq_refl).
    assert (Hlt : 1 # 10 < 1 # 2) by reflexivity.
    specialize (Hall Hlt). revert Hall. unfold Qle. simpl. lia.
Qed.

Lemma quantile_monotonicity_outside_train_witness :
  Forall (Forall (quantile_ordered [1#2; 1#10; 9#10]))
    (forecasts [1#2; 1#10; 9#10] (negb (String.eqb "predict" "train"))
       [[[10; -1; -2]; [0; 3; 1]]]).
Proof.
  apply (proj1 quantile_monotonicity_outside_train
           [1#2; 1#10; 9#10] [[[10; -1; -2]; [0; 3; 1]]] 1%nat 2%nat
           "predict"%string).
  - reflexivity.
  - simpl. lia.
  - split; [reflexivity|]. repeat constructor.
  - discriminate.
Defined.

(** The channels written in predict mode are the non-median channels. *)
Lemma write_log_channels quantiles d k :
  (1 < length quantiles)%nat ->
  (1 <= quantiles_divider_index quantiles <= d)%nat ->
  In k (write_log quantiles true d) <-> (1 <= k < d)%nat.
Proof.
  intros Hmany Hidx. unfold write_log.
  replace (length quantiles <=? 1)%nat with false
    by (symmetry; now apply Nat.leb_gt).
  set (idx := quantiles_divider_index quantiles) in *.
  rewrite !andb_true_r, in_app_iff.
  assert (Hup : In k (if (0 <? Z.of_nat d - Z.of_nat idx)%Z
                      then (idx + 0)%nat
                             :: map (fun i => (idx + (i + 1))%nat)
                                  (seq 0 (Z.to_nat (Z.of_nat d - Z.of_nat idx - 1)))
                      else [])
                <-> (idx <= k < d)%nat).
  { destruct (0 <? Z.of_nat d - Z.of_nat idx)%Z eqn:E.
    - apply Z.ltb_lt in E. simpl. rewrite in_map_iff. split.
      + intros [<-|(i & <- & Hi)]; [lia|]. apply in_seq in Hi. lia.
      + intros Hk. destruct (Nat.eq_dec k idx) as [->|Hne]; [left; lia|].
        right. exists (k - idx - 1)%nat. split; [lia|]. apply in_seq. lia.
    - apply Z.ltb_ge in E. simpl. lia. }
  assert (Hlo : In k (if (0 <? Z.of_nat idx - 1)%Z
                      then (1 + (idx - 1 - 1))%nat
                             :: map (fun i => (1 + (i - 1))%nat)
                                  (range_down (Z.to_nat (Z.of_nat idx - 1)))
                      else [])
                <-> (1 <= k < idx)%nat).
  { destruct (0 <? Z.of_nat idx - 1)%Z eqn:E.
    - apply Z.ltb_lt in E. simpl. rewrite in_map_iff. unfold range_down.
      split.
      + intros [<-|(i & <- & Hi)]; [lia|].
        apply in_rev, in_seq in Hi. lia.
      + intros Hk. destruct (Nat.eq_dec k (idx - 1)%nat) as [->|Hne]; [left; lia|].
        right. exists k. split; [lia|]. apply in_rev.
        rewrite rev_involutive. apply in_seq. lia.
    - apply Z.ltb_ge in E. simpl. lia. }
  rewrite Hup, Hlo. lia.
Qed.

(** C10 (the input is mutated in place).  In train mode, and with at most
    one quantile, the routine writes nothing into [diffs], which is left as
    it was.  In predict mode with more than one quantile it assigns through
    its slice views to every channel of [diffs] except the median channel,
    and leaves behind, at every position, the median followed by the
    clamped offsets. *)
Theorem reconciliation_mutates_input :
  forall (quantiles : list Q) (predict_mode : bool) (diffs : tensor),
    ((predict_mode = false \/ (length quantiles <= 1)%nat) ->
     diffs_after quantiles predict_mode diffs = diffs
     /\ written quantiles predict_mode diffs = [])
    /\ (forall B H,
          predict_mode = true ->
          (1 < length quantiles)%nat ->
          median_first quantiles = true ->
          shape3 B H (length quantiles) diffs ->
          (0 < B)%nat -> (0 < H)%nat ->
          diffs_after quantiles predict_mode diffs
          = pw (clamped_row (quantiles_divider_index quantiles)) diffs
          /\ (forall k, In k (written quantiles predict_mode diffs)
                        <-> (1 <= k < length quantiles)%nat)).
Proof.
  intros quantiles predict_mode diffs. split.
  - intros Hcase. rewrite diffs_after_rows, written_log.
    unfold row_after, row_after_upper, write_log.
    destruct (length quantiles <=? 1)%nat eqn:Hlen.
    + split; [apply pw_id|reflexivity].
    + apply Nat.leb_gt in Hlen. destruct Hcase as [->|Hle]; [|lia].
      rewrite !andb_false_r. split; [apply pw_id|reflexivity].
  - intros B H -> Hmany Hm Hs HB HH.
    assert (Hidx : (1 <= quantiles_divider_index quantiles
                      <= length quantiles)%nat).
    { apply median_first_divider; [exact Hm|].
      destruct quantiles; [simpl in Hmany; lia|discriminate]. }
    rewrite diffs_after_rows, written_log.
    rewrite (shape3_last_dim _ _ _ _ Hs HB HH). split.
    + apply pw_ext_in.
      eapply Forall_impl; [exact (shape3_rows _ _ _ _ Hs)|].
      intros m Hrows. eapply Forall_impl; [exact Hrows|].
      intros r [Hr _]. simpl. rewrite <- Hr.
      rewrite <- Hr in Hidx.
      now destruct (row_closed_form quantiles true r Hmany Hidx) as [-> _].
    + intros k. now apply write_log_channels.
Qed.

Lemma reconciliation_mutates_input_witness :
  diffs_after [1#2; 1#10; 9#10] true [[[10; -1; -2]]]
  = pw (clamped_row (quantiles_divider_index [1#2; 1#10; 9#10]))
       [[[10; -1; -2]]]
  /\ diffs_after [1#2; 1#10; 9#10] false [[[10; -1; -2]]]
     = [[[10; -1; -2]]].
Proof.
  split.
  - apply (proj2 (reconciliation_mutates_input
                    [1#2; 1#10; 9#10] true [[[10; -1; -2]]]) 1%nat 1%nat).
    + reflexivity.
    + simpl. lia.
    + reflexivity.
    + split; [reflexivity|]. repeat constructor.
    + lia.
    + lia.
  - apply (proj1 (reconciliation_mutates_input
                    [1#2; 1#10; 9#10] false [[[10; -1; -2]]])).
    left. reflexivity.
Defined.

(** The clamping is visible to the caller: the offsets -1 and -2 passed in
    are both 0 afterwards. *)
Example diffs_after_predict :
  diffs_after [1#2; 1#10; 9#10] true [[[10; -1; -2]]] = [[[10; 0; 0]]].
Proof. reflexivity. Qed.

(** ** The forward pass: the properties *)

(** C2 (composition of the prediction).  In whatever [forward] returns,
    the prediction before the quantile reconciliation is, over the window
    indices [n_lags .. end], the trend plus the nonstationary additive
    accumulator plus the detached trend times the nonstationary
    multiplicative accumulator, all three restricted to the horizon, plus
    the stationary additive accumulator, which only covers the horizon.
    This holds as an equation of tensors and, entry by entry, for every
    batch [b], horizon step [h] and quantile channel [q]. *)
Theorem prediction_composition :
  forall (self : TimeNet) (input_tensor : tensor) (mode : string)
         (meta : meta_t) (v : forward_vars),
    forward self input_tensor mode meta = Some v ->
    let T := shape1 (v_time_input v) in
    let horizon := tslice (n_lags self) T in
    v_prediction v
    = tadd (tadd (tadd (horizon (v_trend v))
                       (horizon (v_additive_components_nonstationary v)))
                 (tmul (detach (horizon (v_trend v)))
                       (horizon
                          (v_multiplicative_components_nonstationary v))))
           (v_additive_components v)
    /\
    forall (b h q : nat) (tr a mu s : Q),
      (n_lags self + h < T)%nat ->
      entry (v_trend v) b (n_lags self + h) q = Some tr ->
      entry (v_additive_components_nonstationary v) b (n_lags self + h) q
      = Some a ->
      entry (v_multiplicative_components_nonstationary v) b
        (n_lags self + h) q = Some mu ->
      entry (v_additive_components v) b h q = Some s ->
      entry (v_prediction v) b h q
      = Some (tr + a + detach tr * mu + s).
Proof.
  intros self input_tensor mode meta v Hv T horizon.
  pose proof (forward_prediction _ _ _ _ _ Hv) as Hp.
  split; [exact Hp|].
  intros b h q tr a mu s Hh Htr Ha Hmu Hs.
  rewrite Hp. unfold tadd, tmul, detach.
  apply entry_pw2; [|exact Hs].
  apply entry_pw2.
  - apply entry_pw2; rewrite entry_tslice by exact Hh; assumption.
  - apply entry_pw2; rewrite entry_tslice by exact Hh; assumption.
Qed.

Lemma prediction_composition_witness :
  exists v,
    forward Demo.net Demo.input "predict" None = Some v
    /\ entry (v_prediction v) 0 0 0
       = Some ((7 # 2) + 2 + detach (7 # 2) * (2 # 10) + 0).
Proof.
  eexists. split; [reflexivity|].
  refine (proj2 (prediction_composition Demo.net Demo.input "predict" None
                   _ eq_refl) 0%nat 0%nat 0%nat _ _ _ _ _ _ _ _ _).
  - vm_compute. lia.
  - reflexivity.
  - reflexivity.
  - reflexivity.
  - reflexivity.
Defined.

(** ** Regularization: the properties *)

Import Py Loss.
Local Open Scope R_scope.

(** In the model of [LossDemo] a quarter of the training is before the
    start of the ramp, and nine tenths of it after its end. *)
Lemma demo_delay_before_start :
  get_reg_delay_weight LossDemo.train (1 / 4) = 0.
Proof.
  simpl. rewrite Rmax_left by Lra.lra. apply Rmin_right. Lra.lra.
Qed.

Lemma demo_delay_after_end :
  get_reg_delay_weight LossDemo.train (9 / 10) = 1.
Proof.
  simpl. rewrite Rmax_right by Lra.lra. apply Rmin_left. Lra.lra.
Qed.

(** In [LossDemo.glocal_net] the trend and the seasonality are both
    configured as glocal with the local weight 2.  At a quarter of the
    training the delay weight is 0, and the regularization loss that is
    returned is 6, the seasonality term 3 * 2 alone; the always-on local
    terms in the words of the specification are 5 * 2 + 3 * 2 = 16. *)
Lemma delay_weight_zero_glocal_trend_left_out :
  exists out,
    get_reg_delay_weight (Loss.config_train LossDemo.glocal_net) (1 / 4) = 0
    /\ @_add_batch_regularizations LossDemo.regs LossDemo.glocal_net 0 (1 / 4)
       = Ok out
    /\ out_reg_loss out = 6
    /\ @LossSpec.local_terms LossDemo.regs LossDemo.glocal_net = 16
    /\ out_reg_loss out
       <> @LossSpec.local_terms LossDemo.regs LossDemo.glocal_net.
Proof.
  assert (Hdw : get_reg_delay_weight (Loss.config_train LossDemo.glocal_net)
                  (1 / 4) = 0) by exact demo_delay_before_start.
  assert (Hspec : @LossSpec.local_terms LossDemo.regs LossDemo.glocal_net
                  = 16).
  { unfold LossSpec.local_terms, LossSpec.trend_local_term,
      LossSpec.seasonality_local_term. simpl. unfold truthy.
    destruct (Req_dec_T 2 0) as [E|_]; [Lra.lra|]. simpl. Lra.lra. }
  eexists. split; [exact Hdw|].
  unfold _add_batch_regularizations.
  rewrite gt0_false by (rewrite Hdw; Lra.lra).
  simpl. unfold truthy. destruct (Req_dec_T 2 0) as [E|_]; [Lra.lra|].
  split; [reflexivity|]. simpl.
  split; [Lra.lra|]. split; [exact Hspec|]. rewrite Hspec. Lra.lra.
Qed.

(** C3 (delay-weight gating), as the code has it.  When the delay weight
    at the given progress is 0, [_add_batch_regularizations] returns, the
    regularization loss it returns is the sum of the always-on local trend
    term, which the code adds for a trend in mode ["local"] only, and the
    always-on local seasonality term, each zero when its own guard is off,
    the loss it returns is the loss passed in plus that sum, and no
    statement under the delay gate was executed.  With no local term
    configured the regularization loss is 0.  The sum is the one of the
    specification unless the trend is configured as glocal with a nonzero
    local weight.  The same holds for the regularization loss that
    [loss_func] returns when regularization is enabled outside the
    learning-rate search. *)
Theorem delay_weight_zero_only_local_terms :
  forall (regs : Regularizers) (self : LossNet) (loss progress : R),
    get_reg_delay_weight (config_train self) progress = 0 ->
    (exists out,
       _add_batch_regularizations self loss progress = Ok out
       /\ out_reg_loss out
          = trend_glocal_term self + seasonality_glocal_term self
       /\ out_loss out = loss + out_reg_loss out
       /\ Forall (fun t => delay_gated t = false) (out_added out)
       /\ (trend_local_on self = false ->
           seasonality_local_on self = false ->
           out_reg_loss out = 0 /\ out_added out = [])
       /\ ((forall ct,
              Loss.config_trend self = Some ct ->
              trend_global_local ct = "glocal"%string ->
              truthy (trend_local_reg ct) = false) ->
           out_reg_loss out = LossSpec.local_terms self))
    /\
    (progress = train_progress self ->
     reg_enabled self = true -> finding_lr self = false ->
     forall time predicted targets,
     exists out,
       loss_func self time predicted targets = Ok out
       /\ out_reg_loss out
          = trend_glocal_term self + seasonality_glocal_term self
       /\ Forall (fun t => delay_gated t = false) (out_added out)).
Proof.
  intros regs self loss progress Hdw.
  assert (Hall : forall l,
    exists out,
      _add_batch_regularizations self l progress = Ok out
      /\ out_reg_loss out
         = trend_glocal_term self + seasonality_glocal_term self
      /\ out_loss out = l + out_reg_loss out
      /\ out_added out
         = (if trend_local_on self then [trend_glocal] else [])
           ++ (if seasonality_local_on self then [seasonality_glocal]
               else [])).
  { intros l.
    destruct (regularizations_closed self l progress
                {| reg_loss := 0; added := [] |})
      as (out & Hout & Hreg & Hloss & Hadded).
    { rewrite gt0_false by (rewrite Hdw; Lra.lra). reflexivity. }
    exists out. simpl in Hreg, Hadded.
    repeat split; [exact Hout|rewrite Hreg; Lra.lra|exact Hloss|exact Hadded]. }
  assert (Hlabels : Forall (fun t => delay_gated t = false)
            ((if trend_local_on self then [trend_glocal] else [])
             ++ (if seasonality_local_on self then [seasonality_glocal]
                 else []))).
  { destruct (trend_local_on self), (seasonality_local_on self);
      repeat constructor. }
  split.
  - destruct (Hall loss) as (out & Hout & Hreg & Hloss & Hadded).
    exists out. repeat split; try assumption.
    + rewrite Hadded. exact Hlabels.
    + rewrite Hreg. revert H H0.
      unfold trend_local_on, seasonality_local_on, trend_glocal_term,
        seasonality_glocal_term.
      destruct (config_trend self) as [ct|];
        destruct (config_seasonality self) as [cs|];
        intros -> || intros _; intros -> || intros _; Lra.lra.
    + rewrite Hadded, H, H0. reflexivity.
    + intros Hglocal. rewrite Hreg.
      unfold LossSpec.local_terms, LossSpec.trend_local_term,
        LossSpec.seasonality_local_term, trend_glocal_term,
        seasonality_glocal_term.
      f_equal. destruct (Loss.config_trend self) as [ct|]; [|reflexivity].
      destruct (String.eqb_spec (trend_global_local ct) "glocal")
        as [Hm|_]; [|now rewrite orb_false_r].
      rewrite (Hglocal ct eq_refl Hm), !andb_false_r. reflexivity.
  - intros -> Hen Hlr time predicted targets.
    unfold loss_func. rewrite Hen, Hlr. simpl.
    match goal with
    | |- context [_add_batch_regularizations self ?l _] =>
        destruct (Hall l) as (out & Hout & Hreg & _ & Hadded)
    end.
    exists out. repeat split; try assumption.
    rewrite Hadded. exact Hlabels.
Qed.

Lemma delay_weight_zero_only_local_terms_witness :
  exists out,
    @_add_batch_regularizations LossDemo.regs LossDemo.local_net 0 (1 / 4)
    = Ok out
    /\ out_reg_loss out
       = @trend_glocal_term LossDemo.regs LossDemo.local_net
         + @seasonality_glocal_term LossDemo.regs LossDemo.local_net
    /\ out_loss out = 0 + out_reg_loss out
    /\ Forall (fun t => delay_gated t = false) (out_added out).
Proof.
  destruct (delay_weight_zero_only_local_terms LossDemo.regs
              LossDemo.local_net 0 (1 / 4) demo_delay_before_start)
    as [(out & Hout & Hreg & Hloss & Hadded & _ & _) _].
  exists out. repeat split; assumption.
Defined.

(** The trend of [LossDemo.glocal_net] is configured as glocal with the
    local weight 2, and yet its local term is not added: of the two
    always-on statements only the seasonality one is executed, and the
    regularization loss is the seasonality term 3 * 2 alone, without the
    trend term 5 * 2. *)
Lemma glocal_trend_term_not_added :
  exists ct out,
    Loss.config_trend LossDemo.glocal_net = Some ct
    /\ trend_global_local ct = "glocal"%string
    /\ trend_local_reg ct = Some 2
    /\ 2 <> 0
    /\ @_add_batch_regularizations LossDemo.regs LossDemo.glocal_net 0 (1 / 4)
       = Ok out
    /\ out_added out = [seasonality_glocal]
    /\ out_reg_loss out = 6
    /\ ~ In trend_glocal (out_added out).
Proof.
  eexists. eexists. split; [reflexivity|].
  split; [reflexivity|]. split; [reflexivity|]. split; [Lra.lra|].
  unfold _add_batch_regularizations.
  rewrite gt0_false by (change (LossDemo.train) with LossDemo.train;
                        simpl config_train; rewrite demo_delay_before_start;
                        Lra.lra).
  simpl. unfold truthy. destruct (Req_dec_T 2 0) as [E|_]; [Lra.lra|].
  split; [reflexivity|]. simpl.
  split; [reflexivity|]. split; [Lra.lra|].
  intros [E|[]]. discriminate.
Qed.

(** C4 (the always-on local terms), as the code has it.
    [_add_batch_regularizations] returns whenever the delay weight is not
    positive.  Whenever it returns, take the accumulator [reg0] that the
    block under the delay gate leaves (empty and zero when the gate is
    closed).  The statements executed are those of [reg0], all of them
    under the gate, then the local trend statement, executed exactly when
    the trend is configured with mode ["local"] and a nonzero local
    weight, then the local seasonality statement, executed exactly when
    the seasonality is configured with mode ["local"] or ["glocal"] and a
    nonzero local weight.  The regularization loss returned is that of
    [reg0] plus the trend term plus the seasonality term, where a term is
    what the regularizer gives at the configured local weight when its
    statement is executed, and zero when it is not; the loss returned is
    the loss passed in plus the regularization loss.  For a component in
    mode ["global"] the statement is skipped whatever the local weight,
    and the regularization loss returned is the rest alone. *)
Theorem local_terms_gate :
  forall (regs : Regularizers) (self : LossNet) (loss progress : R),
    (get_reg_delay_weight (config_train self) progress <= 0 ->
     exists out, _add_batch_regularizations self loss progress = Ok out)
    /\
    (forall out,
       _add_batch_regularizations self loss progress = Ok out ->
       exists (reg0 : acc) (trend_term seasonality_term : R),
         (if gt0 (get_reg_delay_weight (config_train self) progress)
          then delayed_regularizations self {| reg_loss := 0; added := [] |}
          else Ok {| reg_loss := 0; added := [] |}) = Ok reg0
         /\ Forall (fun t => delay_gated t = true) (added reg0)
         /\ out_added out
            = added reg0
              ++ (if trend_local_on self then [trend_glocal] else [])
              ++ (if seasonality_local_on self then [seasonality_glocal]
                  else [])
         /\ out_reg_loss out
            = reg_loss reg0 + trend_term + seasonality_term
         /\ out_loss out = loss + out_reg_loss out
         /\ (In trend_glocal (out_added out) <->
             exists ct v,
               Loss.config_trend self = Some ct
               /\ trend_global_local ct = "local"%string
               /\ trend_local_reg ct = Some v /\ v <> 0)
         /\ (forall ct v,
               Loss.config_trend self = Some ct ->
               trend_global_local ct = "local"%string ->
               trend_local_reg ct = Some v -> v <> 0 ->
               trend_term
               = reg_func_trend_glocal (trend_k0 self) (trend_deltas self) v)
         /\ (~ In trend_glocal (out_added out) -> trend_term = 0)
         /\ (In seasonality_glocal (out_added out) <->
             exists cs v,
               Loss.config_seasonality self = Some cs
               /\ (global_local cs = "local"%string
                   \/ global_local cs = "glocal"%string)
               /\ seasonality_local_reg cs = Some v /\ v <> 0)
         /\ (forall cs v,
               Loss.config_seasonality self = Some cs ->
               global_local cs = "local"%string
               \/ global_local cs = "glocal"%string ->
               seasonality_local_reg cs = Some v -> v <> 0 ->
               seasonality_term
               = reg_func_seasonality_glocal (season_params self) v)
         /\ (~ In seasonality_glocal (out_added out) ->
             seasonality_term = 0)
         /\ (forall ct,
               Loss.config_trend self = Some ct ->
               trend_global_local ct = "global"%string ->
               ~ In trend_glocal (out_added out)
               /\ out_reg_loss out = reg_loss reg0 + seasonality_term)
         /\ (forall cs,
               Loss.config_seasonality self = Some cs ->
               global_local cs = "global"%string ->
               ~ In seasonality_glocal (out_added out)
               /\ out_reg_loss out = reg_loss reg0 + trend_term)).
Proof.
  intros regs self loss progress.
  assert (Htrend : trend_local_on self = true <->
            exists ct v,
              Loss.config_trend self = Some ct
              /\ trend_global_local ct = "local"%string
              /\ trend_local_reg ct = Some v /\ v <> 0).
  { unfold trend_local_on. destruct (Loss.config_trend self) as [ct|].
    - rewrite andb_true_iff, String.eqb_eq, truthy_spec. split.
      + intros (Hm & v & Hv & Hnz). now exists ct, v.
      + intros (ct' & v & [= <-] & Hm & Hv & Hnz). split; [exact Hm|].
        now exists v.
    - split; [discriminate|]. intros (ct & v & Hct & _). discriminate. }
  assert (Hseason : seasonality_local_on self = true <->
            exists cs v,
              Loss.config_seasonality self = Some cs
              /\ (global_local cs = "local"%string
                  \/ global_local cs = "glocal"%string)
              /\ seasonality_local_reg cs = Some v /\ v <> 0).
  { unfold seasonality_local_on.
    destruct (Loss.config_seasonality self) as [cs|].
    - rewrite andb_true_iff, orb_true_iff, !String.eqb_eq, truthy_spec. split.
      + intros (Hm & v & Hv & Hnz). now exists cs, v.
      + intros (cs' & v & [= <-] & Hm & Hv & Hnz). split; [exact Hm|].
        now exists v.
    - split; [discriminate|]. intros (cs & v & Hcs & _). discriminate. }
  assert (Htrend_off : trend_local_on self = false ->
                       trend_glocal_term self = 0).
  { unfold trend_local_on, trend_glocal_term.
    destruct (Loss.config_trend self) as [ct|]; [|reflexivity].
    now intros ->. }
  assert (Hseason_off : seasonality_local_on self = false ->
                        seasonality_glocal_term self = 0).
  { unfold seasonality_local_on, seasonality_glocal_term.
    destruct (Loss.config_seasonality self) as [cs|]; [|reflexivity].
    now intros ->. }
  split.
  - intros Hle. apply regularizations_total. now left.
  - intros out Hout.
    destruct (regularizations_returns self loss progress out Hout)
      as [reg0 Hg].
    destruct (regularizations_closed self loss progress reg0 Hg)
      as (out' & Hout' & Hreg & Hloss & Hadded).
    rewrite Hout in Hout'. injection Hout' as <-.
    assert (Hall : Forall (fun t => delay_gated t = true) (added reg0)).
    { destruct (gt0 _).
      - apply delayed_extends in Hg.
        destruct Hg as (ts & x & Hts & _ & Hall). simpl in Hts.
        now rewrite Hts.
      - injection Hg as <-. constructor. }
    assert (Hnot : forall t, delay_gated t = false -> ~ In t (added reg0)).
    { intros t Ht Hin. rewrite Forall_forall in Hall.
      apply list_elem_of_In, Hall in Hin. congruence. }
    assert (Hin_t : In trend_glocal (out_added out) <->
                    trend_local_on self = true).
    { rewrite Hadded, !in_app_iff. split.
      - intros [Hin|[Hin|Hin]].
        + now apply Hnot in Hin.
        + destruct (trend_local_on self); [reflexivity|destruct Hin].
        + destruct (seasonality_local_on self); [|destruct Hin].
          destruct Hin as [E|[]]. discriminate.
      - intros ->. right. left. now left. }
    assert (Hin_s : In seasonality_glocal (out_added out) <->
                    seasonality_local_on self = true).
    { rewrite Hadded, !in_app_iff. split.
      - intros [Hin|[Hin|Hin]].
        + now apply Hnot in Hin.
        + destruct (trend_local_on self); [|destruct Hin].
          destruct Hin as [E|[]]. discriminate.
        + destruct (seasonality_local_on self); [reflexivity|destruct Hin].
      - intros ->. right. right. now left. }
    assert (Hskip_t : ~ In trend_glocal (out_added out) ->
                      trend_glocal_term self = 0).
    { intros Hn. apply Htrend_off.
      destruct (trend_local_on self); [|reflexivity].
      exfalso. now apply Hn, Hin_t. }
    assert (Hskip_s : ~ In seasonality_glocal (out_added out) ->
                      seasonality_glocal_term self = 0).
    { intros Hn. apply Hseason_off.
      destruct (seasonality_local_on self); [|reflexivity].
      exfalso. now apply Hn, Hin_s. }
    exists reg0, (trend_glocal_term self), (seasonality_glocal_term self).
    split; [exact Hg|]. split; [exact Hall|]. split; [exact Hadded|].
    split; [exact Hreg|]. split; [exact Hloss|].
    split; [now rewrite Hin_t|]. split.
    { intros ct v Hct Hm Hv Hnz. unfold trend_glocal_term.
      rewrite Hct, Hm, Hv. simpl. unfold truthy.
      now destruct (Req_dec_T v 0). }
    split; [exact Hskip_t|]. split; [now rewrite Hin_s|]. split.
    { intros cs v Hcs Hm Hv Hnz. unfold seasonality_glocal_term.
      rewrite Hcs, Hv.
      replace (String.eqb (global_local cs) "local"
               || String.eqb (global_local cs) "glocal") with true
        by (destruct Hm as [-> | ->]; reflexivity).
      simpl. unfold truthy. now destruct (Req_dec_T v 0). }
    split; [exact Hskip_s|]. split.
    + intros ct Hct Hmode.
      assert (Hoff : ~ In trend_glocal (out_added out)).
      { rewrite Hin_t. unfold trend_local_on. rewrite Hct, Hmode.
        simpl. discriminate. }
      split; [exact Hoff|]. rewrite Hreg, (Hskip_t Hoff). Lra.lra.
    + intros cs Hcs Hmode.
      assert (Hoff : ~ In seasonality_glocal (out_added out)).
      { rewrite Hin_s. unfold seasonality_local_on. rewrite Hcs, Hmode.
        simpl. discriminate. }
      split; [exact Hoff|]. rewrite Hreg, (Hskip_s Hoff). Lra.lra.
Qed.

Lemma local_terms_gate_witness :
  exists out,
    @_add_batch_regularizations LossDemo.regs LossDemo.local_net 0 (1 / 4)
    = Ok out
    /\ In trend_glocal (out_added out)
    /\ In seasonality_glocal (out_added out)
    /\ out_reg_loss out = 16.
Proof.
  destruct (local_terms_gate LossDemo.regs LossDemo.local_net 0 (1 / 4))
    as [Hret Hgate].
  destruct Hret as [out Hout].
  { rewrite <- demo_delay_before_start. apply Rle_refl. }
  exists out. split; [exact Hout|].
  destruct (Hgate out Hout)
    as (reg0 & t & s & Hg & _ & _ & Hreg & _ & Htrend & Ht & _ & Hseason
        & Hs & _).
  assert (Hreg0 : reg_loss reg0 = 0).
  { rewrite gt0_false in Hg
      by (change (get_reg_delay_weight LossDemo.train (1 / 4) <= 0);
          rewrite demo_delay_before_start; apply Rle_refl).
    now injection Hg as <-. }
  assert (H2 : (2 : R) <> 0) by Lra.lra.
  split; [|split].
  - apply Htrend. eexists. exists 2.
    split; [reflexivity|]. split; [reflexivity|]. split; [reflexivity|].
    exact H2.
  - apply Hseason. eexists. exists 2.
    split; [reflexivity|]. split; [left; reflexivity|].
    split; [reflexivity|]. exact H2.
  - rewrite Hreg, Hreg0.
    rewrite (Ht _ 2 eq_refl eq_refl eq_refl H2).
    rewrite (Hs _ 2 eq_refl (or_introl eq_refl) eq_refl H2).
    simpl. Lra.lra.
Defined.

(** ** The recency weight: the properties *)

(** With the end weight 2 and the start 0, the weight of the time 0, at the
    start of the ramp, is one half rather than 1, and the weight of the
    time 1, at its end, is 1 rather than the end weight 2. *)
Lemma recency_weight_starts_below_one :
  newer_samples_weight (config_train LossDemo.local_net) = 2
  /\ newer_samples_start (config_train LossDemo.local_net) = 0
  /\ _get_time_based_sample_weight LossDemo.local_net [[0; 1]]
     = [[[1 / 2]; [1]]]
  /\ 1 / 2 <> 1
  /\ 1 <> 2.
Proof.
  split; [reflexivity|]. split; [reflexivity|].
  split; [|split; Lra.lra].
  rewrite weight_tensor. simpl.
  rewrite (sample_weight_before 2 0 0) by Lra.lra.
  rewrite (sample_weight_end 2 0 1) by Lra.lra.
  reflexivity.
Qed.

(** C5 (the recency weight), as the code has it.  With an end weight above
    1 and a start below 1, the weight of a time step is [1 / end_w] at or
    before the start, 1 at or after the time 1, and in between the half
    cosine of the position in the ramp, scaled to go from [1 / end_w] up
    to 1: the newest samples weigh [end_w] times the oldest.  The weight
    never decreases with time and stays between [1 / end_w] and 1.
    [_get_time_based_sample_weight] computes it at every entry of the time
    tensor; [loss_func] multiplies the loss of every quantile channel at a
    (batch, horizon) position by the one weight of that position before it
    reduces the loss, when the end weight is above 1. *)
Theorem recency_weight_profile :
  forall (regs : Regularizers) (self : LossNet),
    let end_w := newer_samples_weight (config_train self) in
    let start_t := newer_samples_start (config_train self) in
    1 < end_w -> start_t < 1 ->
    (forall t, t <= start_t -> sample_weight end_w start_t t = 1 / end_w)
    /\ (forall t, 1 <= t -> sample_weight end_w start_t t = 1)
    /\ (forall t, start_t <= t <= 1 ->
          sample_weight end_w start_t t
          = (1 + ((1 / 2)
                  * cos (PI * ((t - start_t) / (1 - start_t) - 1)) + 1 / 2)
                 * (end_w - 1)) / end_w)
    /\ (forall t, 1 / end_w <= sample_weight end_w start_t t <= 1)
    /\ (forall t1 t2, t1 <= t2 ->
          sample_weight end_w start_t t1 <= sample_weight end_w start_t t2)
    /\ (forall t : rmatrix,
          _get_time_based_sample_weight self t
          = pw (fun x => [sample_weight end_w start_t x]) t)
    /\ (forall (loss : rtensor) (t : rmatrix) (b h q : nat) (l x : R),
          entry loss b h q = Some l ->
          (m ← t !! b; m !! h) = Some x ->
          entry (bmul loss (_get_time_based_sample_weight self t)) b h q
          = Some (l * sample_weight end_w start_t x))
    /\ (forall time predicted targets,
          let weighted :=
            bmul (train_loss_func (config_train self) predicted targets)
              (_get_time_based_sample_weight self
                 (map (drop (Loss.n_lags self)) time)) in
          loss_func self time predicted targets
          = if reg_enabled self && negb (finding_lr self) then
              _add_batch_regularizations self (mean (sum_dim2 weighted))
                (train_progress self)
            else Ok {| out_loss := mean (sum_dim2 weighted);
                       out_reg_loss := 0; out_added := [] |}).
Proof.
  intros regs self end_w start_t Hw Hs.
  split; [intros t Ht; now apply sample_weight_before|].
  split; [intros t Ht; apply sample_weight_end; [exact Hs|Lra.lra|exact Ht]|].
  split; [intros t Ht; now apply sample_weight_ramp|].
  split; [intros t; now apply sample_weight_range|].
  split; [intros t1 t2 Ht; now apply sample_weight_mono|].
  split; [intros t; apply weight_tensor|].
  split; [intros loss t b h q l x Hl Hx; now apply entry_bmul_weight|].
  intros time predicted targets weighted. unfold loss_func.
  destruct (Rlt_dec 1 (newer_samples_weight (config_train self)))
    as [_|Hn]; [reflexivity|contradiction].
Qed.

Lemma recency_weight_profile_witness :
  sample_weight 2 0 (-1) = 1 / 2
  /\ sample_weight 2 0 3 = 1
  /\ 1 / 2 <= sample_weight 2 0 (1 / 3) <= 1.
Proof.
  assert (Hw : 1 < newer_samples_weight (config_train LossDemo.local_net))
    by (simpl; Lra.lra).
  assert (Hs : newer_samples_start (config_train LossDemo.local_net) < 1)
    by (simpl; Lra.lra).
  destruct (recency_weight_profile LossDemo.regs LossDemo.local_net Hw Hs)
    as (Hbefore & Hend & _ & Hrange & _).
  split; [apply Hbefore; simpl; Lra.lra|].
  split; [apply Hend; Lra.lra|].
  apply Hrange.
Defined.

(** ** Construction: the properties *)

Import Init.




(** ** The training step: the properties *)

Import Training.

(** C9 (order of the optimization).  Take any run of [training_step], and
    the calls it makes on the optimizer, the scheduler and the logger,
    each of which is taken to return.  If the run returns, the calls start
    with the gradient zeroing, the backward pass of the loss that is
    returned, the optimizer step and the scheduler step, each once and in
    this order, and whatever follows is logging.  And in every run, one
    that returns or one that raises, the optimization calls that were made
    are these four in this order, or none. *)
Theorem optimization_order :
  forall (regs : Loss.Regularizers) (batch : tensor * list string)
         (batch_idx : nat) (w : world),
    let run := training_step batch batch_idx w in
    let made := drop (length (actions w)) (actions (snd run)) in
    actions (snd run) = actions w ++ made
    /\ (forall loss,
          fst run = Ok loss ->
          exists epoch logging,
            made = [zero_grad; manual_backward loss; optimizer_step;
                    scheduler_step epoch] ++ logging
            /\ Forall (fun a => is_optimization a = false) logging)
    /\ (List.filter is_optimization made = []
        \/ exists loss epoch,
             List.filter is_optimization made
             = [zero_grad; manual_backward loss; optimizer_step;
                scheduler_step epoch]).
Proof.
  intros regs batch batch_idx w run made.
  assert (Hfilter : forall logging,
            Forall (fun a => is_optimization a = false) logging ->
            List.filter is_optimization logging = []).
  { induction 1 as [|a logging Ha _ IH]; [reflexivity|].
    cbn. now rewrite Ha. }
  destruct (training_step_runs batch batch_idx w)
    as [(e & w' & Hrun & Hw)|(loss & epoch & logging & w' & Hrun & Hw & Hlog)];
    subst made run; rewrite Hrun; cbn [fst snd]; rewrite Hw.
  - rewrite drop_all. split; [now rewrite app_nil_r|].
    split; [discriminate|]. now left.
  - rewrite drop_app_length. split; [reflexivity|]. split.
    + intros loss' [= <-]. now exists epoch, logging.
    + right. exists loss, epoch. cbn. now rewrite Hfilter.
Qed.

Lemma optimization_order_witness :
  exists loss epoch logging,
    fst (@training_step LossDemo.regs TrainingDemo.batch 1
           TrainingDemo.start) = Ok loss
    /\ drop (length (actions TrainingDemo.start))
         (actions (snd (@training_step LossDemo.regs TrainingDemo.batch 1
                          TrainingDemo.start)))
       = [zero_grad; manual_backward loss; optimizer_step;
          scheduler_step epoch] ++ logging.
Proof.
  destruct (training_step_returns (H := LossDemo.regs) TrainingDemo.batch 1
              TrainingDemo.start) as (loss & w' & Hrun).
  - discriminate.
  - discriminate.
  - discriminate.
  - discriminate.
  - intros p time predicted targets.
    apply loss_func_returns; [discriminate|left; reflexivity].
  - destruct (optimization_order LossDemo.regs TrainingDemo.batch 1
                TrainingDemo.start) as (_ & Hret & _).
    destruct (Hret loss) as (epoch & logging & Hmade & _);
      [now rewrite Hrun|].
    exists loss, epoch, logging. split; [now rewrite Hrun|exact Hmade].
Defined.

(** ** Quantile reconciliation: further properties *)

Local Open Scope Q_scope.

(** X1.  [quantiles_divider_index] is the index of the first quantile
    above 0.5: it is within the list or at its end, every quantile before
    it is at most 0.5, the quantile at it, if there is one, is above 0.5,
    and it is the length of the list exactly when no quantile is above
    0.5. *)
Theorem divider_index_first_above :
  forall quantiles : list Q,
    let idx := quantiles_divider_index quantiles in
    (idx <= length quantiles)%nat
    /\ (forall i q, (i < idx)%nat -> quantiles !! i = Some q -> q <= 1 # 2)
    /\ (forall q, quantiles !! idx = Some q -> 1 # 2 < q)
    /\ (idx = length quantiles <-> Forall (fun q => q <= 1 # 2) quantiles).
Proof.
  intros quantiles idx.
  destruct (divider_index_split quantiles) as (Hle & Hlo & Hup).
  fold idx in Hle, Hlo, Hup.
  split; [exact Hle|]. split; [|split].
  - intros i q Hi Hq. rewrite Forall_forall in Hlo. apply Hlo.
    apply (list_elem_of_lookup_2 _ i). now rewrite lookup_take_lt.
  - intros q Hq.
    assert (Hd : drop idx quantiles !! 0%nat = Some q)
      by now rewrite lookup_drop, Nat.add_0_r.
    destruct (drop idx quantiles) as [|q' l]; [discriminate|].
    injection Hd as <-. exact Hup.
  - split.
    + intros Hidx. rewrite Hidx, firstn_all in Hlo. exact Hlo.
    + intros Hall. destruct (Nat.eq_dec idx (length quantiles)) as [|Hne];
        [assumption|exfalso].
      destruct (lookup_lt_is_Some_2 quantiles idx) as [q Hq]; [lia|].
      assert (Hd : drop idx quantiles !! 0%nat = Some q)
        by now rewrite lookup_drop, Nat.add_0_r.
      destruct (drop idx quantiles) as [|q' l]; [discriminate|].
      injection Hd as ->. rewrite Forall_forall in Hall.
      apply (Qlt_not_le _ _ Hup), Hall.
      exact (list_elem_of_lookup_2 _ _ _ Hq).
Qed.

(** X2.  What a call returns, channel by channel.  With several quantiles,
    the median first, and one channel per quantile: at every position the
    median channel of the result is the median [m] of the input, a channel
    [j] below the divider index holds [- d + m] and a channel from the
    divider index on holds [d + m], where [d] is the offset that the input
    holds in channel [j] after the call.  In train mode that is the offset
    passed in. *)
Theorem reconciliation_entries :
  forall (quantiles : list Q) (predict_mode : bool) (diffs : tensor)
         (B H : nat),
    (1 < length quantiles)%nat ->
    median_first quantiles = true ->
    shape3 B H (length quantiles) diffs ->
    (predict_mode = false ->
     diffs_after quantiles predict_mode diffs = diffs)
    /\ forall (b h j : nat) (m d : Q),
         Forward.entry (diffs_after quantiles predict_mode diffs) b h 0
         = Some m ->
         Forward.entry (diffs_after quantiles predict_mode diffs) b h j
         = Some d ->
         Forward.entry (forecasts quantiles predict_mode diffs) b h j
         = Some (if (j =? 0)%nat then m
                 else if (j <? quantiles_divider_index quantiles)%nat
                      then - d + m else d + m).
Proof.
  intros quantiles predict_mode diffs B H Hmany Hm Hs.
  destruct (call_closed_form quantiles predict_mode diffs B H Hmany Hm Hs)
    as [Hf Ha].
  assert (Hidx : (1 <= quantiles_divider_index quantiles
                    <= length quantiles)%nat).
  { apply median_first_divider; [exact Hm|].
    destruct quantiles; [simpl in Hmany; lia|discriminate]. }
  split.
  - intros ->. rewrite Ha. apply pw_id.
  - intros b h j m d. rewrite Hf, Ha, !entry_pw.
    destruct (diffs !! b) as [mat|] eqn:Hb; [|discriminate]. simpl.
    destruct (mat !! h) as [r|] eqn:Hh; [|discriminate]. simpl.
    intros Hmed Hd. apply absolute_row_lookup; try assumption.
    pose proof (shape3_row _ _ _ _ _ _ _ _ Hs Hb Hh) as Hr.
    destruct predict_mode; [rewrite length_clamped_row|]; lia.
Qed.

Lemma reconciliation_entries_witness :
  Forward.entry (forecasts [1#2; 1#10; 9#10] false [[[10; -1; -2]]])
    0 0 1
  = Some (- (-1) + 10)
  /\ Forward.entry (forecasts [1#2; 1#10; 9#10] true [[[10; -1; 3]]])
       0 0 2
     = Some (3 + 10).
Proof.
  split.
  - apply (proj2 (reconciliation_entries [1#2; 1#10; 9#10] false
                    [[[10; -1; -2]]] 1 1 ltac:(simpl; lia) eq_refl
                    ltac:(split; [reflexivity|repeat constructor]))
             0%nat 0%nat 1%nat 10 (-1)); reflexivity.
  - apply (proj2 (reconciliation_entries [1#2; 1#10; 9#10] true
                    [[[10; -1; 3]]] 1 1 ltac:(simpl; lia) eq_refl
                    ltac:(split; [reflexivity|repeat constructor]))
             0%nat 0%nat 2%nat 10 3); reflexivity.
Defined.

(** X3.  The crossing correction is a projection.  In predict mode the
    result is what train mode returns on the clamped input that the call
    leaves behind; a second call on that input leaves it as it is and
    returns the same forecasts. *)
Theorem reconciliation_idempotent :
  forall (quantiles : list Q) (diffs : tensor) (B H : nat),
    (1 < length quantiles)%nat ->
    median_first quantiles = true ->
    shape3 B H (length quantiles) diffs ->
    let clamped := diffs_after quantiles true diffs in
    forecasts quantiles true diffs = forecasts quantiles false clamped
    /\ diffs_after quantiles true clamped = clamped
    /\ forecasts quantiles true clamped = forecasts quantiles true diffs.
Proof.
  intros quantiles diffs B H Hmany Hm Hs clamped.
  assert (Hidx : (1 <= quantiles_divider_index quantiles
                    <= length quantiles)%nat).
  { apply median_first_divider; [exact Hm|].
    destruct quantiles; [simpl in Hmany; lia|discriminate]. }
  destruct (call_closed_form quantiles true diffs B H Hmany Hm Hs)
    as [Hf Ha].
  assert (Hsc : shape3 B H (length quantiles) clamped).
  { subst clamped. rewrite Ha. apply shape3_pw; [|exact Hs].
    intros r Hr. rewrite length_clamped_row; lia. }
  destruct (call_closed_form quantiles true clamped B H Hmany Hm Hsc)
    as [Hf2 Ha2].
  destruct (call_closed_form quantiles false clamped B H Hmany Hm Hsc)
    as [Hf3 _].
  assert (Hfix : pw (clamped_row (quantiles_divider_index quantiles)) clamped
                 = clamped).
  { subst clamped. rewrite Ha, pw_pw. apply pw_ext_in.
    eapply Forall_impl; [exact (shape3_rows _ _ _ _ Hs)|].
    intros m Hrows. eapply Forall_impl; [exact Hrows|].
    intros r [Hr _]. simpl. apply clamped_row_idempotent. lia. }
  split; [|split].
  - rewrite Hf, Hf3. subst clamped. now rewrite Ha, pw_pw.
  - rewrite Ha2. exact Hfix.
  - rewrite Hf2, Hf.
    rewrite <- (pw_pw (absolute_row (quantiles_divider_index quantiles))
                  (clamped_row (quantiles_divider_index quantiles)) clamped).
    rewrite Hfix. subst clamped. now rewrite Ha, pw_pw.
Qed.

Lemma reconciliation_idempotent_witness :
  diffs_after [1#2; 1#10; 9#10] true
    (diffs_after [1#2; 1#10; 9#10] true [[[10; -1; -2]; [0; 3; 1]]])
  = diffs_after [1#2; 1#10; 9#10] true [[[10; -1; -2]; [0; 3; 1]]].
Proof.
  apply (reconciliation_idempotent [1#2; 1#10; 9#10]
           [[[10; -1; -2]; [0; 3; 1]]] 1 2).
  - simpl. lia.
  - reflexivity.
  - split; [reflexivity|]. repeat constructor.
Defined.

(** X4.  A call keeps the dims: on a tensor of dims (batch, n_forecasts,
    number of quantiles), with the median first in the quantile list, the
    forecasts returned and the input as it is left have these dims too, in
    both modes. *)
Theorem reconciliation_preserves_shape :
  forall (quantiles : list Q) (predict_mode : bool) (diffs : tensor)
         (B H : nat),
    median_first quantiles = true ->
    shape3 B H (length quantiles) diffs ->
    shape3 B H (length quantiles) (forecasts quantiles predict_mode diffs)
    /\ shape3 B H (length quantiles)
         (diffs_after quantiles predict_mode diffs).
Proof.
  intros quantiles predict_mode diffs B H Hm Hs.
  destruct (Nat.le_gt_cases (length quantiles) 1) as [Hone|Hmany].
  - rewrite forecasts_rows, diffs_after_rows.
    unfold row_forecast, row_after.
    replace (length quantiles <=? 1)%nat with true
      by (symmetry; now apply Nat.leb_le).
    now rewrite pw_id.
  - assert (Hidx : (1 <= quantiles_divider_index quantiles
                      <= length quantiles)%nat).
    { apply median_first_divider; [exact Hm|].
      destruct quantiles; [simpl in Hmany; lia|discriminate]. }
    destruct (call_closed_form quantiles predict_mode diffs B H Hmany Hm Hs)
      as [-> ->].
    split; (apply shape3_pw; [|exact Hs]); intros r Hr;
      assert (Hc : length (clamped_row (quantiles_divider_index quantiles) r)
                   = length r) by (apply length_clamped_row; lia);
      destruct predict_mode;
      rewrite ?length_absolute_row; rewrite ?Hc; lia.
Qed.

Lemma reconciliation_preserves_shape_witness :
  shape3 1 2 3
    (forecasts [1#2; 1#10; 9#10] true [[[10; -1; -2]; [0; 3; 1]]]).
Proof.
  apply (reconciliation_preserves_shape [1#2; 1#10; 9#10] true
           [[[10; -1; -2]; [0; 3; 1]]] 1 2).
  - reflexivity.
  - split; [reflexivity|]. repeat constructor.
Defined.

(** ** Stackers, steps and series names: further properties *)

Import Steps.

(** X5.  The validation, test and predict steps are read-only.  A run of
    [validation_step] or of [test_step] leaves the model as it is and makes
    no call on the optimizer or the scheduler; it calls the logger three
    times (the metrics, the loss, the regularization loss, under the names
    of its mode) when the metrics are enabled and it returns, and makes no
    call otherwise.  A run of [predict_step] changes nothing and logs
    nothing. *)
Theorem evaluation_steps_read_only :
  forall (regs : Loss.Regularizers)
         (metrics_val : matrix -> matrix -> list (string * R))
         (batch : tensor * list string) (batch_idx : nat) (w : world),
    let read_only (suffix : string) (run : Py.result unit * world) :=
      the_self (snd run) = the_self w
      /\ exists logging,
           actions (snd run) = actions w ++ logging
           /\ Forall (fun a => is_optimization a = false) logging
           /\ (metrics_enabled (the_self w) = false \/ raises (fst run) ->
               logging = [])
           /\ (metrics_enabled (the_self w) = true -> ~ raises (fst run) ->
               exists values loss reg_loss,
                 logging = [log_dict values; log ("Loss" ++ suffix) loss;
                            log ("RegLoss" ++ suffix) reg_loss]) in
    read_only "_val"%string (validation_step metrics_val batch batch_idx w)
    /\ read_only "_test"%string (test_step metrics_val batch batch_idx w)
    /\ snd (predict_step batch batch_idx w) = w.
Proof.
  intros regs metrics_val batch batch_idx w read_only. subst read_only.
  split; [|split].
  - apply (evaluation_step_runs metrics_val "val" "_val").
  - apply (evaluation_step_runs metrics_val "test" "_test").
  - apply predict_step_runs.
Qed.

(** X6.  The prediction of a predict step is free of quantile crossings.
    For a model with several quantiles, 0.5 first and the others ascending,
    whose composed prediction has one channel per quantile, what
    [predict_step] returns does not decrease along the quantiles at any
    (batch, time) position. *)
Theorem predict_step_ordered :
  forall (batch : tensor * list string) (batch_idx : nat) (w w' : world)
         (prediction : tensor) (B H : nat),
    let self := net (the_self w) in
    configured (Forward.quantiles self) = true ->
    (1 < length (Forward.quantiles self))%nat ->
    (forall meta v,
       Forward.forward self (fst batch) "predict" meta = Some v ->
       shape3 B H (length (Forward.quantiles self))
         (Forward.v_prediction v)) ->
    predict_step batch batch_idx w = (Ok prediction, w') ->
    Forall (Forall (quantile_ordered (Forward.quantiles self))) prediction.
Proof.
  intros batch batch_idx w w' prediction B H self Hc Hmany Hshape Hrun.
  destruct (predict_step_runs batch batch_idx w) as [_ Hret].
  destruct (Hret prediction) as (meta & v & Hv & ->);
    [now rewrite Hrun|].
  pose proof (Hshape meta v Hv) as Hs.
  unfold Forward.forward in Hv. fold self in Hv.
  destruct (Forward.components_stacker self "predict"); [|discriminate].
  simpl in Hv.
  repeat match type of Hv with
         | context [let '(_, _) := ?x in _] => destruct x
         end.
  injection Hv as <-. cbn [Forward.v_prediction_with_quantiles].
  cbn [Forward.v_prediction] in Hs.
  now apply forecasts_ordered with B H.
Qed.

Lemma predict_step_ordered_witness :
  exists prediction,
    fst (predict_step TrainingDemo.batch 0 TrainingDemo.start)
    = Ok prediction
    /\ Forall (Forall (quantile_ordered [1#2; 9#10])) prediction.
Proof.
  eexists. split; [reflexivity|].
  apply (predict_step_ordered TrainingDemo.batch 0 TrainingDemo.start
           TrainingDemo.start _ 1 2).
  - reflexivity.
  - simpl. lia.
  - intros meta v Hv. injection Hv as <-.
    split; [reflexivity|]. repeat constructor.
  - reflexivity.
Defined.

(** X7.  The index of the series names, [id_dict], built from
    [enumerate(id_list)], and the mapping of the names of a batch through
    it.  A name that is found maps to an index at which [id_list] holds
    it, the last such index; a name is not found exactly when it is not in
    [id_list]; in a list without repetitions every position maps back to
    itself.  Mapping the names of a batch gives one index per name, each
    pointing at its name, and raises a [KeyError] exactly when some name
    of the batch is not in [id_list]. *)
Theorem id_dict_round_trip :
  forall (ids : list string),
    (forall name i,
       Forward.id_dict ids 0 name = Some i ->
       ids !! i = Some name
       /\ forall j, (i < j)%nat -> ids !! j <> Some name)
    /\ (forall name, Forward.id_dict ids 0 name = None <-> ~ In name ids)
    /\ (NoDup ids ->
        forall name i,
          ids !! i = Some name -> Forward.id_dict ids 0 name = Some i)
    /\ (forall names ks,
          lookup_all (Forward.id_dict ids 0) names = Ok ks ->
          Forall2 (fun name k => ids !! k = Some name) names ks)
    /\ (forall names,
          lookup_all (Forward.id_dict ids 0) names = Raise "KeyError"
          <-> exists name, In name names /\ ~ In name ids).
Proof.
  intros ids.
  assert (Hsome : forall name i,
            Forward.id_dict ids 0 name = Some i ->
            ids !! i = Some name
            /\ forall j, (i < j)%nat -> ids !! j <> Some name).
  { intros name i Hi. destruct (id_dict_some ids 0 name i Hi)
      as (_ & Hat & Hlast).
    rewrite Nat.sub_0_r in Hat, Hlast. now split. }
  split; [exact Hsome|]. split; [intros name; apply id_dict_none|].
  split; [|split].
  - intros Hnd name i Hat.
    destruct (Forward.id_dict ids 0 name) as [j|] eqn:Hj.
    + destruct (Hsome name j Hj) as [Hat' _].
      f_equal. exact (NoDup_lookup ids j i name Hnd Hat' Hat).
    + apply id_dict_none in Hj. exfalso. apply Hj.
      apply list_elem_of_In. exact (list_elem_of_lookup_2 _ _ _ Hat).
  - intros names ks Hks. apply lookup_all_ok in Hks.
    eapply Forall2_impl; [exact Hks|].
    intros name k Hk. now apply Hsome.
  - intros names. split.
    + intros Hr.
      destruct (proj1 (lookup_all_raise (Forward.id_dict ids 0) names))
        as (name & Hin & Hn); [exists "KeyError"%string; exact Hr|].
      exists name. split; [exact Hin|]. now apply id_dict_none in Hn.
    + intros (name & Hin & Hn).
      destruct (proj2 (lookup_all_raise (Forward.id_dict ids 0) names))
        as [e He].
      { exists name. split; [exact Hin|]. now apply id_dict_none. }
      rewrite He. f_equal. clear -He.
      induction names as [|n names IH]; cbn in He; [discriminate|].
      destruct (Forward.id_dict ids 0 n); [|now injection He].
      destruct (lookup_all (Forward.id_dict ids 0) names); [discriminate|].
      cbn in He. injection He as <-. now apply IH.
Qed.

(** X8.  Setting a stacker.  For one of the four modes,
    [set_components_stacker] returns a model that holds the stacker under
    that mode, whatever was set there before: the last stacker set is the
    one in force.  The stackers of the other modes, and so the forward
    pass in them, are as before.  For any other mode it raises an
    [AssertionError].  And in a mode that has no stacker the forward pass
    ends in an error. *)
Theorem set_components_stacker_lookup :
  forall (stacker : Forward.ComponentStacker) (mode : string)
         (self : Forward.TimeNet),
    (In mode ["train"; "val"; "test"; "predict"]%string ->
     exists self',
       set_components_stacker stacker mode self = Ok self'
       /\ Forward.components_stacker self' mode = Some stacker
       /\ (forall m, m <> mode ->
             Forward.components_stacker self' m
             = Forward.components_stacker self m
             /\ forall input_tensor meta,
                  Forward.forward self' input_tensor m meta
                  = Forward.forward self input_tensor m meta)
       /\ (forall earlier self0,
             set_components_stacker earlier mode self = Ok self0 ->
             exists self1,
               set_components_stacker stacker mode self0 = Ok self1
               /\ forall m,
                    Forward.components_stacker self1 m
                    = Forward.components_stacker self' m))
    /\ (~ In mode ["train"; "val"; "test"; "predict"]%string ->
        set_components_stacker stacker mode self = Raise "AssertionError")
    /\ (Forward.components_stacker self mode = None ->
        forall input_tensor meta,
          Forward.forward self input_tensor mode meta = None).
Proof.
  intros stacker mode self.
  assert (Hmodes : existsb (String.eqb mode)
                     ["train"; "val"; "test"; "predict"]%string = true
                   <-> In mode ["train"; "val"; "test"; "predict"]%string).
  { rewrite existsb_exists. split.
    - intros (m & Hin & Hm). apply String.eqb_eq in Hm. now subst.
    - intros Hin. exists mode. split; [exact Hin|apply String.eqb_refl]. }
  split; [|split].
  - intros Hin. unfold set_components_stacker.
    rewrite (proj2 Hmodes Hin). eexists. split; [reflexivity|].
    split; [cbn; now rewrite String.eqb_refl|]. split.
    + intros m Hm. apply String.eqb_neq in Hm.
      split; [cbn; now rewrite Hm|].
      intros input_tensor meta. unfold Forward.forward.
      cbn [with_components_stacker Forward.components_stacker
           Forward.quantiles Forward.n_forecasts Forward.n_lags
           Forward.meta_used_in_model Forward.id_list Forward.trend
           Forward.config_seasonality Forward.seasonality
           Forward.events_dims_set Forward.event_params_additive
           Forward.event_params_multiplicative Forward.future_regressors
           Forward.ar_net Forward.lagged_regressors_set Forward.covar_net
           Forward.auto_regression Forward.forward_covar_net].
      rewrite Hm. reflexivity.
    + intros earlier self0 [= <-]. eexists. split; [reflexivity|].
      intros m. cbn. now destruct (String.eqb m mode).
  - intros Hout. unfold set_components_stacker.
    destruct (existsb _ _) eqn:He; [|reflexivity].
    exfalso. apply Hout. now apply Hmodes.
  - intros Hst input_tensor meta. unfold Forward.forward. now rewrite Hst.
Qed.

Lemma set_components_stacker_lookup_witness :
  exists self',
    set_components_stacker Demo.stacker "val" Demo.net = Ok self'
    /\ Forward.components_stacker self' "val" = Some Demo.stacker.
Proof.
  destruct (set_components_stacker_lookup Demo.stacker "val" Demo.net)
    as [Hset _].
  destruct Hset as (self' & Hok & Hst & _).
  { right. left. reflexivity. }
  now exists self'.
Defined.

(** X9.  What a training step that returns has assigned and returned.
    It has set [train_progress] to the fraction
    [(current_epoch + batch_idx / steps_per_epoch) / epochs] and stored the
    output of the forward pass in train mode as [train_epoch_prediction];
    and the loss it returns is the one that [loss_func] gives for that
    output at the new [train_progress]. *)
Theorem training_step_updates :
  forall (regs : Loss.Regularizers) (batch : tensor * list string)
         (batch_idx : nat) (w w' : world) (loss : R),
    training_step batch batch_idx w = (Ok loss, w') ->
    let self := the_self w in
    let epoch_float :=
      (INR (current_epoch self)
       + INR batch_idx / INR (train_steps_per_epoch self))%R in
    let progress := (epoch_float / INR (epochs self))%R in
    exists stacker meta v out,
      Forward.components_stacker (net self) "train" = Some stacker
      /\ Forward.forward (net self) (fst batch) "train" meta = Some v
      /\ Loss.train_progress (lossnet (the_self w')) = progress
      /\ train_epoch_prediction (the_self w')
         = Some (Forward.v_prediction_with_quantiles v)
      /\ Loss.loss_func (lossnet (with_train_progress progress self))
           (pw Q2R (Forward.unstack_time stacker (fst batch)))
           (Forward.v_prediction_with_quantiles v)
           (Forward.unstack_features stacker "targets" (fst batch))
         = Ok out
      /\ loss = Loss.out_loss out.
Proof.
  intros regs [inputs_tensor meta] batch_idx w w' loss.
  unfold training_step.
  unfold mbind, training_bind, mret, training_ret, get_self, update_self,
    act, Training.lift; cbn [the_self actions fst snd].
  destruct (train_steps_per_epoch (the_self w)) as [|steps] eqn:Hsteps;
    [discriminate|].
  destruct (epochs (the_self w)) as [|eps] eqn:Hepochs; [discriminate|].
  cbn [pydiv the_self actions fst snd].
  destruct (Forward.components_stacker (net (the_self w)) "train")
    as [stacker|] eqn:Hst; [|discriminate].
  cbn [Py.deref].
  destruct (Forward.meta_used_in_model (net (the_self w)));
    [destruct (lookup_all _ meta) as [names|e]; [|discriminate]|];
    cbn [the_self actions fst snd];
    match goal with
    | |- context [Forward.forward ?n ?i ?m ?x] =>
        destruct (Forward.forward n i m x) as [v|] eqn:Hv; [|discriminate]
    end;
    cbn [of_option lossnet with_train_epoch_prediction];
    match goal with
    | |- context [Loss.loss_func ?l ?t ?p ?g] =>
        destruct (Loss.loss_func l t p g) as [out|] eqn:Hout; [|discriminate]
    end;
    destruct (Loss.finding_lr _); destruct (metrics_enabled _);
    cbn [andb negb the_self actions fst snd];
    intros [= <- <-]; cbn [the_self];
    exists stacker; eexists; exists v, out;
    (split; [reflexivity|]); (split; [exact Hv|]);
    (split; [reflexivity|]); (split; [reflexivity|]);
    (split; [exact Hout|reflexivity]).
Qed.

Lemma training_step_updates_witness :
  exists loss w',
    @training_step LossDemo.regs TrainingDemo.batch 1 TrainingDemo.start
    = (Ok loss, w')
    /\ Loss.train_progress (lossnet (the_self w'))
       = ((INR 0 + INR 1 / INR 4) / INR 10)%R.
Proof.
  destruct (training_step_returns (H := LossDemo.regs) TrainingDemo.batch 1
              TrainingDemo.start) as (loss & w' & Hrun).
  - discriminate.
  - discriminate.
  - discriminate.
  - discriminate.
  - intros p time predicted targets.
    apply loss_func_returns; [discriminate|left; reflexivity].
  - exists loss, w'. split; [exact Hrun|].
    destruct (training_step_updates LossDemo.regs TrainingDemo.batch 1
                TrainingDemo.start w' loss Hrun)
      as (stacker & meta & v & out & _ & _ & Hprogress & _).
    exact Hprogress.
Defined.

(** X10.  Segmenting the output of the AR net and of the covariate net.
    When every row of the net's output has [n_forecasts * n_quantiles]
    entries, [auto_regression] and [forward_covar_net] return a tensor of
    dims (batch, n_forecasts, n_quantiles) whose entry at forecast step [h]
    and quantile [q] is the entry [h * n_quantiles + q] of the row, and
    whose rows flattened again are the net's output. *)
Theorem segmented_net_output :
  forall (self : Forward.TimeNet) (lags : matrix)
         (covariates : list (string * matrix)) (B : nat),
    let nq := length (Forward.quantiles self) in
    let nf := Forward.n_forecasts self in
    let segmented (x : matrix) (out : tensor) :=
      length x = B ->
      Forall (fun r => length r = (nf * nq)%nat) x ->
      shape3 B nf nq out
      /\ map (fun m : list row => concat m) out = x
      /\ forall b h q,
           (h < nf)%nat -> (q < nq)%nat ->
           Forward.entry out b h q
           = (r ← x !! b; r !! (h * nq + q)%nat) in
    segmented (Forward.ar_net self lags) (Forward.auto_regression self lags)
    /\ segmented
         (Forward.covar_net self (Forward.cat1 (map snd covariates)))
         (Forward.forward_covar_net self covariates).
Proof.
  intros self lags covariates B nq nf segmented. subst segmented.
  split; intros HB Hx; cbv beta;
    unfold Forward.auto_regression, Forward.forward_covar_net;
    fold nq nf;
    (split; [now apply view3_shape|]);
    (split; [now apply view3_flat|]);
    intros b h q Hh Hq; now apply view3_entry.
Qed.

Lemma segmented_net_output_witness :
  Forward.entry
    (Forward.auto_regression Demo.net [[1; 2; 3; 4]; [5; 6; 7; 8]]) 1 1 0
  = Some 7.
Proof.
  destruct (segmented_net_output Demo.net [[1; 2; 3; 4]; [5; 6; 7; 8]] [] 2)
    as [Har _].
  destruct Har as (_ & _ & Hentry);
    [reflexivity|repeat constructor|].
  rewrite Hentry; [reflexivity|simpl; lia|simpl; lia].
Defined.

(** ** Regularization and loss: further properties *)

Local Open Scope R_scope.

(** X11.  The delay weight is a switch, not a factor.
    [_add_batch_regularizations] reads it only to compare it with 0: at
    any two values of the progress whose delay weights are both positive
    it returns the same losses, with every term at its full weight. *)
Theorem delay_weight_is_a_switch :
  forall (regs : Regularizers) (self : LossNet) (loss p1 p2 : R),
    0 < get_reg_delay_weight (Loss.config_train self) p1 ->
    0 < get_reg_delay_weight (Loss.config_train self) p2 ->
    _add_batch_regularizations self loss p1
    = _add_batch_regularizations self loss p2.
Proof.
  intros regs self loss p1 p2 H1 H2. unfold _add_batch_regularizations.
  apply gt0_spec in H1, H2. cbv zeta. now rewrite H1, H2.
Qed.

Lemma delay_weight_is_a_switch_witness :
  @_add_batch_regularizations LossDemo.regs LossDemo.local_net 0 (7 / 10)
  = @_add_batch_regularizations LossDemo.regs LossDemo.local_net 0 (9 / 10).
Proof.
  apply (delay_weight_is_a_switch LossDemo.regs LossDemo.local_net).
  - simpl. rewrite Rmax_right by Lra.lra. apply Rmin_glb_lt; Lra.lra.
  - change (0 < get_reg_delay_weight LossDemo.train (9 / 10)).
    rewrite demo_delay_after_end. Lra.lra.
Defined.

(** X12.  Regularization without a configuration that it needs.  When
    the delay weight is positive and the trend configuration is [None], or
    [max_lags] is positive and the AR configuration is [None],
    [_add_batch_regularizations] raises an [AttributeError]; and so does
    [loss_func] when regularization is enabled outside the learning-rate
    search. *)
Theorem regularization_raises :
  forall (regs : Regularizers) (self : LossNet) (loss progress : R),
    let missing :=
      ((0 < max_lags (config_model self))%Z /\ config_ar self = None)
      \/ Loss.config_trend self = None in
    (0 < get_reg_delay_weight (Loss.config_train self) progress ->
     missing ->
     _add_batch_regularizations self loss progress = Raise "AttributeError")
    /\ (reg_enabled self = true -> Loss.finding_lr self = false ->
        0 < get_reg_delay_weight (Loss.config_train self)
              (Loss.train_progress self) ->
        missing ->
        forall time predicted targets,
          loss_func self time predicted targets = Raise "AttributeError").
Proof.
  intros regs self loss progress missing. subst missing.
  assert (Hreg : forall l p,
    0 < get_reg_delay_weight (Loss.config_train self) p ->
    ((0 < max_lags (config_model self))%Z /\ config_ar self = None)
    \/ Loss.config_trend self = None ->
    _add_batch_regularizations self l p = Raise "AttributeError").
  { intros l p Hpos Hm. unfold _add_batch_regularizations. cbv zeta.
    rewrite (proj2 (gt0_spec _) Hpos).
    pose proof (delayed_raises self {| reg_loss := 0; added := [] |}) as Hd.
    destruct (delayed_regularizations self _) as [reg0|e] eqn:Hrun.
    - exfalso. apply Hd in Hm. exact Hm.
    - cbn. f_equal. revert Hrun. unfold delayed_regularizations.
      destruct (0 <? max_lags (config_model self))%Z;
        destruct (config_ar self) as [ar|];
        destruct (Loss.config_trend self) as [ct|]; cbn;
        try destruct (ar_reg_lambda ar); cbn; congruence. }
  split; [apply Hreg|].
  intros Hen Hlr Hpos Hm time predicted targets.
  unfold loss_func. cbv zeta. rewrite Hen, Hlr. cbn. now apply Hreg.
Qed.

Lemma regularization_raises_witness :
  @_add_batch_regularizations LossDemo.regs LossDemoMore.no_trend_net
    0 (9 / 10)
  = Raise "AttributeError".
Proof.
  apply (regularization_raises LossDemo.regs LossDemoMore.no_trend_net
           0 (9 / 10)).
  - change (0 < get_reg_delay_weight LossDemo.train (9 / 10)).
    rewrite demo_delay_after_end. Lra.lra.
  - right. reflexivity.
Defined.

(** X13.  The guards of the five statements under the delay gate.  In a
    run that returns, with [on] for a positive delay weight: the AR term
    is added exactly when [on], [max_lags] is positive and the AR
    configuration has a [reg_lambda] other than [None], whatever its sign;
    the trend term exactly when [on], the trend has changepoints and its
    [trend_reg] is a positive number; one seasonality term per entry of
    [season_params] exactly when [on], the seasonality has dims and its
    [reg_lambda] is a positive number; the events term exactly when [on]
    and events or holidays are configured; the regressors term exactly
    when [on] and regressors are configured. *)
Theorem gated_terms_guards :
  forall (regs : Regularizers) (self : LossNet) (loss progress : R)
         (out : outcome),
    _add_batch_regularizations self loss progress = Ok out ->
    let on := 0 < get_reg_delay_weight (Loss.config_train self) progress in
    (In ar_sparsity (out_added out) <->
     on /\ (0 < max_lags (config_model self))%Z
     /\ exists ar lam,
          config_ar self = Some ar /\ ar_reg_lambda ar = Some lam)
    /\ (In trend_smoothness (out_added out) <->
        on /\ exists ct l,
                Loss.config_trend self = Some ct
                /\ (0 < n_changepoints ct)%Z
                /\ trend_reg ct = Some l /\ 0 < l)
    /\ (forall name,
          In (seasonality_sparsity name) (out_added out) <->
          on /\ season_dims_set self = true
          /\ In name (map fst (season_params self))
          /\ exists cs l,
               Loss.config_seasonality self = Some cs
               /\ Forward.season_reg_lambda cs = Some l /\ 0 < l)
    /\ (In event_sparsity (out_added out) <->
        on /\ (config_events_set self = true
               \/ config_holidays_set self = true))
    /\ (In regressor_sparsity (out_added out) <->
        on /\ regressors_set self = true).
Proof.
  intros regs self loss progress out Hout on. subst on.
  rewrite (regularizations_added self loss progress out Hout).
  set (seasons := map (fun item => seasonality_sparsity (fst item))
                    (season_params self)).
  assert (Hseason : forall name,
            In (seasonality_sparsity name) seasons
            <-> In name (map fst (season_params self))).
  { intros name. subst seasons. rewrite !in_map_iff. split.
    - intros (item & [= <-] & Hin). now exists item.
    - intros (item & <- & Hin). now exists item. }
  assert (Hother : forall t,
            (forall name, t <> seasonality_sparsity name) ->
            ~ In t seasons).
  { intros t Ht Hin. subst seasons. apply in_map_iff in Hin.
    destruct Hin as (item & <- & _). now apply (Ht (fst item)). }
  set (A := if (0 <? max_lags (config_model self))%Z then
              match config_ar self with
              | Some ar => match ar_reg_lambda ar with
                           | Some _ => [ar_sparsity]
                           | None => []
                           end
              | None => []
              end
            else []).
  set (Tr := match Loss.config_trend self with
             | Some ct =>
                 match trend_reg ct with
                 | Some l_trend =>
                     if (0 <? n_changepoints ct)%Z && gt0 l_trend
                     then [trend_smoothness] else []
                 | None => []
                 end
             | None => []
             end).
  set (Se := match Loss.config_seasonality self with
             | Some cs =>
                 match Forward.season_reg_lambda cs with
                 | Some l_season =>
                     if season_dims_set self && gt0 l_season
                     then seasons else []
                 | None => []
                 end
             | None => []
             end).
  set (Ev := if config_events_set self || config_holidays_set self
             then [event_sparsity] else []).
  set (Rg := if regressors_set self then [regressor_sparsity] else []).
  set (L1 := if trend_local_on self then [trend_glocal] else []).
  set (L2 := if seasonality_local_on self then [seasonality_glocal] else []).
  assert (HA : forall t,
            In t A <->
            t = ar_sparsity /\ (0 < max_lags (config_model self))%Z
            /\ exists ar lam,
                 config_ar self = Some ar /\ ar_reg_lambda ar = Some lam).
  { intros t. subst A.
    destruct (0 <? max_lags (config_model self))%Z eqn:Hl.
    - apply Z.ltb_lt in Hl.
      destruct (config_ar self) as [ar|];
        [destruct (ar_reg_lambda ar) as [lam|] eqn:Hlam|]; cbn; split.
      + intros [<-|[]]. split; [reflexivity|]. split; [exact Hl|].
        now exists ar, lam.
      + intros (-> & _). now left.
      + intros [].
      + intros (_ & _ & ar' & lam & [= <-] & Hn). congruence.
      + intros [].
      + intros (_ & _ & ar' & lam & Hn & _). discriminate.
    - apply Z.ltb_ge in Hl. cbn. split; [intros []|].
      intros (_ & Hpos & _). lia. }
  assert (HT : forall t,
            In t Tr <->
            t = trend_smoothness
            /\ exists ct l,
                 Loss.config_trend self = Some ct
                 /\ (0 < n_changepoints ct)%Z
                 /\ trend_reg ct = Some l /\ 0 < l).
  { intros t. subst Tr.
    destruct (Loss.config_trend self) as [ct|].
    - destruct (trend_reg ct) as [l|] eqn:Hl.
      + destruct ((0 <? n_changepoints ct)%Z && gt0 l) eqn:Hg; cbn.
        * apply andb_true_iff in Hg as [Hn Hpos].
          apply Z.ltb_lt in Hn. apply gt0_spec in Hpos. split.
          -- intros [<-|[]]. split; [reflexivity|]. now exists ct, l.
          -- intros (-> & _). now left.
        * split; [intros []|].
          intros (_ & ct' & l' & [= <-] & Hn & Hl' & Hpos).
          rewrite Hl in Hl'. injection Hl' as <-.
          apply Z.ltb_lt in Hn. apply gt0_spec in Hpos.
          rewrite Hn, Hpos in Hg. discriminate.
      + cbn. split; [intros []|].
        intros (_ & ct' & l' & [= <-] & _ & Hl' & _). congruence.
    - cbn. split; [intros []|].
      intros (_ & ct & l & Hn & _). discriminate. }
  assert (HSe : forall t,
            In t Se <->
            In t seasons /\ season_dims_set self = true
            /\ exists cs l,
                 Loss.config_seasonality self = Some cs
                 /\ Forward.season_reg_lambda cs = Some l /\ 0 < l).
  { intros t. subst Se.
    destruct (Loss.config_seasonality self) as [cs|].
    - destruct (Forward.season_reg_lambda cs) as [l|] eqn:Hl.
      + destruct (season_dims_set self && gt0 l) eqn:Hg; cbn.
        * apply andb_true_iff in Hg as [Hd Hpos]. apply gt0_spec in Hpos.
          split.
          -- intros Hin. split; [exact Hin|]. split; [exact Hd|].
             now exists cs, l.
          -- now intros (Hin & _).
        * split; [intros []|].
          intros (_ & Hd & cs' & l' & [= <-] & Hl' & Hpos).
          rewrite Hl in Hl'. injection Hl' as <-.
          apply gt0_spec in Hpos. rewrite Hd, Hpos in Hg. discriminate.
      + cbn. split; [intros []|].
        intros (_ & _ & cs' & l' & [= <-] & Hl' & _). congruence.
    - cbn. split; [intros []|].
      intros (_ & _ & cs & l & Hn & _). discriminate. }
  assert (HEv : forall t,
            In t Ev <->
            t = event_sparsity
            /\ (config_events_set self = true
                \/ config_holidays_set self = true)).
  { intros t. subst Ev.
    destruct (config_events_set self); destruct (config_holidays_set self);
      cbn; intuition (try discriminate; auto). }
  assert (HRg : forall t,
            In t Rg <-> t = regressor_sparsity /\ regressors_set self = true).
  { intros t. subst Rg. destruct (regressors_set self); cbn;
      intuition (try discriminate; auto). }
  assert (HL1 : forall t, In t L1 -> t = trend_glocal).
  { intros t. subst L1. destruct (trend_local_on self); cbn;
      intuition auto. }
  assert (HL2 : forall t, In t L2 -> t = seasonality_glocal).
  { intros t. subst L2. destruct (seasonality_local_on self); cbn;
      intuition auto. }
  assert (Hmember : forall t,
    In t ((if gt0 (get_reg_delay_weight (Loss.config_train self) progress)
           then A ++ Tr ++ Se ++ Ev ++ Rg else []) ++ L1 ++ L2)
    <-> (gt0 (get_reg_delay_weight (Loss.config_train self) progress) = true
         /\ (In t A \/ In t Tr \/ In t Se \/ In t Ev \/ In t Rg))
        \/ In t L1 \/ In t L2).
  { intros t. destruct (gt0 _); rewrite !in_app_iff; cbn;
      intuition discriminate. }
  clearbody A Tr Se Ev Rg L1 L2 seasons.
  assert (Hcases : forall t (P : Prop),
    (In t L1 -> False) -> (In t L2 -> False) ->
    (In t A \/ In t Tr \/ In t Se \/ In t Ev \/ In t Rg <-> P) ->
    (In t ((if gt0 (get_reg_delay_weight (Loss.config_train self) progress)
            then A ++ Tr ++ Se ++ Ev ++ Rg else []) ++ L1 ++ L2)
     <-> 0 < get_reg_delay_weight (Loss.config_train self) progress
         /\ P)).
  { intros t P H1 H2 HP. rewrite Hmember, HP, <- gt0_spec. tauto. }
  split; [|split; [|split; [|split]]]; try intros name;
    (apply Hcases;
     [intros Hin; apply HL1 in Hin; discriminate
     |intros Hin; apply HL2 in Hin; discriminate|]);
    rewrite HA, HT, HSe, HEv, HRg.
  - split.
    + intros [Hin|[Hin|[Hin|[Hin|Hin]]]];
        try (destruct Hin as [Hd _]; discriminate).
      * tauto.
      * destruct Hin as [Hin _]. now apply Hother in Hin.
    + intros Hc. left. tauto.
  - split.
    + intros [Hin|[Hin|[Hin|[Hin|Hin]]]];
        try (destruct Hin as [Hd _]; discriminate).
      * tauto.
      * destruct Hin as [Hin _]. now apply Hother in Hin.
    + intros Hc. right. left. tauto.
  - rewrite <- Hseason. split.
    + intros [Hin|[Hin|[Hin|[Hin|Hin]]]];
        try (destruct Hin as [Hd _]; discriminate).
      tauto.
    + intros (Hd & Hin & Hex). right. right. left. tauto.
  - split.
    + intros [Hin|[Hin|[Hin|[Hin|Hin]]]];
        try (destruct Hin as [Hd _]; discriminate).
      * destruct Hin as [Hin _]. now apply Hother in Hin.
      * tauto.
    + intros Hc. right. right. right. left. tauto.
  - split.
    + intros [Hin|[Hin|[Hin|[Hin|Hin]]]];
        try (destruct Hin as [Hd _]; discriminate).
      * destruct Hin as [Hin _]. now apply Hother in Hin.
      * tauto.
    + intros Hc. right. right. right. right. tauto.
Qed.

Lemma gated_terms_guards_witness :
  exists out,
    @_add_batch_regularizations LossDemo.regs LossDemo.local_net 0 (9 / 10)
    = Ok out
    /\ In trend_smoothness (out_added out)
    /\ In (seasonality_sparsity "weekly") (out_added out).
Proof.
  destruct (regularizations_total (H := LossDemo.regs) LossDemo.local_net
              0 (9 / 10)) as [out Hout].
  { right. split; [discriminate|left; reflexivity]. }
  assert (Hon : 0 < get_reg_delay_weight
                      (Loss.config_train LossDemo.local_net) (9 / 10)).
  { change (0 < get_reg_delay_weight LossDemo.train (9 / 10)).
    rewrite demo_delay_after_end. Lra.lra. }
  exists out. split; [exact Hout|].
  destruct (gated_terms_guards LossDemo.regs LossDemo.local_net 0 (9 / 10)
              out Hout) as (_ & Htrend & Hseason & _).
  split.
  - apply Htrend. split; [exact Hon|]. eexists. exists 1.
    split; [reflexivity|]. split; [reflexivity|].
    split; [reflexivity|Lra.lra].
  - apply Hseason. split; [exact Hon|]. split; [reflexivity|].
    split; [left; reflexivity|]. eexists. exists 1.
    split; [reflexivity|]. split; [reflexivity|Lra.lra].
Defined.

(** X14.  What the recency weights do to a loss.  Take elementwise losses
    that are not negative, over times of the same (batch, horizon) dims,
    an end weight above 1 and a start below 1.  Summing the weighted
    losses over the quantiles gives, at each position, the weight of that
    position times the sum of its losses; and the mean of the weighted
    sums lies between [1 / end_w] times the mean of the plain sums and the
    mean of the plain sums.  This mean is the loss that [loss_func]
    returns when regularization is off. *)
Theorem recency_weighting_bounds :
  forall (regs : Regularizers) (self : LossNet) (time : rmatrix)
         (predicted targets : tensor),
    let end_w := newer_samples_weight (Loss.config_train self) in
    let start_t := newer_samples_start (Loss.config_train self) in
    let plain := train_loss_func (Loss.config_train self) predicted targets in
    let t := map (drop (Loss.n_lags self)) time in
    let weighted :=
      sum_dim2 (bmul plain (_get_time_based_sample_weight self t)) in
    1 < end_w -> start_t < 1 ->
    Forall2 (fun lm tm => length lm = length tm) plain t ->
    Forall (Forall (Forall (Rle 0))) plain ->
    weighted
    = pw2 (fun l x => rsum l * sample_weight end_w start_t x) plain t
    /\ 1 / end_w * mean (sum_dim2 plain) <= mean weighted
       <= mean (sum_dim2 plain)
    /\ (reg_enabled self = false ->
        loss_func self time predicted targets
        = Ok {| out_loss := mean weighted; out_reg_loss := 0;
                out_added := [] |}).
Proof.
  intros regs self time predicted targets end_w start_t plain t weighted
    Hw Hs Hshape Hpos.
  assert (Hweighted : weighted
            = pw2 (fun l x => rsum l * sample_weight end_w start_t x) plain t)
    by apply sum_dim2_bmul.
  split; [exact Hweighted|]. split.
  - rewrite Hweighted. unfold mean, sum_dim2.
    rewrite (concat_pw2_same_shape _ plain t Hshape).
    rewrite (zip_with_split_mult rsum (sample_weight end_w start_t)).
    assert (Hflat : concat (pw rsum plain) = map rsum (concat plain)).
    { unfold pw. clear. induction plain as [|m p IH]; cbn; [reflexivity|].
      now rewrite map_app, IH. }
    rewrite Hflat.
    assert (Hlen : length (map rsum (concat plain))
                   = length (map (sample_weight end_w start_t) (concat t))).
    { rewrite !length_map. now apply length_concat_same_shape. }
    assert (Hnn : Forall (Rle 0) (map rsum (concat plain))).
    { apply Forall_map. apply Forall_concat.
      eapply Forall_impl; [exact Hpos|]. intros m Hm.
      eapply Forall_impl; [exact Hm|]. intros l Hl. cbn.
      now apply rsum_nonneg. }
    assert (Hws : Forall (fun w => 1 / end_w <= w <= 1)
                    (map (sample_weight end_w start_t) (concat t))).
    { apply Forall_map, Forall_forall. intros x _. cbn.
      now apply sample_weight_range. }
    pose proof (rsum_weighted_bounds (1 / end_w) _ _ Hnn Hws Hlen)
      as [Hlo Hhi].
    rewrite length_zip_with, <- Hlen, Nat.min_id.
    set (S_w := rsum (zip_with Rmult _ _)) in *.
    set (S_p := rsum (map rsum (concat plain))) in *.
    destruct (length (map rsum (concat plain))) as [|n] eqn:Hn.
    + apply length_zero_iff_nil in Hn.
      assert (Hp0 : S_p = 0) by (subst S_p; now rewrite Hn).
      assert (Hw0 : S_w = 0).
      { subst S_w. rewrite Hn. reflexivity. }
      rewrite Hp0, Hw0. unfold Rdiv. rewrite !Rmult_0_l, Rmult_0_r.
      split; apply Rle_refl.
    + assert (Hinv : 0 < / INR (S n)).
      { apply Rinv_0_lt_compat. apply lt_0_INR. lia. }
      unfold Rdiv in *. split; Lra.nra.
  - intros Hreg. unfold loss_func. cbv zeta.
    destruct (Rlt_dec 1 (newer_samples_weight (Loss.config_train self)))
      as [_|Hn]; [|contradiction].
    rewrite Hreg. reflexivity.
Qed.

Lemma recency_weighting_bounds_witness :
  1 / 2 * mean (sum_dim2 [[[1; 2]; [3; 4]]])
  <= mean (sum_dim2 (bmul [[[1; 2]; [3; 4]]]
                       (_get_time_based_sample_weight LossDemo.local_net
                          [[0; 1]])))
  <= mean (sum_dim2 [[[1; 2]; [3; 4]]]).
Proof.
  pose proof (recency_weighting_bounds LossDemo.regs LossDemo.local_net
                [[1 / 2; 0; 1]] [[[1; 2]; [3; 4]]]%Q []) as Hb.
  cbv zeta in Hb.
  change (train_loss_func (Loss.config_train LossDemo.local_net)
            [[[1; 2]; [3; 4]]]%Q [])
    with (pw (map Q2R) [[[1; 2]; [3; 4]]]%Q) in Hb.
  assert (Hplain : pw (map Q2R) [[[1; 2]; [3; 4]]]%Q
                   = [[[1; 2]; [3; 4]]]).
  { cbn. repeat f_equal; unfold Q2R; cbn; Lra.lra. }
  rewrite Hplain in Hb.
  apply Hb.
  - simpl. Lra.lra.
  - simpl. Lra.lra.
  - repeat constructor.
  - repeat constructor; Lra.lra.
Defined.

(** ** Construction: further properties *)

Import InitMore.

(** X15.  What a construction that returns has made of the events.  When
    [config_events_to_model_dims] gives entries: [events_dims] holds the
    same events in the same order with the same indices, every one of them
    in the mode additive or multiplicative, the entries that were in one of
    these modes being as they were; the two blocks of event parameters have
    as many columns as there are indices in additive and in multiplicative
    entries, which together are all the indices; without a trend no entry
    is multiplicative; and the event and holiday configurations are kept.
    When it gives [None], there are no event parameters and the two
    configurations are reset to [None]. *)
Theorem construction_events_invariant :
  forall (Events Holidays : Type)
         (config_events_to_model_dims :
            option Events -> option Holidays ->
            option (list (string * EventDims)))
         (args : @Args Events Holidays) (self : Constructed)
         (log : list string),
    __init__ config_events_to_model_dims args [] = (Ok self, log) ->
    match config_events_to_model_dims (config_events args)
            (config_holidays args) with
    | Some items =>
        exists dims,
          events_dims self = Some dims
          /\ Forall (fun item => mode (snd item) = "additive"%string
                                 \/ mode (snd item) = "multiplicative"%string)
               dims
          /\ map fst dims = map fst items
          /\ map (fun item => event_indices (snd item)) dims
             = map (fun item => event_indices (snd item)) items
          /\ (forall event configs,
                In (event, configs) items ->
                mode configs = "additive"%string
                \/ mode configs = "multiplicative"%string ->
                In (event, configs) dims)
          /\ event_params self
             = Some (indices_in_mode "additive" dims,
                     indices_in_mode "multiplicative" dims)
          /\ (indices_in_mode "additive" dims
              + indices_in_mode "multiplicative" dims
              = all_indices items)%nat
          /\ (Init.config_trend args = None ->
              indices_in_mode "multiplicative" dims = 0%nat)
          /\ self_config_events self = config_events args
          /\ self_config_holidays self = config_holidays args
    | None =>
        events_dims self = None /\ event_params self = None
        /\ self_config_events self = None
        /\ self_config_holidays self = None
    end.
Proof.
  intros Events Holidays dims_of args self log Hrun.
  rewrite init_blocks in Hrun.
  destruct (Init.config_train args); [|discriminate].
  destruct (seasonality_checks args []) as [[[]|e] log1]; [|discriminate].
  destruct (events_block dims_of args log1) as [[self'|e] log2] eqn:Hev;
    [|discriminate].
  destruct (Init.config_regressors args); [|discriminate].
  injection Hrun as <- <-.
  apply events_block_ok in Hev.
  destruct (dims_of (config_events args) (config_holidays args))
    as [items|]; [|exact Hev].
  destruct Hev as (Hdims & Hparams & Hce & Hch & Hmult).
  exists (map coerced items).
  assert (Hknown : Forall (fun item => known_mode (mode (snd item)) = true)
                     (map coerced items)).
  { apply Forall_map, Forall_forall. intros item _. apply coerced_known. }
  split; [exact Hdims|]. split.
  { eapply Forall_impl; [exact Hknown|]. intros item Hk.
    now apply known_mode_spec. }
  split.
  { rewrite map_map. apply map_ext. intros item.
    now destruct (coerced_frame item). }
  split.
  { rewrite map_map. apply map_ext. intros item.
    now destruct (coerced_frame item). }
  split.
  { intros event configs Hin Hk. apply known_mode_spec in Hk.
    apply in_map_iff. exists (event, configs). split; [|exact Hin].
    unfold coerced. cbn [snd]. now rewrite Hk. }
  split; [exact Hparams|]. split.
  { rewrite (indices_partition _ Hknown). apply all_indices_coerced. }
  split; [|now split].
  intros Htr. apply no_multiplicative_indices. now apply Hmult.
Qed.

Lemma construction_events_invariant_witness :
  exists self log,
    __init__ (InitDemo.dims_of true) (InitDemo.args "additive" true) []
    = (Ok self, log)
    /\ event_params self = Some (3%nat, 1%nat).
Proof.
  eexists. eexists. split; [reflexivity|].
  pose proof (construction_events_invariant unit unit (InitDemo.dims_of true)
                (InitDemo.args "additive" true) _ _ eq_refl) as Hinv.
  cbn [InitDemo.dims_of] in Hinv.
  destruct Hinv as (dims & Hdims & _ & _ & _ & _ & Hparams & _).
  injection Hdims as <-. exact Hparams.
Defined.



(** ** The nets built by the constructor: further properties *)

Import Nets.
Local Open Scope nat_scope.

(** X17.  The AR net.  Without lags none is built.  With lags it is a
    linear layer with bias and a ReLU per hidden size, followed by one
    linear layer without bias; the sizes fit from layer to layer, so that
    the net takes vectors of [n_lags] entries to vectors of
    [n_forecasts * n_quantiles] entries; the weight that [ar_weights]
    returns, that of the first linear layer, has [n_lags] columns; and the
    loop after the construction initializes one weight per hidden size and
    one more. *)
Theorem ar_net_structure :
  forall (n_lags : nat) (ar_layers : list nat) (n_forecasts n_quantiles : nat),
    (n_lags = 0%nat ->
     ar_net_layers n_lags ar_layers n_forecasts n_quantiles = None)
    /\ ((0 < n_lags)%nat ->
        exists hidden net,
          ar_net_layers n_lags ar_layers n_forecasts n_quantiles = Some net
          /\ net = hidden
                   ++ [Linear (default n_lags (last ar_layers))
                         (n_forecasts * n_quantiles) false]
          /\ length hidden = (2 * length ar_layers)%nat
          /\ Forall (fun lay => match lay with
                                | Linear _ _ bias => bias = true
                                | ReLU => True
                                end) hidden
          /\ output_size n_lags net = Some (n_forecasts * n_quantiles)%nat
          /\ ar_weights_shape net
             = Some (hd (n_forecasts * n_quantiles)%nat ar_layers, n_lags)
          /\ length (initialized net) = (length ar_layers + 1)%nat).
Proof.
  intros n_lags ar_layers nf nq. unfold ar_net_layers. split.
  - now intros ->.
  - intros Hpos. replace (0 <? n_lags)%nat with true
      by (symmetry; now apply Nat.ltb_lt).
    destruct (hidden_layers n_lags ar_layers) as [hidden d_last] eqn:Hh.
    pose proof (hidden_layers_length ar_layers n_lags) as Hlen.
    pose proof (hidden_layers_last ar_layers n_lags) as Hlast.
    pose proof (hidden_layers_bias ar_layers n_lags) as Hbias.
    pose proof (hidden_layers_output ar_layers n_lags
                  [Linear d_last (nf * nq) false]) as Hout.
    pose proof (hidden_layers_first ar_layers n_lags (nf * nq)) as Hfirst.
    pose proof (hidden_layers_initialized ar_layers n_lags
                  [Linear d_last (nf * nq) false]) as Hinit.
    rewrite Hh in *. cbn [fst snd] in *. subst d_last.
    exists hidden. eexists. split; [reflexivity|]. split; [reflexivity|].
    split; [exact Hlen|]. split; [exact Hbias|]. split.
    { rewrite Hout. cbn. now rewrite Nat.eqb_refl. }
    split; [exact Hfirst|]. rewrite Hinit. reflexivity.
Qed.

Lemma ar_net_structure_witness :
  ar_net_layers 3 [8; 4] 2 3
  = Some [Linear 3 8 true; ReLU; Linear 8 4 true; ReLU; Linear 4 6 false]
  /\ output_size 3
       [Linear 3 8 true; ReLU; Linear 8 4 true; ReLU; Linear 4 6 false]
     = Some 6%nat.
Proof.
  destruct (ar_net_structure 3 [8; 4] 2 3) as [_ Hnet].
  destruct Hnet as (hidden & net & Hsome & _ & _ & _ & Hout & _); [lia|].
  cbn in Hsome. injection Hsome as <-. now split.
Defined.

(** X18.  The covariate net and its input.  It is built exactly when
    lagged regressors are configured; its first layer takes vectors with
    one entry per lag of every lagged regressor, and it returns vectors of
    [n_forecasts * n_quantiles] entries.  Covariates of one batch size that
    have, regressor by regressor, the configured numbers of lags are
    concatenated by [forward_covar_net] into rows of exactly the size that
    the net takes. *)
Theorem covar_net_structure :
  forall (config : option LaggedRegressors) (n_forecasts n_quantiles : nat),
    (config = None \/ (exists c, config = Some c /\ regressors c = None) ->
     covar_net_layers config n_forecasts n_quantiles = None)
    /\ (forall c regs,
          config = Some c -> regressors c = Some regs ->
          let d_inputs := list_sum (map snd regs) in
          exists net,
            covar_net_layers config n_forecasts n_quantiles = Some net
            /\ length net = (2 * length (layers c) + 1)%nat
            /\ output_size d_inputs net
               = Some (n_forecasts * n_quantiles)%nat
            /\ ar_weights_shape net
               = Some (hd (n_forecasts * n_quantiles)%nat (layers c),
                       d_inputs)
            /\ forall (covariates : list (string * matrix)) (B : nat),
                 covariates <> [] ->
                 Forall2 (fun covar reg =>
                            length (snd covar) = B
                            /\ Forall (fun r => length r = snd reg)
                                 (snd covar))
                   covariates regs ->
                 length (Forward.cat1 (map snd covariates)) = B
                 /\ Forall (fun r => output_size (length r) net
                                     = Some (n_forecasts * n_quantiles)%nat)
                      (Forward.cat1 (map snd covariates))).
Proof.
  intros config nf nq. unfold covar_net_layers. split.
  - intros [->|(c & -> & ->)]; reflexivity.
  - intros c regs -> Hregs. cbv zeta. rewrite Hregs.
    set (d_inputs := list_sum (map snd regs)).
    destruct (hidden_layers d_inputs (layers c)) as [hidden d_last] eqn:Hh.
    pose proof (hidden_layers_length (layers c) d_inputs) as Hlen.
    pose proof (hidden_layers_output (layers c) d_inputs
                  [Linear d_last (nf * nq) false]) as Hout.
    pose proof (hidden_layers_first (layers c) d_inputs (nf * nq)) as Hfirst.
    rewrite Hh in *. cbn [fst snd] in *.
    assert (Hsize : output_size d_inputs
                      (hidden ++ [Linear d_last (nf * nq) false])
                    = Some (nf * nq)%nat).
    { rewrite Hout. cbn. now rewrite Nat.eqb_refl. }
    eexists. split; [reflexivity|]. split.
    { rewrite length_app, Hlen. cbn. lia. }
    split; [exact Hsize|]. split; [exact Hfirst|].
    intros covariates B Hne Hall.
    destruct (cat1_shape B (map snd covariates) (map snd regs))
      as [HB Hrows].
    { now destruct covariates. }
    { apply Forall2_fmap. eapply Forall2_impl; [exact Hall|].
      now intros covar reg. }
    split; [exact HB|]. eapply Forall_impl; [exact Hrows|].
    intros r Hr. cbn beta. rewrite Hr. exact Hsize.
Qed.

Lemma covar_net_structure_witness :
  exists net,
    covar_net_layers
      (Some {| regressors := Some [("temp"%string, 2%nat);
                                   ("rain"%string, 3%nat)];
               layers := [4%nat] |}) 2 3
    = Some net
    /\ output_size 5 net = Some 6%nat.
Proof.
  destruct (covar_net_structure
              (Some {| regressors := Some [("temp"%string, 2%nat);
                                           ("rain"%string, 3%nat)];
                       layers := [4%nat] |}) 2 3) as [_ Hnet].
  destruct (Hnet _ _ eq_refl eq_refl) as (net & Hsome & _ & Hout & _).
  exists net. split; [exact Hsome|exact Hout].
Defined.

(** X19.  [get_covar_weights] returns [None] without lagged regressors.
    With them it returns one block of columns of the attributions per
    lagged regressor, under the regressor's name and in the order of the
    configuration (names are the keys of a dict, hence distinct): the
    block of a regressor starts at the column where the lags of the
    regressors before it end; it has the regressor's number of lags as its
    number of columns, except for the last block, which takes all the
    columns that are left.  The blocks put side by side again (as
    [forward_covar_net] does with the covariates) are the attributions;
    and when the attributions have one column per lag of every regressor,
    every block has as many columns as its regressor has lags. *)
Theorem covar_weights_blocks :
  forall (config_lagged_regressors : option LaggedRegressors)
         (first_weight interpreted : Tensor.matrix),
    (config_lagged_regressors = None
     \/ (exists c, config_lagged_regressors = Some c /\ regressors c = None) ->
     get_covar_weights config_lagged_regressors first_weight interpreted
     = None)
    /\ (forall c regs,
          config_lagged_regressors = Some c -> regressors c = Some regs ->
          let attributions :=
            match layers c with
            | [] => first_weight
            | _ :: _ => interpreted
            end in
          let start k := list_sum (take k (map snd regs)) in
          exists covar_attributions,
            get_covar_weights config_lagged_regressors first_weight
              interpreted = Some covar_attributions
            /\ map fst covar_attributions = map fst regs
            /\ (forall k name n,
                  regs !! k = Some (name, n) ->
                  covar_attributions !! k
                  = Some (name,
                          map (fun r =>
                                 if S k =? length regs then drop (start k) r
                                 else take n (drop (start k) r))
                            attributions))
            /\ (regs <> [] ->
                Forward.cat1 (map snd covar_attributions) = attributions)
            /\ (Forall (fun r => length r = list_sum (map snd regs))
                  attributions ->
                forall k name n,
                  regs !! k = Some (name, n) ->
                  covar_attributions !! k
                  = Some (name,
                          map (fun r => take n (drop (start k) r))
                            attributions)
                  /\ Forall (fun r => length (take n (drop (start k) r)) = n)
                       attributions)).
Proof.
  intros config first_weight interpreted. unfold get_covar_weights. split.
  { intros [->|(c & -> & ->)]; reflexivity. }
  intros c regs -> Hregs. cbv zeta. rewrite Hregs.
  set (attributions := match layers c with
                       | [] => first_weight
                       | _ :: _ => interpreted
                       end).
  eexists. split; [reflexivity|].
  assert (Hblock : forall k name n,
            regs !! k = Some (name, n) ->
            zip (map fst regs)
              (tensor_split attributions
                 (accumulate (but_last (map snd regs)))) !! k
            = Some (name,
                    map (fun r =>
                           if S k =? length regs
                           then drop (list_sum (take k (map snd regs))) r
                           else take n
                                  (drop (list_sum (take k (map snd regs))) r))
                      attributions)).
  { intros k name n Hk.
    destruct regs as [|reg0 regs0] using rev_ind; [discriminate|]. clear IHregs0.
    rewrite (map_app snd). cbn [map]. rewrite but_last_snoc.
    rewrite length_app. cbn [length].
    assert (Hlt : k <= length regs0).
    { apply lookup_lt_Some in Hk. rewrite length_app in Hk. cbn in Hk. lia. }
    apply lookup_zip_Some. split; [now rewrite list_lookup_fmap, Hk|].
    rewrite tensor_split_lookup
      by (unfold accumulate; rewrite accumulate_from_length, length_map; lia).
    f_equal. apply map_ext. intros r.
    rewrite nth_lookup. unfold accumulate.
    rewrite take_app_le by (rewrite length_map; lia).
    destruct (Nat.eqb_spec (S k) (length regs0 + 1)) as [Hlast|Hnot].
    - assert (k = length (map snd regs0)) as Hkl
        by (rewrite length_map; lia).
      rewrite Hkl at 1. rewrite split_row_last. cbn [default].
      rewrite Hkl, take_ge by lia. reflexivity.
    - assert (Hk' : map snd regs0 !! k = Some n).
      { rewrite lookup_app_l in Hk by lia.
        rewrite list_lookup_fmap, Hk. reflexivity. }
      rewrite (split_row_lookup _ _ _ _ _ Hk'). reflexivity. }
  split; [|split; [exact Hblock|split]].
  - apply fst_zip. rewrite tensor_split_length. unfold accumulate.
    rewrite accumulate_from_length, length_map. unfold but_last.
    rewrite length_take, !length_map. lia.
  - intros Hne. rewrite snd_zip; [apply cat1_tensor_split|].
    rewrite tensor_split_length. unfold accumulate.
    rewrite accumulate_from_length, length_map. unfold but_last.
    rewrite length_take, !length_map. destruct regs; [contradiction|].
    cbn [length]. lia.
  - intros Hwidth k name n Hk.
    assert (Hn : map snd regs !! k = Some n)
      by (rewrite list_lookup_fmap, Hk; reflexivity).
    rewrite (Hblock _ _ _ Hk). split.
    + f_equal. f_equal. apply Forall_fmap_ext_1.
      eapply Forall_impl; [exact Hwidth|]. intros r Hr. cbn beta.
      destruct (Nat.eqb_spec (S k) (length regs)) as [Hlast|_];
        [|reflexivity].
      apply (piece_length _ _ _ _ Hn Hr). now rewrite length_map.
    + eapply Forall_impl; [exact Hwidth|]. intros r Hr. cbn beta.
      apply (piece_length _ _ _ _ Hn Hr).
Qed.

Lemma covar_weights_blocks_witness :
  get_covar_weights
    (Some {| regressors := Some [("temp"%string, 2%nat);
                                 ("rain"%string, 3%nat)];
             layers := [] |})
    [[1; 2; 3; 4; 5]; [6; 7; 8; 9; 10]]%Q []
  = Some [("temp"%string, [[1; 2]; [6; 7]]%Q);
          ("rain"%string, [[3; 4; 5]; [8; 9; 10]]%Q)].
Proof.
  destruct (covar_weights_blocks
              (Some {| regressors := Some [("temp"%string, 2%nat);
                                           ("rain"%string, 3%nat)];
                       layers := [] |})
              [[1; 2; 3; 4; 5]; [6; 7; 8; 9; 10]]%Q []) as [_ Hsome].
  destruct (Hsome _ _ eq_refl eq_refl) as (dict & Hrun & _).
  rewrite Hrun. f_equal. cbn in Hrun. now injection Hrun as <-.
Defined.

(** ** The components: further properties *)

Import Components.
Local Open Scope Q_scope.

(** X20.  The flag [include_components].  [set_compute_components]
    followed by [reset_compute_components] restores the flag, and a second
    reset changes nothing.  The previous value is kept in one attribute,
    not on a stack: after two sets and two resets the flag has the value
    of the first set, not the one from before.  On a model that
    [set_compute_components] was never called on, the reset raises
    [AttributeError], since the constructor does not assign
    [prev_include_components]. *)
Theorem compute_components_flag_round_trip :
  forall (self : Flags) (first second : bool),
    (exists restored,
       reset_compute_components (set_compute_components first self)
       = Py.Ok restored
       /\ include_components restored = include_components self
       /\ reset_compute_components restored = Py.Ok restored)
    /\ (exists once twice,
          reset_compute_components
            (set_compute_components second
               (set_compute_components first self)) = Py.Ok once
          /\ reset_compute_components once = Py.Ok twice
          /\ include_components once = first
          /\ include_components twice = first)
    /\ reset_compute_components constructed = Py.Raise "AttributeError".
Proof.
  intros self first second. split; [|split; [|reflexivity]].
  - eexists. split; [reflexivity|]. split; reflexivity.
  - eexists. eexists. split; [reflexivity|]. split; [reflexivity|].
    split; reflexivity.
Qed.

(** X21.  The components of the events add up.  Take a model with events
    or holidays configured, feature tensors of the events with [Fa]
    additive and [Fm] multiplicative columns, parameters with as many
    columns, and the raw components as [forward] assigns them (the effects
    of all columns).  When the indices of the events in additive mode are
    together every additive column once, and those of the other events
    every multiplicative column once, the events part of
    [compute_components] returns: it assigns the two totals over the
    forecast window and then one component per event, named after the
    event, in the order of [events_dims]; and at every entry the components
    of the events in additive mode add up to the additive total, and those
    of the other events to the multiplicative total. *)
Theorem event_components_add_up :
  forall (self : Forward.TimeNet)
         (config_events_set config_holidays_set : bool)
         (events_dims : list (string * Init.EventDims))
         (time_input : Tensor.matrix)
         (additive_events_input multiplicative_events_input : Tensor.tensor)
         (components_raw : string -> option Tensor.tensor) (Fa Fm : nat),
    let indices_in (additive : bool) :=
      concat
        (map (fun item => Init.event_indices (snd item))
           (List.filter
              (fun item =>
                 Bool.eqb (String.eqb (Init.mode (snd item)) "additive")
                   additive)
              events_dims)) in
    config_events_set || config_holidays_set = true ->
    components_raw "additive_events"%string
    = Some (Forward.scalar_features_effects additive_events_input
              (Forward.event_params_additive self)) ->
    components_raw "multiplicative_events"%string
    = Some (Forward.scalar_features_effects multiplicative_events_input
              (Forward.event_params_multiplicative self)) ->
    Forall (Forall (fun r => length r = Fa)) additive_events_input ->
    Forall (fun r => length r = Fa) (Forward.event_params_additive self) ->
    Forall (Forall (fun r => length r = Fm)) multiplicative_events_input ->
    Forall (fun r => length r = Fm)
      (Forward.event_params_multiplicative self) ->
    Permutation (indices_in true) (seq 0 Fa) ->
    Permutation (indices_in false) (seq 0 Fm) ->
    exists events_additive events_multiplicative events,
      compute_components_events self config_events_set config_holidays_set
        (Some events_dims) time_input (Some additive_events_input)
        (Some multiplicative_events_input) components_raw
      = Py.Ok ([("events_additive"%string, events_additive);
                ("events_multiplicative"%string, events_multiplicative)]
               ++ events)
      /\ map fst events
         = map (fun item => ("event_" ++ fst item)%string) events_dims
      /\ (forall b h q total,
            Forward.entry events_additive b h q = Some total ->
            exists parts,
              Forall2 (fun c v => Forward.entry c b h q = Some v)
                (components_in true events_dims events) parts
              /\ foldr Qplus 0 parts == total)
      /\ (forall b h q total,
            Forward.entry events_multiplicative b h q = Some total ->
            exists parts,
              Forall2 (fun c v => Forward.entry c b h q = Some v)
                (components_in false events_dims events) parts
              /\ foldr Qplus 0 parts == total).
Proof.
  intros self ce ch events_dims time_input fa fm raw Fa Fm indices_in
    Hset Hra Hrm Hfa Hpa Hfm Hpm Hperma Hpermm.
  assert (Hin : Forall (fun item =>
                  Forall (fun i =>
                            (i < if String.eqb (Init.mode (snd item))
                                      "additive"
                                 then Fa else Fm)%nat)
                    (Init.event_indices (snd item))) events_dims).
  { apply Forall_forall. intros item Hitem. apply Forall_forall. intros i Hi.
    apply list_elem_of_In in Hitem, Hi.
    assert (Hmem : forall additive,
              String.eqb (Init.mode (snd item)) "additive" = additive ->
              In i (indices_in additive)).
    { intros additive Hmode. apply in_concat.
      exists (Init.event_indices (snd item)). split; [|exact Hi].
      apply in_map_iff. exists item. split; [reflexivity|].
      apply filter_In. split; [exact Hitem|]. rewrite Hmode.
      now destruct additive. }
    destruct (String.eqb (Init.mode (snd item)) "additive") eqn:Hmode.
    - pose proof (Permutation_in _ Hperma (Hmem true eq_refl)) as Hs.
      apply in_seq in Hs. lia.
    - pose proof (Permutation_in _ Hpermm (Hmem false eq_refl)) as Hs.
      apply in_seq in Hs. lia. }
  pose proof (compute_components_events_run self ce ch events_dims
                time_input fa fm _ _ raw Fa Fm Hset Hra Hrm Hfa Hpa Hfm Hpm
                Hin) as Hrun.
  cbv zeta in Hrun. rewrite !tslice_effects in Hrun.
  eexists. eexists. eexists. split; [exact Hrun|]. split.
  { rewrite map_map. reflexivity. }
  assert (Hcomps : forall additive,
            components_in additive events_dims
              (map (fun item =>
                      (("event_" ++ fst item)%string,
                       if String.eqb (Init.mode (snd item)) "additive" then
                         Forward.scalar_features_effects
                           (Tensor.pw (select (Init.event_indices (snd item)))
                              (Forward.tslice (Forward.n_lags self)
                                 (Forward.shape1 time_input) fa))
                           (map (select (Init.event_indices (snd item)))
                              (Forward.event_params_additive self))
                       else
                         Forward.scalar_features_effects
                           (Tensor.pw (select (Init.event_indices (snd item)))
                              (Forward.tslice (Forward.n_lags self)
                                 (Forward.shape1 time_input) fm))
                           (map (select (Init.event_indices (snd item)))
                              (Forward.event_params_multiplicative self))))
                 events_dims)
            = map (fun item =>
                     Forward.scalar_features_effects
                       (Tensor.pw (select (Init.event_indices (snd item)))
                          (Forward.tslice (Forward.n_lags self)
                             (Forward.shape1 time_input)
                             (if additive then fa else fm)))
                       (map (select (Init.event_indices (snd item)))
                          (if additive
                           then Forward.event_params_additive self
                           else Forward.event_params_multiplicative self)))
                (List.filter
                   (fun item =>
                      Bool.eqb
                        (String.eqb (Init.mode (snd item)) "additive")
                        additive)
                   events_dims)).
  { intros additive. unfold components_in.
    rewrite (filter_zip_map
               (fun item : string * Init.EventDims =>
                  Bool.eqb (String.eqb (Init.mode (snd item)) "additive")
                    additive)).
    rewrite map_map. apply map_ext_in. intros item Hitem.
    apply filter_In in Hitem as [_ Hmode]. cbn [fst snd].
    destruct (String.eqb (Init.mode (snd item)) "additive"), additive;
      try discriminate; reflexivity. }
  split; intros b h q total Htotal.
  - rewrite (Hcomps true).
    apply (effects_partition _ events_dims _ _ Fa b h q total);
      [now apply tslice_widths|exact Hpa|exact Hperma|exact Htotal].
  - rewrite (Hcomps false).
    apply (effects_partition _ events_dims _ _ Fm b h q total);
      [now apply tslice_widths|exact Hpm|exact Hpermm|exact Htotal].
Qed.

Lemma event_components_add_up_witness :
  exists events_additive events_multiplicative events,
    compute_components_events ComponentsDemo.net true false
      (Some ComponentsDemo.events_dims) ComponentsDemo.time_input
      (Some ComponentsDemo.additive_events_input)
      (Some ComponentsDemo.multiplicative_events_input)
      ComponentsDemo.components_raw
    = Py.Ok ([("events_additive"%string, events_additive);
              ("events_multiplicative"%string, events_multiplicative)]
             ++ events)
    /\ map fst events
       = ["event_easter"; "event_sale"; "event_fair"]%string.
Proof.
  destruct (event_components_add_up ComponentsDemo.net true false
              ComponentsDemo.events_dims ComponentsDemo.time_input
              ComponentsDemo.additive_events_input
              ComponentsDemo.multiplicative_events_input
              ComponentsDemo.components_raw 3 1)
    as (ea & em & events & Hrun & Hnames & _).
  - reflexivity.
  - reflexivity.
  - reflexivity.
  - repeat constructor.
  - repeat constructor.
  - repeat constructor.
  - repeat constructor.
  - cbn. apply perm_skip, perm_swap.
  - cbn. apply Permutation_refl.
  - exists ea, em, events. split; [exact Hrun|exact Hnames].
Defined.

(** X22.  [scalar_features_effects] with [indices], on features and
    parameters with [F] columns.  With all indices in range it returns,
    and its entry at batch [b], time [h] and quantile [q] is the sum over
    the indices [i] of feature [i] at ([b], [h]) times parameter [i] of
    quantile [q]; an index that occurs twice counts twice.  With an index
    out of range it raises [IndexError].  With the indices [0 .. F-1] it
    returns what it returns without indices. *)
Theorem scalar_features_effects_indices :
  forall (features : Tensor.tensor) (params : Tensor.matrix)
         (indices : list nat) (F : nat),
    Forall (Forall (fun r => length r = F)) features ->
    Forall (fun r => length r = F) params ->
    (Forall (fun i => (i < F)%nat) indices ->
     exists out,
       scalar_features_effects features params (Some indices) = Py.Ok out
       /\ forall b h q feat prow,
            features !! b ≫= (fun m => m !! h) = Some feat ->
            params !! q = Some prow ->
            Forward.entry out b h q
            = Some (foldr Qplus 0
                      (map (fun i => nth i feat 0 * nth i prow 0) indices)))
    /\ (params <> [] ->
        Exists (fun i => (F <= i)%nat) indices ->
        scalar_features_effects features params (Some indices)
        = Py.Raise "IndexError")
    /\ scalar_features_effects features params (Some (seq 0 F))
       = scalar_features_effects features params None.
Proof.
  intros features params indices F Hf Hp. split; [|split].
  - intros Hin. eexists. split.
    { exact (scalar_features_effects_ok _ _ _ F Hf Hp Hin). }
    intros b h q feat prow Hfeat Hprow.
    rewrite <- dot_select. apply entry_effects.
    + unfold Tensor.pw. rewrite list_lookup_fmap.
      destruct (features !! b) as [m|]; [|discriminate]. cbn in *.
      rewrite list_lookup_fmap, Hfeat. reflexivity.
    + rewrite list_lookup_fmap, Hprow. reflexivity.
  - intros Hne Hex. unfold scalar_features_effects.
    destruct (index_features indices features) as [t|e] eqn:Ht; cbn.
    + now rewrite (index_columns_raises _ _ F Hne Hp Hex).
    + now rewrite (index_features_raise _ _ _ Ht).
  - rewrite (scalar_features_effects_ok _ _ _ F Hf Hp)
      by (apply Forall_forall; intros i Hi; apply elem_of_seq in Hi; lia).
    unfold scalar_features_effects. cbn. f_equal. f_equal.
    + unfold Tensor.pw. rewrite <- (map_id features) at 2.
      apply Forall_fmap_ext_1. eapply Forall_impl; [exact Hf|].
      intros m Hm. cbn beta. rewrite <- (map_id m) at 2.
      apply Forall_fmap_ext_1. eapply Forall_impl; [exact Hm|].
      intros r <-. apply select_all.
    + rewrite <- (map_id params) at 2.
      apply Forall_fmap_ext_1. eapply Forall_impl; [exact Hp|].
      intros r <-. apply select_all.
Qed.

Lemma scalar_features_effects_indices_witness :
  scalar_features_effects [[[1; 0; 2]; [0; 1; 1]]] [[1; 2; 3]; [0; 1; 0]]
    (Some [3%nat])
  = Py.Raise "IndexError".
Proof.
  apply (scalar_features_effects_indices [[[1; 0; 2]; [0; 1; 1]]]
           [[1; 2; 3]; [0; 1; 0]] [3%nat] 3).
  - repeat constructor.
  - repeat constructor.
  - discriminate.
  - constructor. lia.
Defined.

(** ** The components of the lagged regressors: their shares *)

Import Attribution.

(** X23.  The components of the lagged regressors, for a model with lagged
    regressors, a batch with covariates and the raw component of the
    covariate net.  Without attributions, which the constructor does not
    set, [compute_components] raises [AttributeError].  With attributions
    for the covariates of the batch, one matrix of
    [n_forecasts * n_quantiles] rows per covariate, whose row sums do not
    add up to zero at any row, it returns one component per covariate,
    named after it; at every entry the component is to the raw component
    as the covariate's row sum is to the sum over all covariates, and the
    components add up to the raw component. *)
Theorem lagged_regressor_components_add_up :
  forall (self : Forward.TimeNet)
         (covar_weights covariates_input : list (string * Tensor.matrix))
         (components_raw : string -> option Tensor.tensor)
         (all_covariates : Tensor.tensor),
    let nq := length (Forward.quantiles self) in
    let N := (Forward.n_forecasts self * nq)%nat in
    let total j :=
      foldr Qplus 0 (map (fun p => nth j (sum_axis1 (snd p)) 0) covar_weights)
    in
    Forward.lagged_regressors_set self = true ->
    components_raw "covariates"%string = Some all_covariates ->
    compute_components_lagged_regressors self None (Some covariates_input)
      components_raw = Py.Raise "AttributeError"
    /\ (covar_weights <> [] ->
        NoDup (map fst covar_weights) ->
        map fst covariates_input = map fst covar_weights ->
        Forall (fun p => length (snd p) = N) covar_weights ->
        (forall j, (j < N)%nat -> ~ total j == 0) ->
        exists components,
          compute_components_lagged_regressors self (Some covar_weights)
            (Some covariates_input) components_raw = Py.Ok components
          /\ map fst components
             = map (fun p => ("lagged_regressor_" ++ fst p)%string)
                 covariates_input
          /\ forall b h q x,
               (h < Forward.n_forecasts self)%nat -> (q < nq)%nat ->
               Forward.entry all_covariates b h q = Some x ->
               exists parts,
                 Forall2 (fun c v => Forward.entry (snd c) b h q = Some v)
                   components parts
                 /\ Forall2
                      (fun p v =>
                         v * total (h * nq + q)%nat
                         == x * nth (h * nq + q) (sum_axis1 (snd p)) 0)
                      covar_weights parts
                 /\ foldr Qplus 0 parts == x).
Proof.
  intros self attrs inputs raw all_cov nq N total Hset Hraw.
  subst total. cbv beta.
  unfold compute_components_lagged_regressors. rewrite Hset.
  unfold Components.item. rewrite Hraw. cbn [mbind Py.result_bind Py.rbind].
  split; [reflexivity|].
  intros Hne Hnd Hnames Hrows Hnz.
  cbn [Py.deref mbind Py.result_bind Py.rbind].
  destruct attrs as [|first rest] eqn:Hattrs; [contradiction|].
  rewrite <- Hattrs in *. clear Hne.
  assert (Hsums : map (fun p => sum_axis1 (snd p)) attrs
                  = sum_axis1 (snd first)
                    :: map (fun p => sum_axis1 (snd p)) rest)
    by now rewrite Hattrs.
  rewrite Hsums. cbn [reduce_add mbind Py.result_bind Py.rbind hd tail].
  set (sum_per_forecast :=
         fold_left (zip_with Qplus)
           (map (fun p => sum_axis1 (snd p)) rest)
           (sum_axis1 (snd first))).
  assert (Hlens : Forall (fun p => length (sum_axis1 (snd p)) = N) attrs).
  { eapply Forall_impl; [exact Hrows|]. intros p Hp. cbn beta.
    unfold sum_axis1. now rewrite length_map. }
  destruct (reduce_add_entries
              (map (fun p => sum_axis1 (snd p)) rest) N
              (sum_axis1 (snd first))) as [Hlen Hentries].
  { rewrite Hattrs in Hlens. now apply Forall_cons in Hlens as [? _]. }
  { rewrite Hattrs in Hlens. apply Forall_cons in Hlens as [_ Hl].
    now apply Forall_fmap. }
  fold sum_per_forecast in Hlen, Hentries.
  assert (Htotal : forall j, (j < N)%nat ->
            nth j sum_per_forecast 0
            == foldr Qplus 0
                 (map (fun p => nth j (sum_axis1 (snd p)) 0) attrs)).
  { intros j Hj. rewrite (Hentries j Hj), Hattrs.
    cbn [map foldr]. rewrite map_map. reflexivity. }
  set (component := fun p : string * Tensor.matrix =>
         (("lagged_regressor_" ++ fst p)%string,
          multiply all_cov
            (map (fun i => take nq (drop (i * nq)
                                      (zip_with Qdiv (sum_axis1 (snd p))
                                         sum_per_forecast)))
               (seq 0 (Forward.n_forecasts self))))).
  exists (map component attrs).
  assert (Hshare : forall p, In p attrs ->
            length (zip_with Qdiv (sum_axis1 (snd p)) sum_per_forecast) = N).
  { intros p Hp. rewrite length_zip_with, Hlen.
    rewrite Forall_forall in Hlens.
    rewrite (Hlens p) by now apply list_elem_of_In. lia. }
  split; [|split].
  - apply for_each_Forall2. rewrite Hnames.
    apply Forall2_fmap, Forall_Forall2_diag, Forall_forall.
    intros p Hp. apply list_elem_of_In in Hp.
    rewrite (getitem_In attrs (fst p) (snd p) Hnd)
      by now destruct p.
    cbn [mbind Py.result_bind Py.rbind]. unfold reshape.
    rewrite (Hshare p Hp). fold nq. fold N. rewrite Nat.eqb_refl.
    reflexivity.
  - rewrite map_map. cbn [component fst].
    rewrite <- (map_map fst (fun name => ("lagged_regressor_" ++ name)%string)),
      <- Hnames, map_map. reflexivity.
  - intros b h q x Hh Hq Hx.
    assert (Hj : (h * nq + q < N)%nat) by (unfold N; nia).
    assert (Hnzj : ~ nth (h * nq + q) sum_per_forecast 0 == 0)
      by (rewrite (Htotal _ Hj); exact (Hnz _ Hj)).
    exists (map (fun p : string * Tensor.matrix =>
                   x * (nth (h * nq + q) (sum_axis1 (snd p)) 0
                        / nth (h * nq + q) sum_per_forecast 0))
              attrs).
    split; [|split].
    + apply Forall2_fmap, Forall_Forall2_diag, Forall_forall.
      intros p Hp. apply list_elem_of_In in Hp. cbn [component snd].
      apply entry_multiply; [exact Hx|].
      rewrite (view_row_lookup nq _ (Forward.n_forecasts self) h q Hh Hq).
      rewrite lookup_zip_with, !nth_lookup.
      rewrite Forall_forall in Hlens.
      pose proof (Hlens p (proj2 (list_elem_of_In _ _) Hp)) as Hlp.
      cbn beta in Hlp.
      destruct (lookup_lt_is_Some_2 (sum_axis1 (snd p)) (h * nq + q))
        as [s ->]; [lia|].
      destruct (lookup_lt_is_Some_2 sum_per_forecast (h * nq + q))
        as [t ->]; [lia|]. reflexivity.
    + apply Forall2_fmap_r, Forall_Forall2_diag, Forall_forall.
      intros p _. unfold compose. cbn beta.
      rewrite <- (Htotal _ Hj). field. exact Hnzj.
    + rewrite <- (map_map (fun p => nth (h * nq + q) (sum_axis1 (snd p)) 0)
                    (fun s => x * (s / nth (h * nq + q) sum_per_forecast 0))).
      rewrite Qsum_shares, (Htotal _ Hj). field. exact (Hnz _ Hj).
Qed.

Lemma lagged_regressor_components_add_up_witness :
  exists components,
    compute_components_lagged_regressors AttributionDemo.net
      (Some AttributionDemo.covar_weights)
      (Some AttributionDemo.covariates_input)
      AttributionDemo.components_raw = Py.Ok components
    /\ map fst components
       = ["lagged_regressor_temp"; "lagged_regressor_rain"]%string.
Proof.
  destruct (lagged_regressor_components_add_up AttributionDemo.net
              AttributionDemo.covar_weights AttributionDemo.covariates_input
              AttributionDemo.components_raw [[[4; 8]; [12; 16]]]%Q
              eq_refl eq_refl) as [_ Hsome].
  destruct Hsome as (components & Hrun & Hnames & _).
  - discriminate.
  - apply NoDup_cons. split; [|apply NoDup_singleton].
    intros Hin. apply list_elem_of_In in Hin.
    destruct Hin as [Heq|[]]. discriminate.
  - reflexivity.
  - repeat constructor.
  - intros j Hj. cbn in Hj.
    destruct j as [|[|[|[|j]]]]; [| | | |lia]; vm_compute; discriminate.
  - exists components. split; [exact Hrun|exact Hnames].
Defined.
